(** * Boat Management System: a shallow embedding of [BoatManagement.c]

    The marina program keeps up to 120 vessels in an array of pointers
    that is kept sorted by name; it loads the array from a CSV file,
    edits it through interactive commands, and writes it back.

    The file is organised like the program:
    - [Libc]: the C library functions the program calls (ctype, string,
      stdio), each modelled after its C semantics;
    - [F32] and [F64]: IEEE 754 binary32 ([float]) and binary64
      ([double]) arithmetic, from the standard library's [SpecFloat];
    - [Stdio]: the numeric conversions [atoi], [atof] and [printf];
    - the record model, the CSV reader shared by [loadData] and
      [insertVessel], [saveData], and the fleet operations;
    - the notions the statements use, and sample data;
    - the properties: of the library functions, of the order of names,
      of each operation, of the reader, of payments and billing, and of
      the rounding of [float] arithmetic.

    C strings are [string]s; a byte is the [Z] value of an [unsigned char].
    The array [fleet[0 .. totalCount-1]] is a [list Vessel] whose length is
    [totalCount]: the program never reads a slot at or beyond the count.
    Input streams ([stdin], the data file) are the strings of their
    remaining bytes. [malloc] is assumed to succeed. *)

From Stdlib Require Import ZArith Ascii Lia QArith.
From Stdlib Require String DecimalString DecimalN.
From Corelib Require Import SpecFloat.
From stdpp Require Import base list sorting strings.

Local Open Scope Z_scope.

(* ================================================================== *)
(** * The C library *)
(* ================================================================== *)

Module Libc.

(** ** <ctype.h>, in the "C" locale *)

(** The value of a character as an [unsigned char]. *)
Definition byte (c : ascii) : Z := Z.of_N (N_of_ascii c).

Definition char_of (b : Z) : ascii := ascii_of_N (Z.to_N b).

Definition NUL : ascii := zero.
Definition newline : ascii := char_of 10.
Definition comma : ascii := char_of 44.

Definition isupper (c : Z) : bool := (65 <=? c) && (c <=? 90).
Definition islower (c : Z) : bool := (97 <=? c) && (c <=? 122).
Definition isdigit (c : Z) : bool := (48 <=? c) && (c <=? 57).
Definition isxdigit (c : Z) : bool :=
  isdigit c || ((65 <=? c) && (c <=? 70)) || ((97 <=? c) && (c <=? 102)).
Definition isspace (c : Z) : bool := ((9 <=? c) && (c <=? 13)) || (c =? 32).

Definition tolower (c : Z) : Z := if isupper c then c + 32 else c.
Definition toupper (c : Z) : Z := if islower c then c - 32 else c.

(** ** <string.h> *)

(** The first byte of a C string; the terminator when it is empty. *)
Definition head_byte (s : string) : Z :=
  match s with
  | EmptyString => 0
  | String c _ => byte c
  end.

(** The C string held in a buffer: the bytes before the first NUL. *)
Fixpoint cstr (s : string) : string :=
  match s with
  | EmptyString => EmptyString
  | String c r => if byte c =? 0 then EmptyString else String c (cstr r)
  end.

Definition strlen (s : string) : nat := String.length (cstr s).

(** [strcmp]: difference of the first bytes that differ, as unsigned
    chars; the comparison stops at the terminator. *)
Fixpoint strcmp (s1 s2 : string) : Z :=
  let c1 := head_byte s1 in
  let c2 := head_byte s2 in
  if negb (c1 - c2 =? 0) then c1 - c2
  else match s1, s2 with
       | String _ r1, String _ r2 => if c1 =? 0 then 0 else strcmp r1 r2
       | _, _ => 0
       end.

(** [strcasecmp]: the same over the lower-cased bytes. *)
Fixpoint strcasecmp (s1 s2 : string) : Z :=
  let c1 := head_byte s1 in
  let c2 := head_byte s2 in
  let result := tolower c1 - tolower c2 in
  if negb (result =? 0) then result
  else match s1, s2 with
       | String _ r1, String _ r2 => if c1 =? 0 then 0 else strcasecmp r1 r2
       | _, _ => 0
       end.

(** Is byte [c] one of the bytes of the C string [set]? *)
Fixpoint in_set (c : Z) (set : string) : bool :=
  match set with
  | EmptyString => false
  | String d r => if byte d =? 0 then false
                  else (c =? byte d) || in_set c r
  end.

(** [strspn s accept]: length of the initial segment of [s] made of
    bytes of [accept]. *)
Fixpoint strspn (s accept : string) : nat :=
  match s with
  | EmptyString => O
  | String c r => if in_set (byte c) accept then S (strspn r accept) else O
  end.

(** [strcspn s reject]: length of the initial segment of [s] free of
    bytes of [reject] (and of the terminator). *)
Fixpoint strcspn (s reject : string) : nat :=
  match s with
  | EmptyString => O
  | String c r =>
      if (byte c =? 0) || in_set (byte c) reject then O
      else S (strcspn r reject)
  end.

Fixpoint string_take (n : nat) (s : string) : string :=
  match n, s with
  | S n', String c r => String c (string_take n' r)
  | _, _ => EmptyString
  end.

Fixpoint string_drop (n : nat) (s : string) : string :=
  match n, s with
  | S n', String _ r => string_drop n' r
  | _, _ => s
  end.

(** [buf[k] = '\0']: the C string left in [buf] when its byte [k] is
    overwritten with the terminator. *)
Definition terminate_at (k : nat) (buf : string) : string :=
  cstr (string_take k buf).

(** [strncpy(dst, src, n); dst[n] = '\0';] the idiom the program uses:
    the C string left in [dst] is [src] cut to its first [n] bytes. *)
Definition strncpy (src : string) (n : nat) : string :=
  string_take n (cstr src).

(** [strtok_r(s, delim, &save)] called with [s] non-null, as the program
    does at every call ([s] is the previous [save]). Leading delimiters
    are skipped; [None] is the null pointer; otherwise the token and the
    new [save]. *)
Definition strtok_r (s delim : string) : option (string * string) :=
  let s := cstr s in
  let s := string_drop (strspn s delim) s in
  match s with
  | EmptyString => None
  | _ =>
      let k := strcspn s delim in
      Some (string_take k s, string_drop (S k) s)
  end.

(** ** <stdio.h>: reading *)

(** [fgets(buf, size, fp)] on a stream given by its remaining bytes:
    at most [size - 1] bytes, up to and including the first newline.
    [fgets_take] splits the stream at that point. *)
Fixpoint fgets_take (room : nat) (fp : string) : string * string :=
  match room, fp with
  | S room', String c r =>
      if byte c =? 10 then (String c EmptyString, r)
      else let '(l, rest) := fgets_take room' r in (String c l, rest)
  | _, _ => (EmptyString, fp)
  end.

(** [None] is the null pointer: end of file with nothing read. *)
Definition fgets (size : nat) (fp : string) : option (string * string) :=
  match fp with
  | EmptyString => None
  | _ => Some (fgets_take (size - 1) fp)
  end.

End Libc.

(* ================================================================== *)
(** * Floating point: C [float] and [double] *)
(* ================================================================== *)

(** Both types are IEEE 754 formats; [SpecFloat] gives their operations
    with rounding to nearest, ties to even. A NaN carries no sign. *)

Definition float := spec_float.
Definition double := spec_float.

(** The rational number a float stands for (0 for infinities and NaN). *)
Definition float_value (x : spec_float) : Q :=
  match x with
  | S754_finite s m e =>
      let n := if s then Zneg m else Zpos m in
      if 0 <=? e then inject_Z (n * 2 ^ e)
      else Qmake n (Z.to_pos (2 ^ (- e)))
  | _ => 0%Q
  end.

Module F64.
Definition prec : Z := 53.
Definition emax : Z := 1024.

Definition mul : double -> double -> double := SFmul prec emax.

(** The double nearest to the integer [n * 2^e]. *)
Definition of_binary (n e : Z) : double := binary_normalize prec emax n e false.

(** The double nearest to [m * 10^e10] for [m > 0], negated when [s]:
    what a decimal constant or a decimal string converts to. *)
Definition of_decimal (s : bool) (m : positive) (e10 : Z) : double :=
  if 0 <=? e10
  then binary_normalize prec emax (cond_Zopp s (Zpos m * 10 ^ e10)) 0 false
  else SFdiv prec emax (S754_finite s m 0)
                       (S754_finite false (Z.to_pos (10 ^ (- e10))) 0).

(** [(double) x] for a [float x]: exact, renormalised. *)
Definition of_float (x : float) : double :=
  match x with
  | S754_finite s m e => binary_round prec emax s m e
  | _ => x
  end.
End F64.

Module F32.
Definition prec : Z := 24.
Definition emax : Z := 128.

Definition add : float -> float -> float := SFadd prec emax.
Definition sub : float -> float -> float := SFsub prec emax.

(** [x >= y], [x < y]: false when either side is a NaN. *)
Definition geb (x y : float) : bool := SFleb y x.
Definition ltb (x y : float) : bool := SFltb x y.

(** [(float) x] for a [double x]: rounded to nearest. *)
Definition of_double (x : double) : float :=
  match x with
  | S754_finite s m e => binary_round prec emax s m e
  | _ => x
  end.

Definition valid (x : float) : bool := valid_binary prec emax x.
End F32.

(* ================================================================== *)
(** * Numeric conversions of <stdlib.h> and <stdio.h> *)
(* ================================================================== *)

Module Stdio.
Import Libc.

Fixpoint skip_space (s : string) : string :=
  match s with
  | String c r => if isspace (byte c) then skip_space r else s
  | EmptyString => s
  end.

(** An optional ['+'] or ['-']: is it a minus, and what follows. *)
Definition read_sign (s : string) : bool * string :=
  match s with
  | String c r =>
      if byte c =? 45 then (true, r)
      else if byte c =? 43 then (false, r)
      else (false, s)
  | EmptyString => (false, s)
  end.

(** A run of decimal digits continuing the number [acc]: its value,
    how many digits were read, and what follows. *)
Fixpoint read_digits (acc : Z) (s : string) : Z * nat * string :=
  match s with
  | String c r =>
      if isdigit (byte c) then
        let '(v, n, rest) := read_digits (acc * 10 + (byte c - 48)) r in
        (v, S n, rest)
      else (acc, O, s)
  | EmptyString => (acc, O, s)
  end.

Definition xdigit_value (c : Z) : Z :=
  if isdigit c then c - 48 else tolower c - 87.

Fixpoint read_xdigits (acc : Z) (s : string) : Z * nat * string :=
  match s with
  | String c r =>
      if isxdigit (byte c) then
        let '(v, n, rest) := read_xdigits (acc * 16 + xdigit_value (byte c)) r in
        (v, S n, rest)
      else (acc, O, s)
  | EmptyString => (acc, O, s)
  end.

(** ** [atoi] *)

Definition LONG_MAX : Z := 2 ^ 63 - 1.
Definition LONG_MIN : Z := - 2 ^ 63.

(** [strtol(s, NULL, 10)]: out-of-range values are clamped. *)
Definition strtol (s : string) : Z :=
  let '(neg, r) := read_sign (skip_space s) in
  let '(v, _, _) := read_digits 0 r in
  Z.max LONG_MIN (Z.min LONG_MAX (if neg then - v else v)).

(** Conversion of a [long] to [int]: the low 32 bits, signed. *)
Definition to_int (n : Z) : Z := (n + 2 ^ 31) mod 2 ^ 32 - 2 ^ 31.

Definition atoi (s : string) : Z := to_int (strtol s).

(** ** [atof] *)

(** Does [s] start with the lower-case word [w], whatever its case?
    Returns what follows. *)
Fixpoint skip_word (w s : string) : option string :=
  match w, s with
  | EmptyString, _ => Some s
  | String a w', String c r =>
      if tolower (byte c) =? byte a then skip_word w' r else None
  | String _ _, EmptyString => None
  end.

(** An optional exponent part introduced by the byte [mark] (lower
    case): its value, 0 when there is none. *)
Definition read_exponent (mark : Z) (s : string) : Z :=
  match s with
  | String c r =>
      if tolower (byte c) =? mark then
        let '(neg, r') := read_sign r in
        let '(v, n, _) := read_digits 0 r' in
        match n with
        | O => 0
        | S _ => if neg then - v else v
        end
      else 0
  | EmptyString => 0
  end.

Definition starts_with_dot (s : string) : option string :=
  match s with
  | String c r => if byte c =? 46 then Some r else None
  | EmptyString => None
  end.

(** A decimal floating constant after its sign; [None] when no digit
    is found (no conversion). *)
Definition read_decimal (neg : bool) (s : string) : option double :=
  let '(ip, ni, r1) := read_digits 0 s in
  let '(m, nf, r2) :=
    match starts_with_dot r1 with
    | Some r => read_digits ip r
    | None => (ip, O, r1)
    end in
  match (ni + nf)%nat with
  | O => None
  | S _ =>
      Some match m with
           | Zpos p =>
               F64.of_decimal neg p (read_exponent 101 r2 - Z.of_nat nf)
           | _ => S754_zero neg
           end
  end.

(** A hexadecimal floating constant after its sign and its [0x]. *)
Definition read_hex (neg : bool) (s : string) : option double :=
  let '(ip, ni, r1) := read_xdigits 0 s in
  let '(m, nf, r2) :=
    match starts_with_dot r1 with
    | Some r => read_xdigits ip r
    | None => (ip, O, r1)
    end in
  match (ni + nf)%nat with
  | O => None
  | S _ =>
      Some match m with
           | Zpos p =>
               binary_normalize F64.prec F64.emax (cond_Zopp neg (Zpos p))
                 (read_exponent 112 r2 - 4 * Z.of_nat nf) false
           | _ => S754_zero neg
           end
  end.

(** [strtod(s, NULL)]: the correctly rounded value of the longest
    prefix that is a floating constant, an infinity or a NaN; zero
    when there is none. *)
Definition strtod (s : string) : double :=
  let '(neg, r) := read_sign (skip_space s) in
  match skip_word "inf" r with
  | Some _ => S754_infinity neg
  | None =>
  match skip_word "nan" r with
  | Some _ => S754_nan
  | None =>
  let hex := match skip_word "0x" r with
             | Some r' => read_hex neg r'
             | None => None
             end in
  match hex with
  | Some x => x
  | None =>
  match read_decimal neg r with
  | Some x => x
  | None => S754_zero false
  end end end end.

Definition atof (s : string) : double := strtod s.

(** ** [printf] conversions *)

Definition fmt_nat (n : Z) : string :=
  DecimalString.NilZero.string_of_uint (N.to_uint (Z.to_N n)).

(** ["%d"] *)
Definition fmt_d (n : Z) : string :=
  if n <? 0 then "-" +:+ fmt_nat (- n) else fmt_nat n.

(** ["%c"] *)
Definition fmt_c (c : ascii) : string := String c EmptyString.

(** The integer nearest to [n / d] for [d > 0], ties to even. *)
Definition div_nearest_even (n d : Z) : Z :=
  let q := n / d in
  match 2 * (n mod d) ?= d with
  | Lt => q
  | Gt => q + 1
  | Eq => if Z.even q then q else q + 1
  end.

(** [m * 2^e * 10^digits] rounded to an integer. *)
Definition scaled (digits : nat) (m : positive) (e : Z) : Z :=
  let n := Zpos m * 10 ^ Z.of_nat digits in
  if 0 <=? e then n * 2 ^ e else div_nearest_even n (2 ^ (- e)).

Fixpoint zero_pad (width : nat) (s : string) : string :=
  match (width - String.length s)%nat with
  | O => s
  | S _ => match width with
           | O => s
           | S w => "0" +:+ zero_pad w s
           end
  end.

(** The digits of the scaled integer [n], with the decimal point. *)
Definition fixed (digits : nat) (n : Z) : string :=
  match digits with
  | O => fmt_nat n
  | S _ =>
      fmt_nat (n / 10 ^ Z.of_nat digits) +:+ "." +:+
      zero_pad digits (fmt_nat (n mod 10 ^ Z.of_nat digits))
  end.

(** ["%.<digits>f"] of a [double]: the exact value rounded to [digits]
    decimals, ties to even. A NaN is printed without the sign that
    [printf] may put in front of it. *)
Definition fmt_f (digits : nat) (x : double) : string :=
  match x with
  | S754_nan => "nan"
  | S754_infinity s => (if s then "-" else "") +:+ "inf"
  | S754_zero s => (if s then "-" else "") +:+ fixed digits 0
  | S754_finite s m e =>
      (if s then "-" else "") +:+ fixed digits (scaled digits m e)
  end.

End Stdio.

(* ================================================================== *)
(** * The record model *)
(* ================================================================== *)

Import Libc Stdio.

Definition MAX_VESSELS : nat := 120.
Definition MAX_VESSEL_NAME_LEN : nat := 128.

(** Monthly billing rates (dollars per foot): the doubles the constants
    [12.50], [14.00], [25.00] and [11.20] denote. *)
Definition RATE_SLIP : double := F64.of_decimal false 1250 (-2).
Definition RATE_LAND : double := F64.of_decimal false 1400 (-2).
Definition RATE_TRAILER : double := F64.of_decimal false 2500 (-2).
Definition RATE_STORAGE : double := F64.of_decimal false 1120 (-2).

Inductive LocationCategory : Set := SLIP | LAND | TRAILOR | STORAGE.

(** The union of location data, as the member that was last written. *)
Inductive LocDetails : Set :=
| slipNo (n : Z)
| bayLabel (c : ascii)
| trailerTag (tag : string)
| storageSpot (n : Z).

Record Vessel : Set := mkVessel {
  vesselName : string;
  lengthFt : float;
  locationCat : LocationCategory;
  locationInfo : LocDetails;
  outstandingFees : float
}.

(** Reading a member of the union. The program only reads the member its
    readers wrote for the vessel's category ([category_matches] below);
    the two [int] members share their storage, and the other mixed reads
    get a default here. *)
Definition read_int (d : LocDetails) : Z :=
  match d with
  | slipNo n | storageSpot n => n
  | _ => 0
  end.

Definition read_bayLabel (d : LocDetails) : ascii :=
  match d with
  | bayLabel c => c
  | _ => NUL
  end.

Definition read_trailerTag (d : LocDetails) : string :=
  match d with
  | trailerTag t => t
  | _ => EmptyString
  end.

Definition category_matches (v : Vessel) : Prop :=
  match locationCat v, locationInfo v with
  | SLIP, slipNo _ | LAND, bayLabel _
  | TRAILOR, trailerTag _ | STORAGE, storageSpot _ => True
  | _, _ => False
  end.

Definition with_fees (v : Vessel) (fees : float) : Vessel :=
  mkVessel (vesselName v) (lengthFt v) (locationCat v) (locationInfo v) fees.

Definition locationCategoryToStr (lc : LocationCategory) : string :=
  match lc with
  | SLIP => "slip"
  | LAND => "land"
  | TRAILOR => "trailor"
  | STORAGE => "storage"
  end.

(** What the program prints to the operator. *)
Inductive Message : Set :=
| MaximumCapacityReached      (* "Error: Maximum capacity reached." *)
| InvalidCSVFormat            (* "Error: Invalid CSV format." *)
| IncompleteData              (* "Error: Incomplete data." *)
| UnknownLocation             (* "Error: Unknown location." *)
| MissingFeeData              (* "Error: Missing fee data." *)
| NoBoatWithThatName          (* "No boat with that name" *)
| MoreThanOwed (owed : float) (* "That is more than the amount owed, $%.2f" *).

(* ================================================================== *)
(** * Reading one CSV record *)
(* ================================================================== *)

(** [loadData] and [insertVessel] read a record with the same sequence of
    [strtok_r] calls. They differ in the function that compares the
    category token ([strcmp] in [loadData], [strcasecmp] in
    [insertVessel]) and in what they do with a failure: [loadData] skips
    the line silently, [insertVessel] prints a message. [readRecord] is
    that common body; a failure names the step that failed. *)

Inductive ReadError : Set :=
| NoName          (* first token missing *)
| NoLength        (* second token missing *)
| NoCategory      (* third token missing *)
| UnknownCategory (* third token is none of the four words *)
| NoLocation      (* location token missing *)
| NoFees          (* fee token missing *).

Definition next_token (e : ReadError) (rest : string)
  : ReadError + (string * string) :=
  match strtok_r rest "," with
  | None => inl e
  | Some tr => inr tr
  end.

Notation "'get' p := e 'in' k" :=
  (match e with
   | inl err => inl err
   | inr p => k
   end)
  (at level 10, p pattern, e at level 100, k at level 200, only parsing).

Definition first_char (s : string) : ascii :=
  match s with
  | String c _ => c
  | EmptyString => NUL
  end.

(** The category token and the location token that follows it. *)
Definition readLocation (cmp : string -> string -> Z) (token rest : string)
  : ReadError + (LocationCategory * LocDetails * string) :=
  if cmp token "slip" =? 0 then
    get (token, rest) := next_token NoLocation rest in
    inr (SLIP, slipNo (atoi token), rest)
  else if cmp token "land" =? 0 then
    get (token, rest) := next_token NoLocation rest in
    if Nat.eqb (strlen token) 0 then inl NoLocation
    else inr (LAND, bayLabel (first_char token), rest)
  else if cmp token "trailor" =? 0 then
    get (token, rest) := next_token NoLocation rest in
    inr (TRAILOR, trailerTag (strncpy token 9), rest)
  else if cmp token "storage" =? 0 then
    get (token, rest) := next_token NoLocation rest in
    inr (STORAGE, storageSpot (atoi token), rest)
  else inl UnknownCategory.

Definition readRecord (cmp : string -> string -> Z) (line : string)
  : ReadError + Vessel :=
  get (token, rest) := next_token NoName line in
  let name := strncpy token (MAX_VESSEL_NAME_LEN - 1) in
  get (token, rest) := next_token NoLength rest in
  let len := F32.of_double (atof token) in
  get (token, rest) := next_token NoCategory rest in
  get (cat, info, rest) := readLocation cmp token rest in
  get (token, rest) := next_token NoFees rest in
  inr (mkVessel name len cat info (F32.of_double (atof token))).

(* ================================================================== *)
(** * The fleet *)
(* ================================================================== *)

Definition compareVessels (va vb : Vessel) : Z :=
  strcasecmp (vesselName va) (vesselName vb).

(** The order [qsort] sorts by: [a] may stand before [b]. *)
Definition vessel_le (va vb : Vessel) : Prop := compareVessels va vb <= 0.

#[global] Instance vessel_le_dec va vb : Decision (vessel_le va vb) :=
  Z_le_dec _ _.

(** [qsort(fleet, count, sizeof(Vessel* ), compareVessels)]. The C standard
    promises a rearrangement in ascending order of the comparison and
    leaves the order of equal elements open; the model is a merge sort. *)
Definition qsort (fleet : list Vessel) : list Vessel :=
  merge_sort vessel_le fleet.

(** ** [locateVesselByName] *)

Fixpoint locate_from (i : Z) (fleet : list Vessel) (searchName : string) : Z :=
  match fleet with
  | [] => -1
  | v :: fleet' =>
      if strcasecmp (vesselName v) searchName =? 0 then i
      else locate_from (i + 1) fleet' searchName
  end.

Definition locateVesselByName (fleet : list Vessel) (searchName : string) : Z :=
  locate_from 0 fleet searchName.

(** ** [loadData] *)

(** [fgets(buf, size, fp)] followed by [buf[strcspn(buf, "\n")] = '\0']. *)
Definition read_line (size : nat) (fp : string) : option (string * string) :=
  match fgets size fp with
  | Some (buf, fp') =>
      Some (terminate_at (strcspn buf (String newline EmptyString)) buf, fp')
  | None => None
  end.

(** The reading loop. [fuel] bounds the number of iterations; every
    iteration consumes at least one byte of the file, so the length of
    the file is enough ([loadLoop_fuel]). *)
Fixpoint loadLoop (fuel : nat) (fp : string) (fleet : list Vessel)
  : list Vessel :=
  match fuel with
  | O => fleet
  | S fuel' =>
      match fgets 256 fp with
      | None => fleet
      | Some (buf, fp') =>
          if decide (length fleet < MAX_VESSELS)%nat then
            let line :=
              terminate_at (strcspn buf (String newline EmptyString)) buf in
            match readRecord strcmp line with
            | inr newBoat => loadLoop fuel' fp' (fleet ++ [newBoat])
            | inl _ => loadLoop fuel' fp' fleet
            end
          else fleet
      end
  end.

(** [file] is the content of the file, [None] when it cannot be opened:
    the fleet is then left as it was. *)
Definition loadData (file : option string) (fleet : list Vessel)
  : list Vessel :=
  match file with
  | None => fleet
  | Some fp => qsort (loadLoop (String.length fp) fp [])
  end.

(** ** [saveData] *)

Definition formatLocation (v : Vessel) : string :=
  match locationCat v with
  | SLIP => fmt_d (read_int (locationInfo v))
  | LAND => fmt_c (read_bayLabel (locationInfo v))
  | TRAILOR => read_trailerTag (locationInfo v)
  | STORAGE => fmt_d (read_int (locationInfo v))
  end.

(** The three [fprintf] calls of one iteration. *)
Definition formatVessel (v : Vessel) : string :=
  (vesselName v +:+ "," +:+ fmt_f 0 (F64.of_float (lengthFt v)) +:+ ","
     +:+ locationCategoryToStr (locationCat v) +:+ ",")
  +:+ formatLocation v
  +:+ ("," +:+ fmt_f 2 (F64.of_float (outstandingFees v))
           +:+ String newline EmptyString).

Fixpoint saveData (fleet : list Vessel) : string :=
  match fleet with
  | [] => EmptyString
  | v :: fleet' => formatVessel v +:+ saveData fleet'
  end.

(** ** [insertVessel] *)

Definition insert_message (e : ReadError) : Message :=
  match e with
  | NoName | NoLength | NoCategory => InvalidCSVFormat
  | NoLocation => IncompleteData
  | UnknownCategory => UnknownLocation
  | NoFees => MissingFeeData
  end.

Definition insertVessel (fleet : list Vessel) (csvLine : string)
  : list Vessel * option Message :=
  if decide (MAX_VESSELS <= length fleet)%nat then
    (fleet, Some MaximumCapacityReached)
  else
    let buffer := strncpy csvLine 255 in
    match readRecord strcasecmp buffer with
    | inl e => (fleet, Some (insert_message e))
    | inr newBoat => (qsort (fleet ++ [newBoat]), None)
    end.

(** ** [removeVessel] *)

(** [for (i = idx; i < count - 1; i++) fleet[i] = fleet[i + 1];] with
    [steps] iterations left. *)
Fixpoint shift_left (steps : nat) (i : nat) (fleet : list Vessel)
  : list Vessel :=
  match steps with
  | O => fleet
  | S steps' =>
      match fleet !! S i with
      | Some next => shift_left steps' (S i) (<[i := next]> fleet)
      | None => fleet
      end
  end.

(** The operator's input is the stream [stdin]; the rest of it is
    returned. *)
Definition removeVessel (stdin : string) (fleet : list Vessel)
  : list Vessel * string * option Message :=
  match read_line MAX_VESSEL_NAME_LEN stdin with
  | Some (targetName, stdin') =>
      let idx := locateVesselByName fleet targetName in
      if idx =? -1 then (fleet, stdin', Some NoBoatWithThatName)
      else
        let count := length fleet in
        let fleet' := shift_left (count - 1 - Z.to_nat idx) (Z.to_nat idx) fleet in
        (take (count - 1) fleet', stdin', None)
  | None => (fleet, stdin, None)
  end.

(** ** [recordPayment] *)

Definition recordPayment (stdin : string) (fleet : list Vessel)
  : list Vessel * string * option Message :=
  match read_line MAX_VESSEL_NAME_LEN stdin with
  | Some (inputName, stdin') =>
      let index := locateVesselByName fleet inputName in
      if index =? -1 then (fleet, stdin', Some NoBoatWithThatName)
      else
        match fgets 50 stdin', fleet !! Z.to_nat index with
        | Some (buf, stdin''), Some v =>
            let amount := F32.of_double (atof buf) in
            if F32.geb amount (outstandingFees v) then
              (fleet, stdin'', Some (MoreThanOwed (outstandingFees v)))
            else
              (<[Z.to_nat index :=
                   with_fees v (F32.sub (outstandingFees v) amount)]> fleet,
               stdin'', None)
        | _, _ => (fleet, stdin', None)
        end
  | None => (fleet, stdin, None)
  end.

(** ** [applyMonthlyFees] *)

Definition rate (lc : LocationCategory) : double :=
  match lc with
  | SLIP => RATE_SLIP
  | LAND => RATE_LAND
  | TRAILOR => RATE_TRAILER
  | STORAGE => RATE_STORAGE
  end.

(** [monthlyCharge = v->lengthFt * RATE;] the product is a [double],
    stored in a [float]. *)
Definition monthlyCharge (v : Vessel) : float :=
  F32.of_double (F64.mul (F64.of_float (lengthFt v)) (rate (locationCat v))).

Definition bill (v : Vessel) : Vessel :=
  with_fees v (F32.add (outstandingFees v) (monthlyCharge v)).

(** The loop over [i = 0 .. totalCount - 1], with [steps] iterations
    left. *)
Fixpoint fees_loop (steps : nat) (i : nat) (fleet : list Vessel)
  : list Vessel :=
  match steps with
  | O => fleet
  | S steps' => fees_loop steps' (S i) (alter bill i fleet)
  end.

Definition applyMonthlyFees (fleet : list Vessel) : list Vessel :=
  fees_loop (length fleet) 0 fleet.

(** ** A session *)

(** The commands of the menu that change the fleet, each with what the
    operator types after it. *)
Inductive Command : Set :=
| Add (csvLine : string)
| Remove (stdin : string)
| Payment (stdin : string)
| Month.

Definition execute (fleet : list Vessel) (c : Command) : list Vessel :=
  match c with
  | Add csvLine => (insertVessel fleet csvLine).1
  | Remove stdin => (removeVessel stdin fleet).1.1
  | Payment stdin => (recordPayment stdin fleet).1.1
  | Month => applyMonthlyFees fleet
  end.

Definition session (fleet : list Vessel) (cs : list Command) : list Vessel :=
  foldl execute fleet cs.

(* ================================================================== *)
(** * The order of names *)
(* ================================================================== *)

(** The order the comparison function induces on names. *)
Definition name_le (a b : string) : Prop := strcasecmp a b <= 0.

#[global] Instance name_le_dec a b : Decision (name_le a b) := Z_le_dec _ _.

(** The same order said without the program: names are compared as the
    sequences of their lower-cased bytes, lexicographically. *)
Fixpoint fold_case (s : string) : list Z :=
  match s with
  | EmptyString => []
  | String c r => if byte c =? 0 then [] else tolower (byte c) :: fold_case r
  end.

Fixpoint lex_le (a b : list Z) : Prop :=
  match a, b with
  | [], _ => True
  | _ :: _, [] => False
  | x :: a', y :: b' => x < y \/ (x = y /\ lex_le a' b')
  end.

Definition case_insensitive_le (a b : string) : Prop :=
  lex_le (fold_case a) (fold_case b).

(** The fleet is in order when its names are. *)
Definition sorted_by_name (fleet : list Vessel) : Prop :=
  StronglySorted name_le (vesselName <$> fleet).

(* ================================================================== *)
(** * Notions used in the statements *)
(* ================================================================== *)

(** A C string after its first byte. *)
Definition tail (s : string) : string :=
  match s with
  | EmptyString => EmptyString
  | String _ r => r
  end.

(** The test of [locateVesselByName]: the name of [v] equals
    [searchName] up to case. *)
Definition matches (searchName : string) (v : Vessel) : Prop :=
  strcasecmp (vesselName v) searchName = 0.

(** The four words, as bytes. *)
Definition category_words : list string := ["slip"; "land"; "trailor"; "storage"].

(** Lines that hold no field: up to the terminator, nothing but commas. *)
Fixpoint only_commas (s : string) : Prop :=
  match s with
  | EmptyString => True
  | String c r => byte c = 0 \/ (byte c = 44 /\ only_commas r)
  end.

(** The name fits the 128 bytes of [vesselName], terminator included. *)
Definition name_fits (v : Vessel) : Prop :=
  (String.length (vesselName v) <= 127)%nat.

(** The balance is a well-formed binary32 value (an infinity and a NaN
    count as such). *)
Definition fees_valid (v : Vessel) : Prop :=
  F32.valid (outstandingFees v) = true.

(** Zero, a positive float or plus infinity. *)
Definition not_negative (x : spec_float) : Prop :=
  match x with
  | S754_zero _ | S754_finite false _ _ | S754_infinity false => True
  | _ => False
  end.

(* ================================================================== *)
(** * Sample data *)
(* ================================================================== *)

(** A line of text as it is typed or stored: with its newline. *)
Definition ln (s : string) : string := s +:+ String newline EmptyString.

(** The floats 20, 10, 30, 100, 375 and 0. *)
Definition f20 : float := S754_finite false 10485760 (-19).
Definition f10 : float := S754_finite false 10485760 (-20).
Definition f30 : float := S754_finite false 15728640 (-19).
Definition f100 : float := S754_finite false 13107200 (-17).
Definition f375 : float := S754_finite false 12288000 (-15).
Definition f0 : float := S754_zero false.

(** The vessels of ["Alpha,20,slip,5,100.00"] and ["beta,10,land,B,0.00"]. *)
Definition Alpha : Vessel := mkVessel "Alpha" f20 SLIP (slipNo 5) f100.
Definition beta : Vessel := mkVessel "beta" f10 LAND (bayLabel "B") f0.

Definition two_boats : list Vessel := [Alpha; beta].

Definition full_fleet : list Vessel := replicate 120 Alpha.

Definition Gamma : Vessel := mkVessel "Gamma" f30 SLIP (slipNo 7) f100.

(** A balance of 16777216 (2^24), where consecutive floats are 2 apart. *)
Definition f16777216 : float := S754_finite false 8388608 1.

Definition Big : Vessel := mkVessel "Big" f20 SLIP (slipNo 5) f16777216.

(** A name of 130 characters. *)
Definition long_name : string :=
  String.concat EmptyString (replicate 130 "N").

Definition long_line : string := long_name +:+ ",20,slip,5,100.00".

(** A name field of 300 characters, [a] 255 times and [b] 45 times, in
    a line that does not fit the buffer of 256 bytes. *)
Definition tail_45 : string := String.concat EmptyString (replicate 45 "b").

Definition name_300 : string :=
  String.concat EmptyString (replicate 255 "a") +:+ tail_45.

Definition line_300 : string := name_300 +:+ ",20,slip,5,100.00".

(* ================================================================== *)
(** * The listing and the menu *)
(* ================================================================== *)

(** ** [listAllVessels] *)

Fixpoint spaces (n : nat) : string :=
  match n with
  | O => EmptyString
  | S n' => String (char_of 32) (spaces n')
  end.

(** ["%<width>s"] and the other right-justified conversions: blanks in
    front, nothing cut. *)
Definition pad_left (width : nat) (s : string) : string :=
  spaces (width - String.length s) +:+ s.

(** ["%-<width>s"]: blanks behind. *)
Definition pad_right (width : nat) (s : string) : string :=
  s +:+ spaces (width - String.length s).

(** The location columns of one line. *)
Definition listLocation (v : Vessel) : string :=
  match locationCat v with
  | SLIP =>
      pad_left 8 "slip" +:+ "   # " +:+ pad_left 2 (fmt_d (read_int (locationInfo v)))
  | LAND =>
      pad_left 8 "land" +:+ "      " +:+ fmt_c (read_bayLabel (locationInfo v))
  | TRAILOR =>
      pad_left 8 "trailor" +:+ " " +:+ pad_left 6 (read_trailerTag (locationInfo v))
  | STORAGE =>
      pad_left 8 "storage" +:+ "   # " +:+ pad_left 2 (fmt_d (read_int (locationInfo v)))
  end.

(** The three [printf] calls of one iteration. *)
Definition listLine (v : Vessel) : string :=
  (pad_right 20 (vesselName v) +:+ " "
     +:+ pad_left 3 (fmt_f 0 (F64.of_float (lengthFt v))) +:+ "' ")
  +:+ listLocation v
  +:+ ("   Owes $" +:+ pad_left 7 (fmt_f 2 (F64.of_float (outstandingFees v)))
                   +:+ String newline EmptyString).

Fixpoint listLines (fleet : list Vessel) : string :=
  match fleet with
  | [] => EmptyString
  | v :: fleet' => listLine v +:+ listLines fleet'
  end.

(** What [listAllVessels] prints: the lines, then an empty line. *)
Definition listAllVessels (fleet : list Vessel) : string :=
  listLines fleet +:+ String newline EmptyString.

(** ** [main] *)

(** What the session prints, prompts and banners left out. *)
Inductive Printed : Set :=
| Said (m : Message)
| InvalidOption (c : Z)       (* "Invalid option %c" *)
| Listing (text : string).

Definition say (m : option Message) (out : list Printed) : list Printed :=
  match m with
  | Some m => out ++ [Said m]
  | None => out
  end.

(** How the menu loop ends. *)
Inductive Run : Set :=
| Exits (fleet : list Vessel) (stdin : string) (out : list Printed)
    (* the operator chose X *)
| Hangs (fleet : list Vessel) (out : list Printed)
    (* end of input: [fgets] fails for ever and the choice stays what it
       was *)
| Unspecified
    (* end of input at the first prompt: [userChoice] is tested before
       it was ever assigned *)
| OutOfFuel.

(** The body of the [switch]: the fleet, the input and the output after
    the command [c]. *)
Definition dispatch (c : Z) (stdin : string) (fleet : list Vessel)
    (out : list Printed) : list Vessel * string * list Printed :=
  if c =? 73 (* 'I' *) then
    (fleet, stdin, out ++ [Listing (listAllVessels fleet)])
  else if c =? 65 (* 'A' *) then
    match fgets 256 stdin with
    | Some (inputBuffer, stdin') =>
        let csvLine :=
          terminate_at (strcspn inputBuffer (String newline EmptyString))
                       inputBuffer in
        let '(fleet', m) := insertVessel fleet csvLine in
        (fleet', stdin', say m out)
    | None => (fleet, stdin, out)
    end
  else if c =? 82 (* 'R' *) then
    let '(fleet', stdin', m) := removeVessel stdin fleet in
    (fleet', stdin', say m out)
  else if c =? 80 (* 'P' *) then
    let '(fleet', stdin', m) := recordPayment stdin fleet in
    (fleet', stdin', say m out)
  else if c =? 77 (* 'M' *) then
    (applyMonthlyFees fleet, stdin, out)
  else if c =? 88 (* 'X' *) then
    (fleet, stdin, out)
  else
    (fleet, stdin, out ++ [InvalidOption c]).

(** The [do ... while (userChoice != 'X')] loop, with [fuel] iterations
    at most. [userChoice] is [None] until it is assigned. *)
Fixpoint menuLoop (fuel : nat) (userChoice : option Z) (stdin : string)
    (fleet : list Vessel) (out : list Printed) : Run :=
  match fuel with
  | O => OutOfFuel
  | S fuel' =>
      match fgets 256 stdin with
      | Some (inputBuffer, stdin1) =>
          let c := toupper (head_byte inputBuffer) in
          let '(fleet', stdin', out') := dispatch c stdin1 fleet out in
          if c =? 88 then Exits fleet' stdin' out'
          else menuLoop fuel' (Some c) stdin' fleet' out'
      | None =>
          match userChoice with
          | None => Unspecified
          | Some c => if c =? 88 then Exits fleet stdin out
                      else Hangs fleet out
          end
      end
  end.

(** What [main] leaves behind. *)
Inductive MainResult : Set :=
| Returns (code : Z) (file : option string)
    (* the exit code and the data file as it is afterwards *)
| NoReturn (r : Run).

(** [argc] is the number of arguments, [file] the content of the data
    file ([None] when it cannot be opened for reading), [writable]
    whether it can be opened for writing at exit. *)
Definition main (fuel : nat) (argc : Z) (file : option string)
    (writable : bool) (stdin : string) : MainResult :=
  if negb (argc =? 2) then Returns 1 file
  else
    let fleet := loadData file [] in
    match menuLoop fuel None stdin fleet [] with
    | Exits fleet' _ _ =>
        Returns 0 (if writable then Some (saveData fleet') else file)
    | r => NoReturn r
    end.

(* ================================================================== *)
(** * Further notions used in the statements *)
(* ================================================================== *)

(** No byte of [s] is [b]. *)
Fixpoint free_of (b : Z) (s : string) : Prop :=
  match s with
  | EmptyString => True
  | String c r => byte c <> b /\ free_of b r
  end.

(** A text file made of the given lines. *)
Fixpoint file_of_lines (lines : list string) : string :=
  match lines with
  | [] => EmptyString
  | l :: lines' => ln l +:+ file_of_lines lines'
  end.

(** The vessels of the lines that [loadData] accepts, in their order. *)
Fixpoint accepted (lines : list string) : list Vessel :=
  match lines with
  | [] => []
  | l :: lines' =>
      match readRecord strcmp l with
      | inr v => v :: accepted lines'
      | inl _ => accepted lines'
      end
  end.

(** A line of the data file that [fgets] reads in one piece. *)
Definition short_line (l : string) : Prop :=
  free_of 10 l /\ (String.length l <= 254)%nat.

(** The trailer tag fits the 10 bytes of [trailerTag]. *)
Definition tag_fits (v : Vessel) : Prop :=
  match locationInfo v with
  | trailerTag tag => (String.length tag <= 9)%nat
  | _ => True
  end.

(** No two vessels of the fleet have the same name up to case. *)
Definition distinct_names (fleet : list Vessel) : Prop :=
  forall i j v w,
    fleet !! i = Some v -> fleet !! j = Some w ->
    strcasecmp (vesselName v) (vesselName w) = 0 -> i = j.

(** ** Fields that can be written and read back *)

(** A string without NUL, newline or comma. *)
Definition plain (s : string) : Prop :=
  free_of 0 s /\ free_of 10 s /\ free_of 44 s.

(** What the reader takes as one token. *)
Definition field (s : string) : Prop := s <> EmptyString /\ plain s.

(** A vessel whose line in the file is read back as written: its name,
    bay label or trailer tag is a field that fits its array, its slip or
    storage number is an [int], and its line fits the buffer of 256
    bytes. *)
Definition storable (v : Vessel) : Prop :=
  field (vesselName v) /\ (String.length (vesselName v) <= 127)%nat /\
  match locationCat v, locationInfo v with
  | SLIP, slipNo n | STORAGE, storageSpot n => - 2 ^ 31 <= n < 2 ^ 31
  | LAND, bayLabel c => field (fmt_c c)
  | TRAILOR, trailerTag tag => field tag /\ (String.length tag <= 9)%nat
  | _, _ => False
  end /\
  (String.length (formatVessel v) <= 255)%nat.

(** The vessel with its length and its balance as they are read from
    what [saveData] prints for them. *)
Definition reread (v : Vessel) : Vessel :=
  mkVessel (vesselName v)
           (F32.of_double (atof (fmt_f 0 (F64.of_float (lengthFt v)))))
           (locationCat v) (locationInfo v)
           (F32.of_double (atof (fmt_f 2 (F64.of_float (outstandingFees v))))).

(** The line [formatVessel] writes, without its newline. *)
Definition record (v : Vessel) : string :=
  vesselName v +:+ "," +:+ fmt_f 0 (F64.of_float (lengthFt v)) +:+ ","
    +:+ locationCategoryToStr (locationCat v) +:+ ","
    +:+ formatLocation v +:+ ","
    +:+ fmt_f 2 (F64.of_float (outstandingFees v)).

(** ** What the readers store *)

(** A string as [strtok_r] cuts them: not empty, without NUL or comma. *)
Definition is_token (s : string) : Prop :=
  s <> EmptyString /\ free_of 0 s /\ free_of 44 s.

(** A vessel as the readers store them. *)
Definition well_formed (v : Vessel) : Prop :=
  is_token (vesselName v) /\
  match locationInfo v with
  | slipNo n | storageSpot n => - 2 ^ 31 <= n < 2 ^ 31
  | bayLabel c => byte c <> 0 /\ byte c <> 44
  | trailerTag tag => is_token tag
  end.

(** ** The columns of the listing *)

(** The width [listAllVessels] gives to the location data. *)
Definition location_width (lc : LocationCategory) : nat :=
  match lc with
  | SLIP | STORAGE => 2
  | LAND => 1
  | TRAILOR => 6
  end.

(** The fields of the vessel are no wider than their columns. *)
Definition fits_columns (v : Vessel) : Prop :=
  (String.length (vesselName v) <= 20)%nat /\
  (String.length (fmt_f 0 (F64.of_float (lengthFt v))) <= 3)%nat /\
  (String.length (formatLocation v) <= location_width (locationCat v))%nat /\
  (String.length (fmt_f 2 (F64.of_float (outstandingFees v))) <= 7)%nat.

(* ================================================================== *)
(** * Properties of the C library functions *)
(* ================================================================== *)

Section LibcFacts.

Lemma byte_range c : 0 <= byte c < 256.
Proof.
  unfold byte. pose proof (N_ascii_bounded c) as Hb. lia.
Qed.

Lemma tolower_zero x : tolower x = 0 <-> x = 0.
Proof.
  unfold tolower, isupper.
  destruct (65 <=? x) eqn:E1, (x <=? 90) eqn:E2; simpl; lia.
Qed.

Lemma tolower_idem x : tolower (tolower x) = tolower x.
Proof.
  unfold tolower, isupper.
  destruct (65 <=? x) eqn:E1, (x <=? 90) eqn:E2; simpl;
    rewrite ?E1, ?E2; simpl; try reflexivity.
  replace (x + 32 <=? 90) with false by lia.
  now rewrite andb_false_r.
Qed.

(** One step of the loop of [strcasecmp]. *)
Lemma strcasecmp_unfold s1 s2 :
  strcasecmp s1 s2 =
    let result := tolower (head_byte s1) - tolower (head_byte s2) in
    if negb (result =? 0) then result
    else if head_byte s1 =? 0 then 0
         else strcasecmp (tail s1) (tail s2).
Proof.
  destruct s1 as [|c1 r1], s2 as [|c2 r2]; simpl; try reflexivity.
  destruct (negb (tolower (byte c1) - tolower 0 =? 0)) eqn:E; [reflexivity|].
  apply negb_false_iff, Z.eqb_eq in E.
  assert (tolower (byte c1) = 0) as H0 by (change (tolower 0) with 0 in E; lia).
  apply (proj1 (tolower_zero _)) in H0. rewrite H0. reflexivity.
Qed.

Lemma strcasecmp_refl s : strcasecmp s s = 0.
Proof.
  induction s as [|c r IH]; [reflexivity|].
  rewrite strcasecmp_unfold. cbn [head_byte tail].
  rewrite Z.sub_diag. simpl. destruct (byte c =? 0); auto.
Qed.

(** Swapping the arguments negates the result. *)
Lemma strcasecmp_swap s1 : forall s2, strcasecmp s2 s1 = - strcasecmp s1 s2.
Proof.
  induction s1 as [|c1 r1 IH]; intros s2.
  - rewrite (strcasecmp_unfold s2), (strcasecmp_unfold EmptyString s2).
    cbn [head_byte tail]. change (tolower 0) with 0. cbv zeta.
    destruct (tolower (head_byte s2) - 0 =? 0) eqn:E.
    + apply Z.eqb_eq in E.
      assert (head_byte s2 = 0) as H0 by (apply tolower_zero; lia).
      rewrite H0. reflexivity.
    + replace (0 - tolower (head_byte s2) =? 0) with false by lia.
      simpl. lia.
  - rewrite (strcasecmp_unfold s2), (strcasecmp_unfold (String c1 r1) s2).
    cbn [head_byte tail]. cbv zeta.
    destruct (tolower (head_byte s2) - tolower (byte c1) =? 0) eqn:E.
    + apply Z.eqb_eq in E.
      replace (tolower (byte c1) - tolower (head_byte s2) =? 0) with true by lia.
      simpl.
      destruct (head_byte s2 =? 0) eqn:E2.
      * apply Z.eqb_eq in E2. rewrite E2 in E. change (tolower 0) with 0 in E.
        assert (byte c1 = 0) as H0 by (apply tolower_zero; lia).
        rewrite H0. reflexivity.
      * destruct (byte c1 =? 0) eqn:E1.
        -- apply Z.eqb_eq in E1. rewrite E1 in E. change (tolower 0) with 0 in E.
           assert (head_byte s2 = 0) as H0 by (apply tolower_zero; lia). lia.
        -- destruct s2 as [|c2 r2]; [discriminate|]. apply IH.
    + replace (tolower (byte c1) - tolower (head_byte s2) =? 0) with false by lia.
      simpl. lia.
Qed.

Lemma strcasecmp_trans s1 : forall s2 s3,
  strcasecmp s1 s2 <= 0 -> strcasecmp s2 s3 <= 0 -> strcasecmp s1 s3 <= 0.
Proof.
  induction s1 as [|c1 r1 IH]; intros s2 s3.
  - intros _ _. rewrite strcasecmp_unfold. cbn [head_byte]. change (tolower 0) with 0.
    cbv zeta. pose proof (tolower_zero (head_byte s3)).
    destruct (negb (0 - tolower (head_byte s3) =? 0)) eqn:E; simpl; [|lia].
    destruct s3 as [|c3 r3]; cbn [head_byte] in *; [discriminate|].
    pose proof (byte_range c3). unfold tolower in *.
    destruct (isupper (byte c3)); lia.
  - rewrite (strcasecmp_unfold (String c1 r1) s2), (strcasecmp_unfold s2 s3),
      (strcasecmp_unfold (String c1 r1) s3).
    cbn [head_byte tail]. cbv zeta.
    set (x1 := tolower (byte c1)). set (x2 := tolower (head_byte s2)).
    set (x3 := tolower (head_byte s3)).
    destruct (x1 - x2 =? 0) eqn:E12; simpl.
    + apply Z.eqb_eq in E12.
      destruct (x2 - x3 =? 0) eqn:E23; simpl.
      * apply Z.eqb_eq in E23.
        replace (x1 - x3 =? 0) with true by lia. simpl.
        destruct (byte c1 =? 0) eqn:E1; [lia|].
        destruct (head_byte s2 =? 0) eqn:E2.
        -- apply Z.eqb_eq in E2. subst x2. rewrite E2 in E12.
           change (tolower 0) with 0 in E12.
           assert (byte c1 = 0) by (apply tolower_zero; subst x1; lia). lia.
        -- apply IH.
      * intros _ H23. replace (x1 - x3 =? 0) with false by lia. simpl. lia.
    + intros H12.
      destruct (x2 - x3 =? 0) eqn:E23; simpl.
      * apply Z.eqb_eq in E23. intros _.
        replace (x1 - x3 =? 0) with false by lia. simpl. lia.
      * intros H23. replace (x1 - x3 =? 0) with false by lia. simpl. lia.
Qed.

Lemma string_take_length n : forall s, (String.length (string_take n s) <= n)%nat.
Proof.
  induction n as [|n IH]; intros [|c r]; simpl; try lia.
  specialize (IH r). lia.
Qed.

Lemma strncpy_length src n : (String.length (strncpy src n) <= n)%nat.
Proof. apply string_take_length. Qed.

End LibcFacts.

(* ================================================================== *)
(** * Properties of the order of names *)
(* ================================================================== *)

Section NameOrder.

Lemma tolower_byte_nonneg c : 0 <= tolower (byte c).
Proof.
  pose proof (byte_range c). unfold tolower.
  destruct (isupper (byte c)); lia.
Qed.

Lemma name_le_case_insensitive a : forall b,
  name_le a b <-> case_insensitive_le a b.
Proof.
  unfold name_le, case_insensitive_le.
  induction a as [|c r IH]; intros b.
  - simpl fold_case. simpl lex_le.
    rewrite strcasecmp_unfold. cbn [head_byte]. change (tolower 0) with 0.
    cbv zeta. split; [trivial|intros _].
    destruct b as [|d b']; cbn [head_byte]; [simpl; lia|].
    pose proof (tolower_byte_nonneg d).
    destruct (negb (0 - tolower (byte d) =? 0)); simpl; lia.
  - rewrite strcasecmp_unfold. cbn [head_byte tail fold_case]. cbv zeta.
    pose proof (tolower_byte_nonneg c) as Hc.
    pose proof (tolower_zero (byte c)) as Hc0.
    destruct (byte c =? 0) eqn:Ec.
    + apply Z.eqb_eq in Ec. split; [intros _; exact I|intros _].
      rewrite Ec. change (tolower 0) with 0.
      destruct b as [|d b']; cbn [head_byte]; [simpl; lia|].
      pose proof (tolower_byte_nonneg d).
      destruct (negb (0 - tolower (byte d) =? 0)); simpl; lia.
    + apply Z.eqb_neq in Ec.
      destruct b as [|d b']; cbn [head_byte tail fold_case].
      * change (tolower 0) with 0.
        replace (tolower (byte c) - 0 =? 0) with false by lia.
        simpl. lia.
      * pose proof (tolower_byte_nonneg d) as Hd.
        pose proof (tolower_zero (byte d)) as Hd0.
        destruct (byte d =? 0) eqn:Ed.
        -- apply Z.eqb_eq in Ed. rewrite Ed. change (tolower 0) with 0.
           replace (tolower (byte c) - 0 =? 0) with false by lia.
           simpl. lia.
        -- apply Z.eqb_neq in Ed. cbn [lex_le].
           destruct (tolower (byte c) - tolower (byte d) =? 0) eqn:E; simpl.
           ++ apply Z.eqb_eq in E. rewrite IH. intuition lia.
           ++ apply Z.eqb_neq in E. intuition lia.
Qed.

#[global] Instance name_le_trans : Transitive name_le.
Proof. intros a b c. apply strcasecmp_trans. Qed.

#[global] Instance name_le_total : Total name_le.
Proof.
  intros a b. unfold name_le. rewrite (strcasecmp_swap a b). lia.
Qed.

#[global] Instance vessel_le_trans : Transitive vessel_le.
Proof. intros a b c. apply strcasecmp_trans. Qed.

#[global] Instance vessel_le_total : Total vessel_le.
Proof. intros a b. apply name_le_total. Qed.

End NameOrder.

(* ================================================================== *)
(** * Properties of the fleet operations *)
(* ================================================================== *)

Section FleetFacts.

Lemma sorted_by_name_iff fleet :
  sorted_by_name fleet <-> StronglySorted vessel_le fleet.
Proof.
  unfold sorted_by_name.
  induction fleet as [|v l IH]; csimpl.
  - split; constructor.
  - split; intros H; inversion H; subst; constructor;
      try (apply IH; assumption);
      rewrite ?Forall_fmap in *; assumption.
Qed.

Lemma qsort_sorted fleet : sorted_by_name (qsort fleet).
Proof.
  apply sorted_by_name_iff. unfold qsort.
  apply StronglySorted_merge_sort; apply _.
Qed.

Lemma qsort_Permutation fleet : qsort fleet ≡ₚ fleet.
Proof. apply merge_sort_Permutation. Qed.

Lemma qsort_length fleet : length (qsort fleet) = length fleet.
Proof. apply Permutation_length, qsort_Permutation. Qed.

Lemma StronglySorted_delete {A} (R : relation A) (l : list A) i :
  StronglySorted R l -> StronglySorted R (delete i l).
Proof.
  intros H. revert i. induction H as [|x l Hs IH Hall]; intros [|i]; simpl.
  - constructor.
  - constructor.
  - assumption.
  - constructor; [apply IH|]. now apply Forall_delete.
Qed.

Lemma sorted_by_name_delete fleet i :
  sorted_by_name fleet -> sorted_by_name (delete i fleet).
Proof.
  rewrite !sorted_by_name_iff. apply StronglySorted_delete.
Qed.

(** ** [locateVesselByName] finds the first match *)

Lemma locate_from_miss fleet searchName : forall i,
  locate_from i fleet searchName = -1 ->
  0 <= i -> Forall (fun v => ~ matches searchName v) fleet.
Proof.
  induction fleet as [|v l IH]; intros i H Hi; [constructor|].
  simpl in H.
  destruct (strcasecmp (vesselName v) searchName =? 0) eqn:E; [lia|].
  constructor; [unfold matches; lia | apply (IH (i + 1)); [assumption|lia]].
Qed.

Lemma locate_from_hit fleet searchName : forall i,
  locate_from i fleet searchName <> -1 ->
  0 <= i ->
  exists (k : nat) v,
    locate_from i fleet searchName = i + Z.of_nat k /\
    fleet !! k = Some v /\ matches searchName v /\
    Forall (fun v => ~ matches searchName v) (take k fleet).
Proof.
  induction fleet as [|v l IH]; intros i H Hi; [simpl in H; lia|].
  simpl in *.
  destruct (strcasecmp (vesselName v) searchName =? 0) eqn:E.
  - exists O, v. repeat split; [lia | unfold matches; lia | constructor].
  - destruct (IH (i + 1) H ltac:(lia)) as (k & w & Hk & Hl & Hm & Hn).
    exists (S k), w. repeat split; [lia|assumption..|].
    simpl. constructor; [unfold matches; lia | assumption].
Qed.

(** The result is either [-1] or the index of the first vessel whose
    name equals [searchName] up to case. *)
Lemma locateVesselByName_spec fleet searchName :
  (locateVesselByName fleet searchName = -1 /\
   Forall (fun v => ~ matches searchName v) fleet)
  \/
  (exists (k : nat) v,
     locateVesselByName fleet searchName = Z.of_nat k /\
     fleet !! k = Some v /\ matches searchName v /\
     Forall (fun v => ~ matches searchName v) (take k fleet)).
Proof.
  unfold locateVesselByName.
  destruct (Z.eq_dec (locate_from 0 fleet searchName) (-1)) as [E|E].
  - left. split; [assumption|]. now apply (locate_from_miss _ _ 0).
  - right. destruct (locate_from_hit fleet searchName 0 E ltac:(lia))
      as (k & v & Hk & Hl & Hm & Hn).
    exists k, v. repeat split; [lia|assumption..].
Qed.

(** ** The shifting loop of [removeVessel] *)

Lemma shift_left_spec steps : forall i (fleet : list Vessel),
  (i + steps < length fleet)%nat ->
  shift_left steps i fleet =
    take i fleet ++ take steps (drop (S i) fleet) ++ drop (i + steps) fleet.
Proof.
  induction steps as [|steps IH]; intros i fleet Hlen.
  - simpl. rewrite Nat.add_0_r. now rewrite take_drop.
  - simpl.
    destruct (lookup_lt_is_Some_2 fleet (S i) ltac:(lia)) as [next Hnext].
    rewrite Hnext.
    rewrite IH by (rewrite length_insert; lia).
    rewrite (take_S_r (<[i:=next]> fleet) i next)
      by (apply list_lookup_insert_eq; lia).
    rewrite take_insert_ge by lia.
    rewrite !drop_insert_lt by lia.
    rewrite (drop_S fleet next (S i) Hnext).
    rewrite <- app_assoc. simpl.
    replace (S (i + steps))%nat with (i + S steps)%nat by lia.
    reflexivity.
Qed.

(** Shifting from [i] to the end and dropping the last slot deletes
    entry [i]. *)
Lemma shift_left_delete (fleet : list Vessel) i :
  (i < length fleet)%nat ->
  take (length fleet - 1) (shift_left (length fleet - 1 - i) i fleet)
  = delete i fleet.
Proof.
  intros Hi.
  rewrite shift_left_spec by lia.
  replace (i + (length fleet - 1 - i))%nat with (length fleet - 1)%nat by lia.
  rewrite delete_take_drop.
  rewrite (take_ge (drop (S i) fleet)) by (rewrite length_drop; lia).
  rewrite app_assoc.
  apply take_app_length'.
  rewrite length_app, length_take, length_drop. lia.
Qed.

(** ** The loop of [applyMonthlyFees] *)

Lemma fees_loop_spec steps : forall i (fleet : list Vessel),
  (i + steps <= length fleet)%nat ->
  fees_loop steps i fleet =
    take i fleet ++ (bill <$> take steps (drop i fleet))
      ++ drop (i + steps) fleet.
Proof.
  induction steps as [|steps IH]; intros i fleet Hlen.
  - simpl. rewrite Nat.add_0_r. now rewrite take_drop.
  - simpl.
    destruct (lookup_lt_is_Some_2 fleet i ltac:(lia)) as [v Hv].
    rewrite IH by (rewrite length_alter; lia).
    assert (alter bill i fleet = <[i := bill v]> fleet) as ->.
    { apply list_eq. intros j. rewrite list_lookup_alter, list_lookup_insert.
      destruct (decide (i = j)) as [->|Hne].
      - rewrite Hv. simpl. rewrite decide_True; [reflexivity|].
        apply lookup_lt_Some in Hv. split; [reflexivity|lia].
      - rewrite decide_False; [reflexivity|tauto]. }
    rewrite (take_S_r (<[i:=bill v]> fleet) i (bill v))
      by (apply list_lookup_insert_eq; apply lookup_lt_Some in Hv; lia).
    rewrite take_insert_ge by lia.
    rewrite !drop_insert_lt by lia.
    rewrite (drop_S fleet v i Hv).
    rewrite <- app_assoc. simpl.
    replace (S (i + steps))%nat with (i + S steps)%nat by lia.
    reflexivity.
Qed.

Lemma applyMonthlyFees_map fleet : applyMonthlyFees fleet = bill <$> fleet.
Proof.
  unfold applyMonthlyFees. rewrite fees_loop_spec by lia.
  simpl. rewrite drop_0, firstn_all, drop_all. now rewrite app_nil_r.
Qed.

End FleetFacts.

(* ================================================================== *)
(** * What each operation does to the fleet *)
(* ================================================================== *)

Section Operations.

(** ** [insertVessel] *)

Lemma insertVessel_cases fleet csvLine :
  (insertVessel fleet csvLine).1 = fleet \/
  exists newBoat,
    readRecord strcasecmp (strncpy csvLine 255) = inr newBoat /\
    (length fleet < MAX_VESSELS)%nat /\
    insertVessel fleet csvLine = (qsort (fleet ++ [newBoat]), None).
Proof.
  unfold insertVessel.
  destruct (decide (MAX_VESSELS <= length fleet)%nat); [now left|].
  destruct (readRecord strcasecmp (strncpy csvLine 255)) as [e|v];
    [now left|].
  right. exists v. repeat split. lia.
Qed.

(** ** [removeVessel] *)

Lemma first_match_unique (fleet : list Vessel) (P : Vessel -> Prop) j k v w :
  fleet !! j = Some v -> P v -> Forall (fun v => ~ P v) (take j fleet) ->
  fleet !! k = Some w -> P w -> Forall (fun v => ~ P v) (take k fleet) ->
  j = k.
Proof.
  intros Hj Pv Nj Hk Pw Nk.
  destruct (lt_eq_lt_dec j k) as [[Hlt|Heq]|Hgt]; [exfalso|assumption|exfalso].
  - rewrite Forall_lookup in Nk. apply (Nk j v); [|assumption].
    rewrite lookup_take_lt; assumption.
  - rewrite Forall_lookup in Nj. apply (Nj k w); [|assumption].
    rewrite lookup_take_lt; assumption.
Qed.

(** When the name read from the input is that of no vessel. *)
Lemma removeVessel_miss stdin fleet targetName stdin' :
  read_line MAX_VESSEL_NAME_LEN stdin = Some (targetName, stdin') ->
  Forall (fun v => ~ matches targetName v) fleet ->
  removeVessel stdin fleet = (fleet, stdin', Some NoBoatWithThatName).
Proof.
  intros Hread Hnone. unfold removeVessel. rewrite Hread.
  destruct (locateVesselByName_spec fleet targetName)
    as [[-> _]|(k & v & _ & Hk & Hm & _)]; [reflexivity|].
  rewrite Forall_lookup in Hnone. now destruct (Hnone k v Hk).
Qed.

(** When entry [k] is the first vessel with that name. *)
Lemma removeVessel_hit stdin fleet targetName stdin' k v :
  read_line MAX_VESSEL_NAME_LEN stdin = Some (targetName, stdin') ->
  fleet !! k = Some v -> matches targetName v ->
  Forall (fun v => ~ matches targetName v) (take k fleet) ->
  removeVessel stdin fleet = (delete k fleet, stdin', None).
Proof.
  intros Hread Hk Hm Hfirst. unfold removeVessel. rewrite Hread.
  destruct (locateVesselByName_spec fleet targetName)
    as [[_ Hnone]|(k' & v' & -> & Hk' & Hm' & Hfirst')].
  - rewrite Forall_lookup in Hnone. now destruct (Hnone k v Hk).
  - assert (k' = k) as -> by eauto using first_match_unique.
    destruct (Z.eqb_spec (Z.of_nat k) (-1)) as [Hneg|_]; [lia|].
    rewrite Nat2Z.id.
    rewrite shift_left_delete by (eapply lookup_lt_Some; eassumption).
    reflexivity.
Qed.

Lemma removeVessel_cases stdin fleet :
  (removeVessel stdin fleet).1.1 = fleet \/
  exists k, (removeVessel stdin fleet).1.1 = delete k fleet.
Proof.
  destruct (read_line MAX_VESSEL_NAME_LEN stdin) as [[targetName stdin']|]
    eqn:Hread.
  - destruct (locateVesselByName_spec fleet targetName)
      as [[_ Hnone]|(k & v & _ & Hk & Hm & Hfirst)].
    + left. now rewrite (removeVessel_miss _ _ _ _ Hread Hnone).
    + right. exists k.
      now rewrite (removeVessel_hit _ _ _ _ _ _ Hread Hk Hm Hfirst).
  - left. unfold removeVessel. now rewrite Hread.
Qed.

(** ** [recordPayment] *)

(** Either nothing changes or the fees of one vessel do. *)
Lemma recordPayment_cases stdin fleet :
  (recordPayment stdin fleet).1.1 = fleet \/
  exists i v fees,
    fleet !! i = Some v /\
    (recordPayment stdin fleet).1.1 = <[i := with_fees v fees]> fleet.
Proof.
  unfold recordPayment.
  destruct (read_line MAX_VESSEL_NAME_LEN stdin) as [[inputName stdin']|];
    [|now left].
  destruct (locateVesselByName fleet inputName =? -1); [now left|].
  destruct (fgets 50 stdin') as [[buf stdin'']|]; [|now left].
  destruct (fleet !! Z.to_nat (locateVesselByName fleet inputName))
    as [v|] eqn:Hv; [|now left].
  destruct (F32.geb _ _); [now left|].
  right. eauto.
Qed.

(** ** Names under the operations *)

Lemma names_insert_with_fees (fleet : list Vessel) i v fees :
  fleet !! i = Some v ->
  vesselName <$> <[i := with_fees v fees]> fleet = vesselName <$> fleet.
Proof.
  intros Hv. rewrite list_fmap_insert. simpl.
  apply list_insert_id. rewrite list_lookup_fmap, Hv. reflexivity.
Qed.

Lemma names_recordPayment stdin fleet :
  vesselName <$> (recordPayment stdin fleet).1.1 = vesselName <$> fleet.
Proof.
  destruct (recordPayment_cases stdin fleet) as [->|(i & v & fees & Hv & ->)];
    [reflexivity|]. now apply names_insert_with_fees.
Qed.

Lemma names_applyMonthlyFees fleet :
  vesselName <$> applyMonthlyFees fleet = vesselName <$> fleet.
Proof.
  rewrite applyMonthlyFees_map, <- list_fmap_compose.
  apply list_fmap_ext. intros _ v _. reflexivity.
Qed.

(** ** The order is kept *)

Lemma execute_sorted fleet c :
  sorted_by_name fleet -> sorted_by_name (execute fleet c).
Proof.
  intros Hs. destruct c as [csvLine|stdin|stdin|]; simpl.
  - destruct (insertVessel_cases fleet csvLine) as [->|(v & _ & _ & ->)];
      [assumption|apply qsort_sorted].
  - destruct (removeVessel_cases stdin fleet) as [->|[k ->]];
      [assumption|now apply sorted_by_name_delete].
  - unfold sorted_by_name. now rewrite names_recordPayment.
  - unfold sorted_by_name. now rewrite names_applyMonthlyFees.
Qed.

Lemma session_sorted cs : forall fleet,
  sorted_by_name fleet -> sorted_by_name (session fleet cs).
Proof.
  induction cs as [|c cs IH]; intros fleet Hs; [assumption|].
  simpl. apply IH. now apply execute_sorted.
Qed.

Lemma loadData_sorted file : sorted_by_name (loadData file []).
Proof.
  destruct file as [fp|]; simpl; [apply qsort_sorted|constructor].
Qed.

Lemma StronglySorted_weaken {A} (R1 R2 : relation A) (l : list A) :
  (forall x y, R1 x y -> R2 x y) ->
  StronglySorted R1 l -> StronglySorted R2 l.
Proof.
  intros HR. induction 1 as [|x l Hs IH Hall]; constructor; [assumption|].
  eapply Forall_impl; eauto.
Qed.

End Operations.

(* ================================================================== *)
(** * Loading a small file *)
(* ================================================================== *)

(** Two lines load as two vessels, ["Alpha"] before ["beta"], whatever
    their order in the file; written back, the file is the same. *)
Example load_two_lines :
  loadData (Some (ln "Alpha,20,slip,5,100.00" +:+ ln "beta,10,land,B,0.00")) []
    = two_boats /\
  loadData (Some (ln "beta,10,land,B,0.00" +:+ ln "Alpha,20,slip,5,100.00")) []
    = two_boats /\
  saveData two_boats
    = ln "Alpha,20,slip,5,100.00" +:+ ln "beta,10,land,B,0.00".
Proof. repeat split; vm_compute; reflexivity. Qed.

(** A line with an unknown category is dropped by the bulk load and
    reported by the interactive addition. *)
Example unknown_category_dock :
  loadData (Some (ln "X,10,dock,1,0")) [] = [] /\
  insertVessel two_boats "X,10,dock,1,0" = (two_boats, Some UnknownLocation).
Proof. split; vm_compute; reflexivity. Qed.

(* ================================================================== *)
(** * The order invariant *)
(* ================================================================== *)

(** C1. Whatever file is loaded at startup and whatever commands follow
    (additions and removals, and payments and monthly billing as well),
    the names of the fleet, in the order the listing shows them, never
    decrease in the case-insensitive lexicographic order. Every name is
    below or equal to every later one, adjacent ones in particular. *)
Theorem C1_listing_is_sorted (file : option string) (cs : list Command) :
  let listing := vesselName <$> session (loadData file []) cs in
  StronglySorted case_insensitive_le listing /\
  Sorted case_insensitive_le listing.
Proof.
  assert (StronglySorted case_insensitive_le
            (vesselName <$> session (loadData file []) cs)) as H.
  { apply (StronglySorted_weaken name_le).
    - intros x y. apply name_le_case_insensitive.
    - apply session_sorted, loadData_sorted. }
  split; [assumption|]. now apply StronglySorted_Sorted.
Qed.

(* ================================================================== *)
(** * Capacity *)
(* ================================================================== *)

(** C6. On a fleet that already holds 120 vessels, [insertVessel] reports
    that the capacity is reached, whatever the line, and returns the
    fleet as it was: nothing is added and the 120 entries are the same. *)
Theorem C6_insert_at_capacity (fleet : list Vessel) (csvLine : string) :
  length fleet = 120%nat ->
  insertVessel fleet csvLine = (fleet, Some MaximumCapacityReached) /\
  length (insertVessel fleet csvLine).1 = 120%nat.
Proof.
  intros Hfull. unfold insertVessel.
  rewrite decide_True by (unfold MAX_VESSELS; lia).
  split; [reflexivity|exact Hfull].
Qed.

Lemma C6_insert_at_capacity_witness :
  insertVessel full_fleet "Gamma,25,storage,7,0.00"
    = (full_fleet, Some MaximumCapacityReached) /\
  length (insertVessel full_fleet "Gamma,25,storage,7,0.00").1 = 120%nat.
Proof.
  apply (C6_insert_at_capacity full_fleet "Gamma,25,storage,7,0.00").
  reflexivity.
Defined.

(* ================================================================== *)
(** * Removal *)
(* ================================================================== *)

(** C8. Let [targetName] be the name [removeVessel] reads from its input.
    If entry [k] is the first vessel of the fleet whose name equals it up
    to case, the result is the fleet without that entry: one shorter, the
    entries before [k] where they were, and every later entry one place
    to the left, none of them modified and nothing re-ordered. If no
    vessel has that name, the program says so and the fleet is the same. *)
Theorem C8_remove_by_name (stdin : string) (fleet : list Vessel)
    (targetName stdin' : string) :
  read_line MAX_VESSEL_NAME_LEN stdin = Some (targetName, stdin') ->
  (forall (k : nat) (v : Vessel),
     fleet !! k = Some v -> matches targetName v ->
     Forall (fun w => ~ matches targetName w) (take k fleet) ->
     exists fleet',
       removeVessel stdin fleet = (fleet', stdin', None) /\
       length fleet = S (length fleet') /\
       (forall j, (j < k)%nat -> fleet' !! j = fleet !! j) /\
       (forall j, (k <= j)%nat -> fleet' !! j = fleet !! S j))
  /\
  (Forall (fun w => ~ matches targetName w) fleet ->
   removeVessel stdin fleet = (fleet, stdin', Some NoBoatWithThatName)).
Proof.
  intros Hread. split.
  - intros k v Hk Hm Hfirst. exists (delete k fleet).
    split; [eapply removeVessel_hit; eassumption|].
    pose proof (lookup_lt_Some _ _ _ Hk) as Hlt.
    split; [rewrite length_delete by eauto; lia|].
    split; intros j Hj.
    + now apply list_lookup_delete_lt.
    + now apply list_lookup_delete_ge.
  - intros Hnone. eapply removeVessel_miss; eassumption.
Qed.

Lemma C8_remove_by_name_witness :
  (exists fleet',
     removeVessel (ln "ALPHA") two_boats = (fleet', EmptyString, None) /\
     length two_boats = S (length fleet') /\
     (forall j, (j < 0)%nat -> fleet' !! j = two_boats !! j) /\
     (forall j, (0 <= j)%nat -> fleet' !! j = two_boats !! S j))
  /\
  removeVessel (ln "Gamma") two_boats
    = (two_boats, EmptyString, Some NoBoatWithThatName).
Proof.
  split.
  - apply (proj1 (C8_remove_by_name (ln "ALPHA") two_boats "ALPHA" EmptyString
                    eq_refl) 0%nat Alpha eq_refl eq_refl).
    constructor.
  - apply (proj2 (C8_remove_by_name (ln "Gamma") two_boats "Gamma" EmptyString
                    eq_refl)).
    repeat constructor; unfold matches; vm_compute; discriminate.
Defined.

(* ================================================================== *)
(** * Properties of the record reader *)
(* ================================================================== *)

Section ReaderFacts.

(** ** C strings without an inner terminator *)

Lemma cstr_idem s : cstr (cstr s) = cstr s.
Proof.
  induction s as [|c r IH]; [reflexivity|]. simpl.
  destruct (byte c =? 0) eqn:E; [reflexivity|]. simpl. now rewrite E, IH.
Qed.

Lemma cstr_take k : forall s, cstr s = s -> cstr (string_take k s) = string_take k s.
Proof.
  induction k as [|k IH]; intros [|c r] H; try reflexivity.
  simpl in *. destruct (byte c =? 0); [discriminate|].
  injection H as H. now rewrite IH.
Qed.

Lemma cstr_drop k : forall s, cstr s = s -> cstr (string_drop k s) = string_drop k s.
Proof.
  induction k as [|k IH]; intros [|c r] H; try assumption.
  simpl in *. destruct (byte c =? 0); [discriminate|].
  injection H as H. now apply IH.
Qed.

(** A token and the rest of the line hold no terminator. *)
Lemma strtok_r_cstr s delim token rest :
  strtok_r s delim = Some (token, rest) ->
  cstr token = token /\ cstr rest = rest.
Proof.
  unfold strtok_r.
  pose proof (cstr_drop (strspn (cstr s) delim) (cstr s) (cstr_idem s)) as Hd.
  destruct (string_drop (strspn (cstr s) delim) (cstr s)) as [|c r] eqn:E;
    [discriminate|].
  intros [= <- <-]. split; [now apply cstr_take|].
  exact (cstr_drop (S _) (String c r) Hd).
Qed.

(** ** When the comparison functions answer 0 *)

Lemma strcmp_zero s1 : forall s2, strcmp s1 s2 = 0 <-> cstr s1 = cstr s2.
Proof.
  induction s1 as [|c1 r1 IH]; intros [|c2 r2]; simpl.
  - now split.
  - pose proof (byte_range c2).
    destruct (byte c2 =? 0) eqn:E2.
    + apply Z.eqb_eq in E2. rewrite E2. simpl. now split.
    + apply Z.eqb_neq in E2.
      replace (0 - byte c2 =? 0) with false by lia. simpl.
      split; [lia|discriminate].
  - destruct (byte c1 =? 0) eqn:E1.
    + apply Z.eqb_eq in E1. rewrite E1. simpl. now split.
    + apply Z.eqb_neq in E1.
      replace (byte c1 - 0 =? 0) with false by lia. simpl.
      split; [lia|discriminate].
  - destruct (byte c1 - byte c2 =? 0) eqn:E; simpl.
    + apply Z.eqb_eq in E.
      assert (c1 = c2) as ->.
      { assert (N_of_ascii c1 = N_of_ascii c2) as HN by (unfold byte in E; lia).
        rewrite <- (ascii_N_embedding c1), <- (ascii_N_embedding c2), HN.
        reflexivity. }
      destruct (byte c2 =? 0); [tauto|].
      rewrite IH. split; [now intros ->|now intros [= ->]].
    + apply Z.eqb_neq in E. split; [lia|].
      destruct (byte c1 =? 0) eqn:E1, (byte c2 =? 0) eqn:E2;
        try discriminate; [lia|].
      intros [= -> _]. lia.
Qed.

Lemma strcasecmp_zero s1 : forall s2,
  strcasecmp s1 s2 = 0 <-> fold_case s1 = fold_case s2.
Proof.
  induction s1 as [|c1 r1 IH]; intros s2; rewrite strcasecmp_unfold;
    cbn [head_byte tail fold_case]; cbv zeta.
  - change (tolower 0) with 0.
    destruct s2 as [|c2 r2]; cbn [head_byte fold_case]; [simpl; now split|].
    pose proof (tolower_zero (byte c2)) as H2.
    destruct (byte c2 =? 0) eqn:E2.
    + apply Z.eqb_eq in E2. rewrite E2. simpl. now split.
    + apply Z.eqb_neq in E2.
      replace (0 - tolower (byte c2) =? 0) with false by lia. simpl.
      split; [lia|discriminate].
  - pose proof (tolower_zero (byte c1)) as H1.
    destruct s2 as [|c2 r2]; cbn [head_byte tail fold_case].
    + change (tolower 0) with 0.
      destruct (byte c1 =? 0) eqn:E1.
      * apply Z.eqb_eq in E1. rewrite E1. simpl. now split.
      * apply Z.eqb_neq in E1.
        replace (tolower (byte c1) - 0 =? 0) with false by lia. simpl.
        split; [lia|discriminate].
    + pose proof (tolower_zero (byte c2)) as H2.
      destruct (tolower (byte c1) - tolower (byte c2) =? 0) eqn:E; simpl.
      * apply Z.eqb_eq in E.
        destruct (byte c1 =? 0) eqn:E1, (byte c2 =? 0) eqn:E2;
          try tauto; try lia.
        rewrite IH. split; [intros ->; f_equal; lia|now intros [= _ ->]].
      * apply Z.eqb_neq in E. split; [lia|].
        destruct (byte c1 =? 0) eqn:E1, (byte c2 =? 0) eqn:E2;
          try discriminate; [lia|].
        intros [= Hx _]. lia.
Qed.

(** ** The category token *)

(** [loadData] takes a category token only when it is one of the four
    words exactly. *)
Lemma readLocation_strcmp_unknown token rest :
  readLocation strcmp token rest = inl UnknownCategory <->
  cstr token ∉ category_words.
Proof.
  unfold readLocation, next_token, category_words.
  pose proof (strcmp_zero token "slip") as H1.
  pose proof (strcmp_zero token "land") as H2.
  pose proof (strcmp_zero token "trailor") as H3.
  pose proof (strcmp_zero token "storage") as H4.
  change (cstr "slip") with "slip" in H1. change (cstr "land") with "land" in H2.
  change (cstr "trailor") with "trailor" in H3.
  change (cstr "storage") with "storage" in H4.
  rewrite !not_elem_of_cons.
  destruct (Z.eqb_spec (strcmp token "slip") 0) as [E1|E1].
  { split; [|tauto]. destruct (strtok_r rest ",") as [[? ?]|]; discriminate. }
  destruct (Z.eqb_spec (strcmp token "land") 0) as [E2|E2].
  { split; [|tauto]. destruct (strtok_r rest ",") as [[? ?]|];
      [|discriminate]. destruct (Nat.eqb _ _); discriminate. }
  destruct (Z.eqb_spec (strcmp token "trailor") 0) as [E3|E3].
  { split; [|tauto]. destruct (strtok_r rest ",") as [[? ?]|]; discriminate. }
  destruct (Z.eqb_spec (strcmp token "storage") 0) as [E4|E4].
  { split; [|tauto]. destruct (strtok_r rest ",") as [[? ?]|]; discriminate. }
  split; [intros _|reflexivity].
  repeat split; try tauto. apply not_elem_of_nil.
Qed.

(** [insertVessel] takes a category token when its lower-cased bytes are
    those of one of the four words. *)
Lemma readLocation_strcasecmp_unknown token rest :
  readLocation strcasecmp token rest = inl UnknownCategory <->
  fold_case token ∉ (fold_case <$> category_words).
Proof.
  unfold readLocation, next_token, category_words.
  pose proof (strcasecmp_zero token "slip") as H1.
  pose proof (strcasecmp_zero token "land") as H2.
  pose proof (strcasecmp_zero token "trailor") as H3.
  pose proof (strcasecmp_zero token "storage") as H4.
  rewrite !fmap_cons, !not_elem_of_cons.
  destruct (Z.eqb_spec (strcasecmp token "slip") 0) as [E1|E1].
  { split; [|tauto]. destruct (strtok_r rest ",") as [[? ?]|]; discriminate. }
  destruct (Z.eqb_spec (strcasecmp token "land") 0) as [E2|E2].
  { split; [|tauto]. destruct (strtok_r rest ",") as [[? ?]|];
      [|discriminate]. destruct (Nat.eqb _ _); discriminate. }
  destruct (Z.eqb_spec (strcasecmp token "trailor") 0) as [E3|E3].
  { split; [|tauto]. destruct (strtok_r rest ",") as [[? ?]|]; discriminate. }
  destruct (Z.eqb_spec (strcasecmp token "storage") 0) as [E4|E4].
  { split; [|tauto]. destruct (strtok_r rest ",") as [[? ?]|]; discriminate. }
  split; [intros _|reflexivity].
  repeat split; try tauto. apply not_elem_of_nil.
Qed.

(** What was read agrees with the category word that was recognised. *)
Lemma readLocation_category cmp token rest cat info rest' :
  readLocation cmp token rest = inr (cat, info, rest') ->
  cmp token (locationCategoryToStr cat) = 0.
Proof.
  unfold readLocation, next_token.
  destruct (Z.eqb_spec (cmp token "slip") 0) as [E1|E1].
  { destruct (strtok_r rest ",") as [[? ?]|]; [|discriminate].
    now intros [= <- _ _]. }
  destruct (Z.eqb_spec (cmp token "land") 0) as [E2|E2].
  { destruct (strtok_r rest ",") as [[? ?]|]; [|discriminate].
    destruct (Nat.eqb _ _); [discriminate|]. now intros [= <- _ _]. }
  destruct (Z.eqb_spec (cmp token "trailor") 0) as [E3|E3].
  { destruct (strtok_r rest ",") as [[? ?]|]; [|discriminate].
    now intros [= <- _ _]. }
  destruct (Z.eqb_spec (cmp token "storage") 0) as [E4|E4].
  { destruct (strtok_r rest ",") as [[? ?]|]; [|discriminate].
    now intros [= <- _ _]. }
  discriminate.
Qed.

(** ** The five tokens of an accepted line *)

Lemma readRecord_inr cmp line v :
  readRecord cmp line = inr v ->
  exists name rest1 len rest2 cat rest3 rest4 fees rest5,
    strtok_r line "," = Some (name, rest1) /\
    strtok_r rest1 "," = Some (len, rest2) /\
    strtok_r rest2 "," = Some (cat, rest3) /\
    readLocation cmp cat rest3
      = inr (locationCat v, locationInfo v, rest4) /\
    strtok_r rest4 "," = Some (fees, rest5) /\
    vesselName v = strncpy name 127 /\
    lengthFt v = F32.of_double (atof len) /\
    outstandingFees v = F32.of_double (atof fees).
Proof.
  unfold readRecord, next_token.
  destruct (strtok_r line ",") as [[name rest1]|] eqn:E1; [|discriminate].
  destruct (strtok_r rest1 ",") as [[len rest2]|] eqn:E2; [|discriminate].
  destruct (strtok_r rest2 ",") as [[cat rest3]|] eqn:E3; [|discriminate].
  destruct (readLocation cmp cat rest3) as [e|[[lc info] rest4]] eqn:E4;
    [discriminate|].
  destruct (strtok_r rest4 ",") as [[fees rest5]|] eqn:E5; [|discriminate].
  intros [= <-]. simpl.
  exists name, rest1, len, rest2, cat, rest3, rest4, fees, rest5.
  repeat split; assumption.
Qed.

(** The stored name is the first token cut to 127 bytes. *)
Lemma readRecord_name cmp line v :
  readRecord cmp line = inr v ->
  exists token rest,
    strtok_r line "," = Some (token, rest) /\
    vesselName v = string_take 127 token /\
    (String.length (vesselName v) <= 127)%nat.
Proof.
  intros H. apply readRecord_inr in H.
  destruct H as (name & rest1 & _ & _ & _ & _ & _ & _ & _ & Hn & _ & _ & _ & _ & Hv & _).
  exists name, rest1. split; [assumption|].
  unfold strncpy in Hv.
  rewrite (proj1 (strtok_r_cstr _ _ _ _ Hn)) in Hv.
  rewrite Hv. split; [reflexivity|apply string_take_length].
Qed.

End ReaderFacts.

(* ================================================================== *)
(** * The category field *)
(* ================================================================== *)

(** On both paths a line whose third token is not recognised fails with
    the unknown-category error. *)
Lemma readRecord_unknown_category cmp line name rest1 len rest2 cat rest3 :
  strtok_r line "," = Some (name, rest1) ->
  strtok_r rest1 "," = Some (len, rest2) ->
  strtok_r rest2 "," = Some (cat, rest3) ->
  readLocation cmp cat rest3 = inl UnknownCategory ->
  readRecord cmp line = inl UnknownCategory.
Proof.
  intros H1 H2 H3 H4. unfold readRecord, next_token.
  now rewrite H1, H2, H3, H4.
Qed.

(** [insertVessel] reports a failed reading and leaves the fleet alone. *)
Lemma insertVessel_rejected fleet csvLine e :
  (length fleet < MAX_VESSELS)%nat ->
  readRecord strcasecmp (strncpy csvLine 255) = inl e ->
  insertVessel fleet csvLine = (fleet, Some (insert_message e)).
Proof.
  intros Hroom He. unfold insertVessel.
  rewrite decide_False by lia. now rewrite He.
Qed.

(** C2. The interactive path compares the category token without regard
    to case, the bulk-load path compares it exactly: the line
    [Alpha,20,SLIP,5,100.00] is an unknown category for [loadData], which
    drops it, while [insertVessel] adds the vessel; in lower case the
    same line loads. *)
Theorem C2_load_path_compares_case_exactly :
  readRecord strcmp "Alpha,20,SLIP,5,100.00" = inl UnknownCategory /\
  loadData (Some (ln "Alpha,20,SLIP,5,100.00")) [] = [] /\
  insertVessel [] "Alpha,20,SLIP,5,100.00" = ([Alpha], None) /\
  loadData (Some (ln "Alpha,20,slip,5,100.00")) [] = [Alpha].
Proof. repeat split; vm_compute; reflexivity. Qed.

(* ================================================================== *)
(** * The name field *)
(* ================================================================== *)

Lemma strtok_r_comma line :
  strtok_r (String comma line) "," = strtok_r line ",".
Proof. reflexivity. Qed.

Lemma strtok_r_only_commas line :
  only_commas line -> strtok_r line "," = None.
Proof.
  induction line as [|c r IH]; [reflexivity|].
  intros [H0|[Hc Hr]].
  - unfold strtok_r. simpl. now rewrite H0.
  - assert (c = comma) as ->.
    { rewrite <- (ascii_N_embedding c). unfold byte in Hc.
      replace (N_of_ascii c) with 44%N by lia. reflexivity. }
    rewrite strtok_r_comma. now apply IH.
Qed.

Lemma only_commas_strncpy line n :
  only_commas line -> only_commas (strncpy line n).
Proof.
  unfold strncpy. revert n.
  induction line as [|c r IH]; intros n H; [now destruct n|].
  simpl in *. destruct (Z.eqb_spec (byte c) 0) as [E|E]; [now destruct n|].
  destruct H as [H|[Hc Hr]]; [contradiction|].
  destruct n as [|n]; [exact I|]. simpl. right. split; [assumption|now apply IH].
Qed.

(** C7 as it is stated fails on a line whose name field is empty but which holds
    five more fields: the fields are taken one place to the right and
    the vessel is accepted on both paths. *)
Lemma C7_counterexample :
  string_take (strcspn ",Alpha,20,slip,5,100.00" ",") ",Alpha,20,slip,5,100.00"
    = EmptyString /\
  readRecord strcmp ",Alpha,20,slip,5,100.00" = inr Alpha /\
  loadData (Some (ln ",Alpha,20,slip,5,100.00")) [] = [Alpha] /\
  insertVessel [] ",Alpha,20,slip,5,100.00" = ([Alpha], None).
Proof. repeat split; vm_compute; reflexivity. Qed.

(** C7, amended. A line that holds no field at all (it is empty, or made
    of commas only) fails with the name missing: [loadData] skips it and
    goes on with the next line, [insertVessel] reports an invalid format
    and returns the fleet unchanged. An empty first field in front of
    other fields is not detected: the tokenizer skips leading commas, so
    the line is read as the same line without them. *)
Theorem C7_missing_name (line : string) :
  (only_commas line ->
   readRecord strcmp line = inl NoName /\
   readRecord strcasecmp line = inl NoName /\
   (forall fuel fp fp' buf fleet,
      fgets 256 fp = Some (buf, fp') ->
      terminate_at (strcspn buf (String newline EmptyString)) buf = line ->
      (length fleet < 120)%nat ->
      loadLoop (S fuel) fp fleet = loadLoop fuel fp' fleet) /\
   (forall fleet,
      (length fleet < 120)%nat ->
      insertVessel fleet line = (fleet, Some InvalidCSVFormat)))
  /\
  (forall cmp, readRecord cmp (String comma line) = readRecord cmp line).
Proof.
  split.
  - intros Hc.
    assert (forall cmp, readRecord cmp line = inl NoName) as Hread.
    { intros cmp. unfold readRecord, next_token.
      now rewrite strtok_r_only_commas. }
    split; [apply Hread|]. split; [apply Hread|]. split.
    + intros fuel fp fp' buf fleet Hget Hline Hroom. simpl. rewrite Hget.
      rewrite decide_True by (unfold MAX_VESSELS; lia).
      now rewrite Hline, Hread.
    + intros fleet Hroom.
      apply (insertVessel_rejected fleet line NoName Hroom).
      unfold readRecord, next_token.
      now rewrite strtok_r_only_commas by now apply only_commas_strncpy.
  - intros cmp. unfold readRecord, next_token. now rewrite strtok_r_comma.
Qed.

Lemma C7_missing_name_witness :
  readRecord strcmp ",,,," = inl NoName /\
  readRecord strcasecmp ",,,," = inl NoName /\
  (forall fuel fp fp' buf fleet,
     fgets 256 fp = Some (buf, fp') ->
     terminate_at (strcspn buf (String newline EmptyString)) buf = ",,,," ->
     (length fleet < 120)%nat ->
     loadLoop (S fuel) fp fleet = loadLoop fuel fp' fleet) /\
  (forall fleet,
     (length fleet < 120)%nat ->
     insertVessel fleet ",,,," = (fleet, Some InvalidCSVFormat)).
Proof.
  apply (proj1 (C7_missing_name ",,,,")).
  simpl. vm_compute. tauto.
Defined.

(* ================================================================== *)
(** * The length of names *)
(* ================================================================== *)

Section NameLength.

Lemma loadLoop_names fuel : forall fp fleet,
  Forall name_fits fleet -> Forall name_fits (loadLoop fuel fp fleet).
Proof.
  induction fuel as [|fuel IH]; intros fp fleet Hf; [assumption|].
  simpl. destruct (fgets 256 fp) as [[buf fp']|]; [|assumption].
  destruct (decide (length fleet < MAX_VESSELS)%nat); [|assumption].
  destruct (readRecord strcmp _) as [e|v] eqn:Hr; [now apply IH|].
  apply IH. apply Forall_app. split; [assumption|].
  constructor; [|constructor].
  destruct (readRecord_name _ _ _ Hr) as (? & ? & _ & _ & Hlen). exact Hlen.
Qed.

Lemma qsort_names fleet : Forall name_fits fleet -> Forall name_fits (qsort fleet).
Proof. intros H. now rewrite qsort_Permutation. Qed.

Lemma loadData_names file : Forall name_fits (loadData file []).
Proof.
  destruct file as [fp|]; simpl; [|constructor].
  apply qsort_names, loadLoop_names. constructor.
Qed.

Lemma names_fit_transfer (fleet fleet' : list Vessel) :
  vesselName <$> fleet' = vesselName <$> fleet ->
  Forall name_fits fleet -> Forall name_fits fleet'.
Proof.
  intros Heq H.
  assert (Forall (fun n => (String.length n <= 127)%nat) (vesselName <$> fleet'))
    as H' by (rewrite Heq; now apply Forall_fmap).
  now apply Forall_fmap in H'.
Qed.

Lemma execute_names fleet c :
  Forall name_fits fleet -> Forall name_fits (execute fleet c).
Proof.
  intros Hf. destruct c as [csvLine|stdin|stdin|]; simpl.
  - destruct (insertVessel_cases fleet csvLine) as [->|(v & Hr & _ & ->)];
      [assumption|]. simpl.
    apply qsort_names, Forall_app. split; [assumption|].
    constructor; [|constructor].
    destruct (readRecord_name _ _ _ Hr) as (? & ? & _ & _ & Hlen). exact Hlen.
  - destruct (removeVessel_cases stdin fleet) as [->|[k ->]];
      [assumption|now apply Forall_delete].
  - eapply names_fit_transfer; [apply names_recordPayment|assumption].
  - eapply names_fit_transfer; [apply names_applyMonthlyFees|assumption].
Qed.

Lemma session_names cs : forall fleet,
  Forall name_fits fleet -> Forall name_fits (session fleet cs).
Proof.
  induction cs as [|c cs IH]; intros fleet Hf; [assumption|].
  simpl. apply IH. now apply execute_names.
Qed.

End NameLength.

(* ================================================================== *)
(** * Payments *)
(* ================================================================== *)

Section FloatOrder.

(** Comparing the other way round gives the opposite answer. *)
Lemma SFcompare_swap x y :
  SFcompare y x = option_map CompOpp (SFcompare x y).
Proof.
  destruct x as [sx|sx| |sx mx ex], y as [sy|sy| |sy my ey]; simpl;
    try reflexivity; try (destruct sx; reflexivity);
    try (destruct sy; reflexivity);
    try (destruct sx, sy; reflexivity).
  assert (Pos.compare_cont Eq my mx = CompOpp (Pos.compare_cont Eq mx my)) as Hm
    by (rewrite Pos.compare_cont_antisym; reflexivity).
  destruct sx, sy; simpl; try reflexivity;
    rewrite (Z.compare_antisym ex ey), Hm;
    destruct (ex ?= ey); simpl; rewrite ?CompOpp_involutive; reflexivity.
Qed.

(** [a == b] implies [a >= b]. *)
Lemma eqb_geb a b : SFeqb a b = true -> F32.geb a b = true.
Proof.
  unfold F32.geb, SFeqb, SFleb. rewrite (SFcompare_swap a b).
  destruct (SFcompare a b) as [[| |]|]; simpl; congruence.
Qed.

(** [a < b] excludes [a >= b]. *)
Lemma ltb_not_geb a b : F32.ltb a b = true -> F32.geb a b = false.
Proof.
  unfold F32.geb, F32.ltb, SFltb, SFleb. rewrite (SFcompare_swap a b).
  destruct (SFcompare a b) as [[| |]|]; simpl; congruence.
Qed.

End FloatOrder.

(** [recordPayment] when both lines are read and entry [k] is the first
    vessel with the name that was typed. *)
Lemma recordPayment_found stdin fleet inputName stdin1 buf stdin2 k v :
  read_line MAX_VESSEL_NAME_LEN stdin = Some (inputName, stdin1) ->
  fgets 50 stdin1 = Some (buf, stdin2) ->
  fleet !! k = Some v -> matches inputName v ->
  Forall (fun w => ~ matches inputName w) (take k fleet) ->
  recordPayment stdin fleet =
    let amount := F32.of_double (atof buf) in
    if F32.geb amount (outstandingFees v)
    then (fleet, stdin2, Some (MoreThanOwed (outstandingFees v)))
    else (<[k := with_fees v (F32.sub (outstandingFees v) amount)]> fleet,
          stdin2, None).
Proof.
  intros Hname Hamount Hk Hm Hfirst. unfold recordPayment.
  rewrite Hname.
  destruct (locateVesselByName_spec fleet inputName)
    as [[_ Hnone]|(k' & v' & -> & Hk' & Hm' & Hfirst')].
  - rewrite Forall_lookup in Hnone. now destruct (Hnone k v Hk).
  - assert (k' = k) as -> by eauto using first_match_unique.
    destruct (Z.eqb_spec (Z.of_nat k) (-1)) as [Hneg|_]; [lia|].
    rewrite Nat2Z.id, Hamount, Hk. reflexivity.
Qed.

(** C3. Let [a] be the amount typed and [b] the balance of the vessel
    the name designates (the first one with that name). If [a >= b], and
    in particular if [a == b], the payment is refused with the message
    that it is more than the amount owed, and the fleet is unchanged. If
    [a < b], the balance of that vessel becomes [b - a] (the subtraction
    of the type [float]) and nothing else changes. *)
Theorem C3_payment_boundary (stdin : string) (fleet : list Vessel)
    (inputName stdin1 buf stdin2 : string) (k : nat) (v : Vessel) :
  read_line MAX_VESSEL_NAME_LEN stdin = Some (inputName, stdin1) ->
  fgets 50 stdin1 = Some (buf, stdin2) ->
  fleet !! k = Some v -> matches inputName v ->
  Forall (fun w => ~ matches inputName w) (take k fleet) ->
  let a := F32.of_double (atof buf) in
  let b := outstandingFees v in
  (F32.geb a b = true ->
   recordPayment stdin fleet = (fleet, stdin2, Some (MoreThanOwed b))) /\
  (SFeqb a b = true ->
   recordPayment stdin fleet = (fleet, stdin2, Some (MoreThanOwed b))) /\
  (F32.ltb a b = true ->
   recordPayment stdin fleet
     = (<[k := with_fees v (F32.sub b a)]> fleet, stdin2, None)).
Proof.
  intros Hname Hamount Hk Hm Hfirst a b.
  rewrite (recordPayment_found _ _ _ _ _ _ _ _ Hname Hamount Hk Hm Hfirst).
  cbv zeta. fold a b.
  split; [|split].
  - now intros ->.
  - intros Heq. now rewrite (eqb_geb _ _ Heq).
  - intros Hlt. now rewrite (ltb_not_geb _ _ Hlt).
Qed.

Lemma C3_payment_boundary_witness :
  (* 100.00 against a balance of 100.00 *)
  recordPayment (ln "alpha" +:+ ln "100.00") two_boats
    = (two_boats, EmptyString, Some (MoreThanOwed f100)) /\
  (* 99.50 against a balance of 100.00 *)
  recordPayment (ln "alpha" +:+ ln "99.50") two_boats
    = (<[0%nat := with_fees Alpha (F32.sub f100 (F32.of_double (atof (ln "99.50"))))]>
         two_boats, EmptyString, None).
Proof.
  split.
  - apply (proj1 (proj2 (C3_payment_boundary
             (ln "alpha" +:+ ln "100.00") two_boats "alpha" (ln "100.00")
             (ln "100.00") EmptyString 0%nat Alpha
             eq_refl eq_refl eq_refl eq_refl (Forall_nil_2 _)))).
    vm_compute. reflexivity.
  - apply (proj2 (proj2 (C3_payment_boundary
             (ln "alpha" +:+ ln "99.50") two_boats "alpha" (ln "99.50")
             (ln "99.50") EmptyString 0%nat Alpha
             eq_refl eq_refl eq_refl eq_refl (Forall_nil_2 _)))).
    vm_compute. reflexivity.
Defined.

(* ================================================================== *)
(** * Monthly billing *)
(* ================================================================== *)

(** The rates are the doubles of 12.50, 14.00, 25.00 and 11.20: the first
    three are these numbers, the last is within half a unit in the last
    place (2^-50) of 11.20, which no double equals. *)
Lemma rate_values :
  (float_value (rate SLIP) == 25 # 2)%Q /\
  (float_value (rate LAND) == 14)%Q /\
  (float_value (rate TRAILOR) == 25)%Q /\
  ((56 # 5) - (1 # 2 ^ 50) <= float_value (rate STORAGE) <= (56 # 5) + (1 # 2 ^ 50))%Q.
Proof. repeat split; vm_compute; congruence. Qed.

(** C4. [applyMonthlyFees] keeps the number and the order of the
    vessels and replaces each balance by the balance plus the monthly
    charge: the length times the rate of the category (12.50 for a slip,
    14.00 on land, 25.00 on a trailer, 11.20 in storage), computed as a
    [double], stored as a [float] and added in [float]. Name, length,
    category and location data are as they were. For a vessel in a slip
    whose length is 30 the charge is 375 exactly. *)
Theorem C4_monthly_fees :
  (forall fleet,
     length (applyMonthlyFees fleet) = length fleet /\
     forall i v,
       fleet !! i = Some v ->
       applyMonthlyFees fleet !! i =
         Some (mkVessel (vesselName v) (lengthFt v) (locationCat v)
                 (locationInfo v)
                 (F32.add (outstandingFees v)
                    (F32.of_double
                       (F64.mul (F64.of_float (lengthFt v))
                                (rate (locationCat v))))))) /\
  ((float_value (rate SLIP) == 25 # 2)%Q /\
   (float_value (rate LAND) == 14)%Q /\
   (float_value (rate TRAILOR) == 25)%Q /\
   ((56 # 5) - (1 # 2 ^ 50) <= float_value (rate STORAGE) <= (56 # 5) + (1 # 2 ^ 50))%Q) /\
  (forall v,
     locationCat v = SLIP -> lengthFt v = f30 ->
     monthlyCharge v = f375 /\
     (float_value (lengthFt v) == 30)%Q /\
     (float_value (monthlyCharge v) == 375)%Q /\
     forall fleet i,
       fleet !! i = Some v ->
       outstandingFees <$> applyMonthlyFees fleet !! i
         = Some (F32.add (outstandingFees v) f375)).
Proof.
  split; [|split].
  - intros fleet. rewrite applyMonthlyFees_map. split; [apply length_fmap|].
    intros i v Hv. rewrite list_lookup_fmap, Hv. reflexivity.
  - exact rate_values.
  - intros v Hcat Hlen.
    assert (monthlyCharge v = f375) as Hcharge.
    { unfold monthlyCharge. rewrite Hcat, Hlen. vm_compute. reflexivity. }
    split; [assumption|]. rewrite Hcharge, Hlen.
    split; [vm_compute; reflexivity|]. split; [vm_compute; reflexivity|].
    intros fleet i Hv. rewrite applyMonthlyFees_map, list_lookup_fmap, Hv.
    simpl. now rewrite Hcharge.
Qed.

Lemma C4_monthly_fees_witness :
  applyMonthlyFees [Alpha; Gamma] !! 1%nat =
    Some (mkVessel "Gamma" f30 SLIP (slipNo 7)
            (F32.add f100
               (F32.of_double (F64.mul (F64.of_float f30) (rate SLIP))))) /\
  monthlyCharge Gamma = f375 /\
  outstandingFees <$> applyMonthlyFees [Alpha; Gamma] !! 1%nat
    = Some (F32.add f100 f375).
Proof.
  split; [|split].
  - apply (proj2 (proj1 C4_monthly_fees [Alpha; Gamma]) 1%nat Gamma).
    reflexivity.
  - apply (proj1 (proj2 (proj2 C4_monthly_fees) Gamma eq_refl eq_refl)).
  - apply (proj2 (proj2 (proj2 (proj2 (proj2 C4_monthly_fees)
             Gamma eq_refl eq_refl))) [Alpha; Gamma] 1%nat).
    reflexivity.
Defined.

(* ================================================================== *)
(** * Rounding never goes below a representable lower bound *)
(* ================================================================== *)

(** The facts about [SpecFloat]'s rounding that the payment of a negative
    amount needs: the sum of a float [b] and a positive quantity rounds
    to a float that compares above or equal to [b]. *)

Section Rounding.

Variables prec emax : Z.
Hypothesis prec_pos : 0 < prec.

(** ** Number of binary digits *)

Lemma digits2_size p : digits2_pos p = Pos.size p.
Proof. induction p as [p IH|p IH|]; simpl; now rewrite ?IH. Qed.

Lemma digits_bounds p :
  2 ^ (Zpos (digits2_pos p) - 1) <= Zpos p < 2 ^ Zpos (digits2_pos p).
Proof.
  rewrite digits2_size.
  pose proof (Pos.size_gt p) as Hgt. pose proof (Pos.size_le p) as Hle.
  apply Pos2Z.pos_lt_pos in Hgt. apply Pos2Z.pos_le_pos in Hle.
  rewrite Pos2Z.inj_pow in Hgt, Hle.
  change (Zpos p~0) with (2 * Zpos p) in Hle.
  split; [|exact Hgt].
  replace (Zpos (Pos.size p)) with (Z.succ (Zpos (Pos.size p) - 1)) in Hle by lia.
  rewrite Z.pow_succ_r in Hle by lia. lia.
Qed.

(** A number that is at least [m * 2^k] has at least [k] more digits
    than [m]. *)
Lemma digits_lower m k s :
  0 <= k -> Zpos m * 2 ^ k <= Zpos s ->
  Zpos (digits2_pos m) + k <= Zpos (digits2_pos s).
Proof.
  intros Hk Hle.
  destruct (Z_le_gt_dec (Zpos (digits2_pos m) + k) (Zpos (digits2_pos s)))
    as [H|H]; [assumption|exfalso].
  pose proof (digits_bounds m) as [Hm _].
  pose proof (digits_bounds s) as [_ Hs].
  assert (2 ^ Zpos (digits2_pos s) <= 2 ^ (Zpos (digits2_pos m) - 1 + k)) as Hp
    by (apply Z.pow_le_mono_r; lia).
  rewrite Z.pow_add_r in Hp by lia.
  assert (0 < 2 ^ k) by (apply Z.pow_pos_nonneg; lia).
  nia.
Qed.

Lemma fexp_mono x y :
  x <= y -> fexp prec emax x <= fexp prec emax y.
Proof. unfold fexp. lia. Qed.

Lemma fexp_emin x : emin prec emax <= fexp prec emax x.
Proof. unfold fexp. lia. Qed.

(** An exponent above [emin] that [fexp] gives is [x - prec]. *)
Lemma fexp_above x e :
  e < fexp prec emax x -> emin prec emax <= e ->
  fexp prec emax x = x - prec.
Proof. unfold fexp. lia. Qed.

(** ** Shifting right *)

Lemma iter_pos_iter {A} (f : A -> A) p : forall x,
  SpecFloat.iter_pos f p x = Pos.iter f x p.
Proof.
  induction p as [p IH|p IH|]; intros x; simpl.
  - rewrite !IH. now rewrite !Pos.iter_swap.
  - now rewrite !IH.
  - reflexivity.
Qed.

Lemma shr_1_m mrs : 0 <= shr_m mrs -> shr_m (shr_1 mrs) = shr_m mrs / 2.
Proof.
  destruct mrs as [m r s]. cbn [shr_m]. intros Hm.
  destruct m as [|[p|p|]|p]; cbn [shr_m shr_1]; try lia.
  - reflexivity.
  - apply Z.div_unique with 1; lia.
  - apply Z.div_unique with 0; lia.
  - reflexivity.
Qed.

Lemma iter_shr_1_m p : forall mrs,
  0 <= shr_m mrs ->
  shr_m (Pos.iter shr_1 mrs p) = shr_m mrs / 2 ^ Zpos p.
Proof.
  induction p as [|p IH] using Pos.peano_ind; intros mrs Hm.
  - simpl. rewrite shr_1_m by assumption. reflexivity.
  - rewrite Pos.iter_succ, shr_1_m.
    + rewrite IH by assumption. rewrite Pos2Z.inj_succ, Z.pow_succ_r by lia.
      rewrite Z.div_div by (try apply Z.pow_pos_nonneg; lia).
      f_equal. lia.
    + rewrite IH by assumption. apply Z.div_pos; [assumption|].
      apply Z.pow_pos_nonneg; lia.
Qed.

(** [shr] divides the mantissa by [2^n] and adds [n] to the exponent,
    for a positive [n]; it does nothing otherwise. *)
Lemma shr_spec mrs e n :
  0 <= shr_m mrs ->
  shr_m (shr mrs e n).1 = shr_m mrs / 2 ^ Z.max 0 n /\
  (shr mrs e n).2 = e + Z.max 0 n.
Proof.
  intros Hm. destruct n as [|p|p]; simpl.
  - rewrite Z.div_1_r. split; [reflexivity|lia].
  - rewrite iter_pos_iter, iter_shr_1_m by assumption. split; reflexivity.
  - rewrite Z.div_1_r. split; [reflexivity|lia].
Qed.

Lemma shr_record_of_loc_m m l : shr_m (shr_record_of_loc m l) = m.
Proof. destruct l as [|[| |]]; reflexivity. Qed.

Lemma shr_fexp_spec m e l :
  0 <= m ->
  let n := Z.max 0 (fexp prec emax (Zdigits2 m + e) - e) in
  shr_m (shr_fexp prec emax m e l).1 = m / 2 ^ n /\
  (shr_fexp prec emax m e l).2 = e + n.
Proof.
  intros Hm n. unfold SpecFloat.shr_fexp. subst n.
  rewrite <- (shr_record_of_loc_m m l) at 3.
  apply shr_spec. now rewrite shr_record_of_loc_m.
Qed.

Lemma round_nearest_even_bounds m l :
  m <= round_nearest_even m l <= m + 1.
Proof.
  destruct l as [|[| |]]; simpl; try lia. destruct (Z.even m); lia.
Qed.

(** ** The result of rounding a non-negative mantissa *)

Lemma binary_round_aux_not_negative m e l :
  0 <= m -> not_negative (binary_round_aux prec emax false m e l).
Proof.
  intros Hm. unfold binary_round_aux.
  pose proof (shr_fexp_spec m e l Hm) as [H1 _].
  destruct (shr_fexp prec emax m e l) as [mrs' e']. simpl in H1.
  pose proof (round_nearest_even_bounds (shr_m mrs') (loc_of_shr_record mrs'))
    as Hr.
  assert (0 <= shr_m mrs') as Hm'
    by (rewrite H1; apply Z.div_pos; [assumption|apply Z.pow_pos_nonneg; lia]).
  pose proof (shr_fexp_spec
                (round_nearest_even (shr_m mrs') (loc_of_shr_record mrs'))
                e' loc_Exact ltac:(lia)) as [H2 _].
  destruct (shr_fexp prec emax _ e' loc_Exact) as [mrs'' e'']. simpl in H2.
  assert (0 <= shr_m mrs'') as Hm''
    by (rewrite H2; apply Z.div_pos; [lia|apply Z.pow_pos_nonneg; lia]).
  destruct (shr_m mrs'') as [|p|p]; simpl; [exact I| |lia].
  destruct (e'' <=? emax - prec); exact I.
Qed.

Lemma binary_round_not_negative m e :
  not_negative (binary_round prec emax false m e).
Proof.
  unfold binary_round.
  destruct (shl_align m e _) as [mz ez].
  apply binary_round_aux_not_negative. lia.
Qed.

(** ** Aligning a mantissa to a smaller exponent *)

Lemma iter_xO_value m d : Zpos (Pos.iter xO m d) = Zpos m * 2 ^ Zpos d.
Proof.
  induction d as [|d IH] using Pos.peano_ind.
  - simpl. lia.
  - rewrite Pos.iter_succ, Pos2Z.inj_xO, IH.
    rewrite Pos2Z.inj_succ, Z.pow_succ_r by lia. lia.
Qed.

Lemma shl_align_value m e e' :
  e' <= e -> Zpos (shl_align m e e').1 = Zpos m * 2 ^ (e - e').
Proof.
  intros Hle. unfold shl_align.
  destruct (e' - e) as [|d|d] eqn:E; simpl.
  - replace (e - e') with 0 by lia. lia.
  - lia.
  - rewrite iter_xO_value. f_equal. f_equal. lia.
Qed.

(** ** Rounding a mantissa that is above a float *)

(** If [s * 2^ez] is at least the float [mb * 2^eb], so is what it
    rounds to. *)
Lemma binary_round_ge mb eb s ez :
  canonical_mantissa prec emax mb eb = true ->
  ez <= eb -> Zpos mb * 2 ^ (eb - ez) <= Zpos s ->
  SFleb (S754_finite false mb eb) (binary_round prec emax false s ez) = true.
Proof.
  intros Hcan Hez Hs.
  unfold canonical_mantissa in Hcan. apply Z.eqb_eq in Hcan.
  pose proof (digits_lower mb (eb - ez) s ltac:(lia) Hs) as Hd.
  pose proof (fexp_mono (Zpos (digits2_pos mb) + eb)
                (Zpos (digits2_pos s) + ez) ltac:(lia)) as Hf.
  rewrite Hcan in Hf.
  pose proof (fexp_emin (Zpos (digits2_pos mb) + eb)) as Hemin.
  rewrite Hcan in Hemin.
  pose proof (digits_bounds s) as [Hs1 _].
  assert (0 < 2 ^ (eb - ez)) as Hpow by (apply Z.pow_pos_nonneg; lia).
  unfold binary_round.
  assert (shl_align s ez (fexp prec emax (Zpos (digits2_pos s) + ez))
          = (s, ez)) as ->.
  { unfold shl_align.
    destruct (fexp prec emax (Zpos (digits2_pos s) + ez) - ez)
      as [|d|d] eqn:E;
      [reflexivity|reflexivity|lia]. }
  unfold binary_round_aux.
  pose proof (shr_fexp_spec (Zpos s) ez loc_Exact ltac:(lia)) as [H1 H1e].
  cbn [Zdigits2] in H1, H1e.
  destruct (shr_fexp prec emax (Zpos s) ez loc_Exact) as [mrs1 e1].
  cbn [fst snd] in H1, H1e.
  set (n1 := Z.max 0 (fexp prec emax (Zpos (digits2_pos s) + ez) - ez))
    in *.
  assert (e1 = fexp prec emax (Zpos (digits2_pos s) + ez)) as He1 by lia.
  assert (n1 = e1 - ez) as Hn1 by lia.
  assert (0 < 2 ^ n1) as Hpow1 by (apply Z.pow_pos_nonneg; lia).
  assert (e1 = eb -> Zpos mb <= shr_m mrs1) as Hm1eq.
  { intros Heq. rewrite H1. apply Z.div_le_lower_bound; [assumption|].
    replace n1 with (eb - ez) by lia. lia. }
  assert (1 <= shr_m mrs1) as Hm1.
  { destruct (Z.eq_dec e1 eb) as [Heq|Hne]; [specialize (Hm1eq Heq); lia|].
    rewrite H1. apply Z.div_le_lower_bound; [assumption|].
    assert (e1 = Zpos (digits2_pos s) + ez - prec) as He1'
      by (rewrite He1; apply (fexp_above _ eb); lia).
    assert (2 ^ n1 <= 2 ^ (Zpos (digits2_pos s) - 1))
      by (apply Z.pow_le_mono_r; lia).
    lia. }
  pose proof (round_nearest_even_bounds (shr_m mrs1) (loc_of_shr_record mrs1))
    as Hr.
  set (m2 := round_nearest_even (shr_m mrs1) (loc_of_shr_record mrs1)) in *.
  pose proof (shr_fexp_spec m2 e1 loc_Exact ltac:(lia)) as [H2 H2e].
  destruct (shr_fexp prec emax m2 e1 loc_Exact) as [mrs2 e2].
  cbn [fst snd] in H2, H2e.
  set (n2 := Z.max 0 (fexp prec emax (Zdigits2 m2 + e1) - e1)) in *.
  assert (1 <= shr_m mrs2 /\ (e2 = eb -> Zpos mb <= shr_m mrs2)) as [Hm3 Hm3eq].
  { destruct (Z.eq_dec n2 0) as [Hz|Hnz].
    - rewrite H2, Hz, Z.pow_0_r, Z.div_1_r. split; [lia|].
      intros Heq. assert (e1 = eb) as Heq1 by lia. specialize (Hm1eq Heq1). lia.
    - split; [|lia].
      destruct m2 as [|p2|p2] eqn:Em2; [lia| |lia].
      cbn [Zdigits2] in *.
      assert (fexp prec emax (Zpos (digits2_pos p2) + e1)
              = Zpos (digits2_pos p2) + e1 - prec) as Hfe
        by (apply (fexp_above _ e1); lia).
      pose proof (digits_bounds p2) as [Hp2 _].
      assert (0 < 2 ^ n2) by (apply Z.pow_pos_nonneg; lia).
      assert (2 ^ n2 <= 2 ^ (Zpos (digits2_pos p2) - 1))
        by (apply Z.pow_le_mono_r; lia).
      rewrite H2. apply Z.div_le_lower_bound; lia. }
  destruct (shr_m mrs2) as [|p3|p3]; [lia| |lia].
  destruct (e2 <=? emax - prec); [|reflexivity].
  unfold SFleb, SFcompare.
  destruct (Z.compare_spec eb e2) as [Heq|Hlt|Hgt]; [|reflexivity|lia].
  specialize (Hm3eq (eq_sym Heq)).
  change (Pos.compare_cont Eq mb p3) with (Pos.compare mb p3).
  destruct (Pos.compare_spec mb p3) as [?|?|Hgt]; [reflexivity|reflexivity|lia].
Qed.

(** ** Subtracting a negative float *)

(** For canonical negative floats the comparison follows the
    magnitudes: the aligned mantissa of the smaller float is larger. *)
Lemma aligned_mantissa_lt ma ea mb eb :
  canonical_mantissa prec emax ma ea = true ->
  canonical_mantissa prec emax mb eb = true ->
  SFltb (S754_finite true ma ea) (S754_finite true mb eb) = true ->
  Zpos (shl_align mb eb (Z.min eb ea)).1 < Zpos (shl_align ma ea (Z.min eb ea)).1.
Proof.
  intros Ha Hb Hlt.
  unfold canonical_mantissa in Ha, Hb.
  apply Z.eqb_eq in Ha. apply Z.eqb_eq in Hb.
  rewrite !shl_align_value by lia.
  unfold SFltb, SFcompare in Hlt.
  destruct (Z.compare_spec ea eb) as [Heq|Hl|Hg]; [| discriminate |].
  - subst eb. rewrite Z.min_id, Z.sub_diag. simpl.
    change (Pos.compare_cont Eq ma mb) with (Pos.compare ma mb) in Hlt.
    destruct (Pos.compare_spec ma mb); try discriminate. lia.
  - rewrite Z.min_l by lia. rewrite Z.sub_diag, Z.pow_0_r.
    pose proof (fexp_emin (Zpos (digits2_pos mb) + eb)) as Hemin.
    rewrite Hb in Hemin.
    assert (Zpos (digits2_pos ma) = prec) as Hda.
    { pose proof (fexp_above (Zpos (digits2_pos ma) + ea) eb) as Hx.
      rewrite Ha in Hx. specialize (Hx ltac:(lia) Hemin). lia. }
    assert (Zpos (digits2_pos mb) <= prec) as Hdb.
    { unfold SpecFloat.fexp in Hb. lia. }
    pose proof (digits_bounds ma) as [Hma _].
    pose proof (digits_bounds mb) as [_ Hmb].
    rewrite Hda in Hma.
    assert (2 ^ Zpos (digits2_pos mb) <= 2 ^ prec)
      by (apply Z.pow_le_mono_r; lia).
    assert (2 ^ 1 <= 2 ^ (ea - eb)) as Hp by (apply Z.pow_le_mono_r; lia).
    replace prec with (Z.succ (prec - 1)) in H by lia.
    rewrite Z.pow_succ_r in H by lia.
    assert (0 < 2 ^ (prec - 1)) by (apply Z.pow_pos_nonneg; lia).
    change (2 ^ 1) with 2 in Hp. nia.
Qed.

(** Taking a negative [a] away from [b], with [a < b], gives a float
    that is not below [b]. *)
Lemma sub_negative_not_below a b :
  valid_binary prec emax a = true -> valid_binary prec emax b = true ->
  SFltb a (S754_zero false) = true -> SFltb a b = true ->
  SFleb b (SFsub prec emax b a) = true.
Proof.
  intros Va Vb Hneg Hlt.
  destruct a as [sa|[|]| |[|] ma ea]; try discriminate.
  - (* a is minus infinity *)
    destruct b as [sb|[|]| |sb mb eb]; try discriminate; reflexivity.
  - (* a is a negative float *)
    destruct b as [sb|[|]| |sb mb eb]; try discriminate; try reflexivity.
    simpl in Va, Vb. apply andb_prop in Va, Vb.
    destruct Va as [Va _], Vb as [Vb _].
    unfold SFsub, binary_normalize.
    destruct sb.
    + (* b is negative too: the difference is positive *)
      pose proof (aligned_mantissa_lt ma ea mb eb Va Vb Hlt) as Hm.
      cbn [cond_Zopp].
      destruct (Z.opp (Zpos (shl_align mb eb (Z.min eb ea)).1)
                - Z.opp (Zpos (shl_align ma ea (Z.min eb ea)).1))
        as [|s|s] eqn:E; [reflexivity| |lia].
      pose proof (binary_round_not_negative s (Z.min eb ea)) as Hnn.
      destruct (binary_round prec emax false s (Z.min eb ea))
        as [?|[|]| |[|] ? ?]; simpl in Hnn; try contradiction; reflexivity.
    + (* b is positive: the sum rounds to at least b *)
      cbn [cond_Zopp].
      pose proof (shl_align_value mb eb (Z.min eb ea) ltac:(lia)) as Hb.
      destruct (Zpos (shl_align mb eb (Z.min eb ea)).1
                - Z.opp (Zpos (shl_align ma ea (Z.min eb ea)).1))
        as [|s|s] eqn:E; [lia| |lia].
      apply binary_round_ge; [assumption|lia|lia].
Qed.

End Rounding.

(* ================================================================== *)
(** * Rounding gives well-formed floats *)
(* ================================================================== *)

Section Validity.

Variables prec emax : Z.
Hypothesis prec_pos : 0 < prec.

(** ** Digits of a shifted mantissa *)

Lemma Zdigits2_nonneg m : 0 <= Zdigits2 m.
Proof. destruct m; simpl; lia. Qed.

Lemma Zdigits2_bounds m :
  0 < m -> 2 ^ (Zdigits2 m - 1) <= m < 2 ^ Zdigits2 m.
Proof. destruct m as [|p|p]; try lia. intros _. apply digits_bounds. Qed.

(** The number of digits is determined by the two powers of 2 around
    the number. *)
Lemma Zdigits2_unique m d :
  2 ^ (d - 1) <= m < 2 ^ d -> 0 < d -> Zdigits2 m = d.
Proof.
  intros [Hlo Hhi] Hd.
  assert (0 < m) as Hm.
  { assert (0 < 2 ^ (d - 1)) by (apply Z.pow_pos_nonneg; lia). lia. }
  pose proof (Zdigits2_bounds m Hm) as [Hlo' Hhi'].
  pose proof (Zdigits2_nonneg m) as Hnn.
  destruct (Z.lt_trichotomy (Zdigits2 m) d) as [Hlt|[Heq|Hgt]];
    [exfalso|assumption|exfalso].
  - assert (2 ^ Zdigits2 m <= 2 ^ (d - 1)) by (apply Z.pow_le_mono_r; lia).
    lia.
  - assert (2 ^ d <= 2 ^ (Zdigits2 m - 1)) by (apply Z.pow_le_mono_r; lia).
    lia.
Qed.

Lemma Zdigits2_shift m n :
  0 < m -> 0 <= n < Zdigits2 m ->
  0 < m / 2 ^ n /\ Zdigits2 (m / 2 ^ n) = Zdigits2 m - n.
Proof.
  intros Hm Hn.
  pose proof (Zdigits2_bounds m Hm) as [Hlo Hhi].
  assert (0 < 2 ^ n) as Hp by (apply Z.pow_pos_nonneg; lia).
  assert (2 ^ (Zdigits2 m - n - 1) <= m / 2 ^ n < 2 ^ (Zdigits2 m - n)) as Hb.
  { split.
    - apply Z.div_le_lower_bound; [assumption|].
      rewrite <- Z.pow_add_r by lia.
      replace (n + (Zdigits2 m - n - 1)) with (Zdigits2 m - 1) by lia.
      assumption.
    - apply Z.div_lt_upper_bound; [assumption|].
      rewrite <- Z.pow_add_r by lia.
      replace (n + (Zdigits2 m - n)) with (Zdigits2 m) by lia.
      assumption. }
  split.
  - assert (0 < 2 ^ (Zdigits2 m - n - 1)) by (apply Z.pow_pos_nonneg; lia).
    lia.
  - apply Zdigits2_unique; [assumption|lia].
Qed.

Lemma Zdigits2_shift_all m n :
  0 <= m -> Zdigits2 m <= n -> m / 2 ^ n = 0.
Proof.
  intros Hm Hn.
  destruct (Z.eq_dec m 0) as [->|Hne];
    [apply Z.div_0_l, Z.pow_nonzero; simpl in Hn; lia|].
  pose proof (Zdigits2_bounds m ltac:(lia)) as [_ Hhi].
  pose proof (Zdigits2_nonneg m).
  apply Z.div_small. split; [assumption|].
  assert (2 ^ Zdigits2 m <= 2 ^ n) by (apply Z.pow_le_mono_r; lia). lia.
Qed.

(** Adding one keeps the number of digits or reaches the next power
    of 2. *)
Lemma Zdigits2_succ m :
  0 < m ->
  Zdigits2 (m + 1) = Zdigits2 m \/
  (m + 1 = 2 ^ Zdigits2 m /\ Zdigits2 (m + 1) = Zdigits2 m + 1).
Proof.
  intros Hm.
  pose proof (Zdigits2_bounds m Hm) as [Hlo Hhi].
  assert (0 < Zdigits2 m) as Hd by (destruct m; simpl in *; lia).
  destruct (Z_lt_le_dec (m + 1) (2 ^ Zdigits2 m)) as [Hlt|Hge].
  - left. apply Zdigits2_unique; lia.
  - right. split; [lia|].
    apply Zdigits2_unique; [|lia].
    replace (Zdigits2 m + 1 - 1) with (Zdigits2 m) by lia.
    rewrite Z.pow_add_r by lia. change (2 ^ 1) with 2. lia.
Qed.

(** ** Rounding gives a well-formed float *)

Lemma binary_round_aux_valid sx m e l :
  0 < m -> e <= fexp prec emax (Zdigits2 m + e) ->
  valid_binary prec emax (binary_round_aux prec emax sx m e l) = true.
Proof.
  intros Hm He. unfold binary_round_aux.
  pose proof (shr_fexp_spec prec emax m e l ltac:(lia)) as [H1 H1e].
  destruct (shr_fexp prec emax m e l) as [mrs1 e1].
  cbn [fst snd] in H1, H1e.
  set (d := Zdigits2 m) in *.
  assert (e1 = fexp prec emax (d + e)) as He1 by lia.
  set (n1 := Z.max 0 (fexp prec emax (d + e) - e)) in *.
  assert (n1 = e1 - e) as Hn1 by lia.
  pose proof (round_nearest_even_bounds (shr_m mrs1) (loc_of_shr_record mrs1))
    as Hr.
  set (m2 := round_nearest_even (shr_m mrs1) (loc_of_shr_record mrs1)) in *.
  assert (0 <= shr_m mrs1) as Hm1
    by (rewrite H1; apply Z.div_pos; [lia|apply Z.pow_pos_nonneg; lia]).
  pose proof (shr_fexp_spec prec emax m2 e1 loc_Exact ltac:(lia)) as [H2 H2e].
  destruct (shr_fexp prec emax m2 e1 loc_Exact) as [mrs2 e2].
  cbn [fst snd] in H2, H2e.
  set (n2 := Z.max 0 (fexp prec emax (Zdigits2 m2 + e1) - e1)) in *.
  assert (0 < shr_m mrs2 -> fexp prec emax (Zdigits2 (shr_m mrs2) + e2) = e2)
    as Hcanon.
  { intros Hpos.
    assert (0 < m2) as Hm2.
    { destruct (Z.eq_dec m2 0) as [Hz|Hnz]; [|lia].
      rewrite H2, Hz in Hpos. rewrite Z.div_0_l in Hpos; [lia|].
      apply Z.pow_nonzero; lia. }
    (* the mantissa after rounding is canonical up to one more digit *)
    assert (fexp prec emax (Zdigits2 m2 + e1) = e1 \/
            (fexp prec emax (Zdigits2 m2 + e1) = e1 + 1 /\
             exists k, 0 < k /\ m2 = 2 ^ k /\ Zdigits2 m2 = k + 1)) as Hcase.
    { destruct (Z_lt_le_dec n1 d) as [Hshift|Hall].
      - destruct (Zdigits2_shift m n1 Hm ltac:(lia)) as [Hpos1 Hd1].
        fold d in Hd1. rewrite <- H1 in Hpos1, Hd1.
        assert (fexp prec emax (Zdigits2 (shr_m mrs1) + e1) = e1) as Hc1
          by (rewrite Hd1; replace (d - n1 + e1) with (d + e) by lia; lia).
        destruct (Z.eq_dec m2 (shr_m mrs1)) as [->|Hne]; [now left|].
        assert (m2 = shr_m mrs1 + 1) as Hm2eq by lia.
        destruct (Zdigits2_succ (shr_m mrs1) Hpos1) as [Hsame|[Hpow Hnext]].
        + left. rewrite Hm2eq, Hsame. exact Hc1.
        + rewrite <- Hm2eq in Hpow, Hnext.
          unfold fexp in Hc1 |- *. rewrite Hnext.
          destruct (Z_le_gt_dec
                      (Z.max (Zdigits2 (shr_m mrs1) + 1 + e1 - prec)
                             (emin prec emax)) e1) as [Hle|Hgt].
          * left. lia.
          * right. split; [lia|].
            exists (Zdigits2 (shr_m mrs1)). repeat split; [lia|assumption].
      - left.
        assert (shr_m mrs1 = 0) as Hz
          by (rewrite H1; apply Zdigits2_shift_all; lia).
        assert (m2 = 1) as -> by lia.
        change (Zdigits2 1) with 1.
        unfold fexp in He1 |- *. lia. }
    destruct Hcase as [Hsame|(Hnext & k & Hk & Hpow & Hdig)].
    - assert (n2 = 0) as Hn2 by lia.
      rewrite H2, Hn2, Z.pow_0_r, Z.div_1_r.
      replace e2 with e1 by lia. exact Hsame.
    - assert (n2 = 1) as Hn2 by lia.
      assert (shr_m mrs2 = 2 ^ (k - 1)) as Hm3.
      { rewrite H2, Hn2, Hpow. change (2 ^ 1) with 2.
        replace k with (Z.succ (k - 1)) at 1 by lia.
        rewrite Z.pow_succ_r by lia.
        rewrite Z.mul_comm, Z.div_mul by lia. reflexivity. }
      assert (Zdigits2 (shr_m mrs2) = k) as Hd3.
      { rewrite Hm3. apply Zdigits2_unique; [|lia].
        split; [lia|]. apply Z.pow_lt_mono_r; lia. }
      rewrite Hd3. replace e2 with (e1 + 1) by lia.
      rewrite Hdig in Hnext.
      replace (k + (e1 + 1)) with (k + 1 + e1) by lia. exact Hnext. }
  destruct (shr_m mrs2) as [|p3|p3] eqn:E3; [reflexivity| |reflexivity].
  destruct (e2 <=? emax - prec) eqn:Ebound; [|reflexivity].
  cbn [valid_binary]. unfold bounded, canonical_mantissa.
  rewrite Ebound, andb_true_r. apply Z.eqb_eq.
  apply (Hcanon ltac:(lia)).
Qed.

Lemma binary_round_valid sx m e :
  valid_binary prec emax (binary_round prec emax sx m e) = true.
Proof.
  unfold binary_round.
  destruct (shl_align m e (fexp prec emax (Zpos (digits2_pos m) + e)))
    as [mz ez] eqn:E.
  apply binary_round_aux_valid; [lia|].
  cbn [Zdigits2].
  unfold shl_align in E.
  destruct (fexp prec emax (Zpos (digits2_pos m) + e) - e) as [|p|p] eqn:Ed;
    injection E as <- <-; try lia.
  (* the mantissa was shifted left by [p] *)
  assert (Zdigits2 (Zpos (Pos.iter xO m p)) = Zpos (digits2_pos m) + Zpos p)
    as Hd.
  { apply Zdigits2_unique; [|lia].
    rewrite iter_xO_value.
    pose proof (digits_bounds m) as [Hlo Hhi].
    assert (0 < 2 ^ Zpos p) by (apply Z.pow_pos_nonneg; lia).
    replace (Zpos (digits2_pos m) + Zpos p - 1)
      with (Zpos (digits2_pos m) - 1 + Zpos p) by lia.
    rewrite !Z.pow_add_r by lia. nia. }
  cbn [Zdigits2] in Hd. rewrite Hd.
  replace (Zpos (digits2_pos m) + Zpos p
           + fexp prec emax (Zpos (digits2_pos m) + e))
    with (Zpos (digits2_pos m) + e) by lia.
  lia.
Qed.

Lemma binary_normalize_valid m e szero :
  valid_binary prec emax (binary_normalize prec emax m e szero) = true.
Proof.
  destruct m; simpl; [reflexivity|apply binary_round_valid..].
Qed.

Lemma SFadd_valid x y :
  valid_binary prec emax x = true -> valid_binary prec emax y = true ->
  valid_binary prec emax (SFadd prec emax x y) = true.
Proof.
  intros Vx Vy.
  destruct x as [sx|sx| |sx mx ex], y as [sy|sy| |sy my ey];
    try reflexivity; try assumption;
    try (destruct sx, sy; reflexivity).
  apply binary_normalize_valid.
Qed.

Lemma SFsub_valid x y :
  valid_binary prec emax x = true -> valid_binary prec emax y = true ->
  valid_binary prec emax (SFsub prec emax x y) = true.
Proof.
  intros Vx Vy.
  destruct x as [sx|sx| |sx mx ex], y as [sy|sy| |sy my ey];
    try reflexivity; try assumption;
    try (destruct sx, sy; reflexivity).
  apply binary_normalize_valid.
Qed.

End Validity.

(* ================================================================== *)
(** * The balances of the fleet are well-formed floats *)
(* ================================================================== *)

Section FeesValid.

Lemma F32_of_double_valid x : F32.valid (F32.of_double x) = true.
Proof.
  destruct x as [s|s| |s m e]; try reflexivity.
  apply binary_round_valid. unfold F32.prec. lia.
Qed.

Lemma F32_add_valid x y :
  F32.valid x = true -> F32.valid y = true -> F32.valid (F32.add x y) = true.
Proof. apply SFadd_valid. unfold F32.prec. lia. Qed.

Lemma F32_sub_valid x y :
  F32.valid x = true -> F32.valid y = true -> F32.valid (F32.sub x y) = true.
Proof. apply SFsub_valid. unfold F32.prec. lia. Qed.

Lemma readRecord_fees_valid cmp line v :
  readRecord cmp line = inr v -> fees_valid v.
Proof.
  intros H. apply readRecord_inr in H.
  destruct H as (? & ? & ? & ? & ? & ? & ? & fees & ? & _ & _ & _ & _ & _ & _ & _ & Hf).
  unfold fees_valid. rewrite Hf. apply F32_of_double_valid.
Qed.

Lemma loadLoop_fees_valid fuel : forall fp fleet,
  Forall fees_valid fleet -> Forall fees_valid (loadLoop fuel fp fleet).
Proof.
  induction fuel as [|fuel IH]; intros fp fleet Hf; [assumption|].
  simpl. destruct (fgets 256 fp) as [[buf fp']|]; [|assumption].
  destruct (decide (length fleet < MAX_VESSELS)%nat); [|assumption].
  destruct (readRecord strcmp _) as [e|v] eqn:Hr; [now apply IH|].
  apply IH, Forall_app. split; [assumption|].
  constructor; [|constructor]. now apply readRecord_fees_valid in Hr.
Qed.

Lemma loadData_fees_valid file : Forall fees_valid (loadData file []).
Proof.
  destruct file as [fp|]; simpl; [|constructor].
  unfold qsort. rewrite merge_sort_Permutation.
  apply loadLoop_fees_valid. constructor.
Qed.

Lemma recordPayment_fees_valid stdin fleet :
  Forall fees_valid fleet -> Forall fees_valid (recordPayment stdin fleet).1.1.
Proof.
  intros Hf. unfold recordPayment.
  destruct (read_line MAX_VESSEL_NAME_LEN stdin) as [[inputName stdin']|];
    [|assumption].
  destruct (locateVesselByName fleet inputName =? -1); [assumption|].
  destruct (fgets 50 stdin') as [[buf stdin'']|]; [|assumption].
  destruct (fleet !! Z.to_nat (locateVesselByName fleet inputName))
    as [v|] eqn:Hv; [|assumption].
  destruct (F32.geb _ _); [assumption|]. simpl.
  apply Forall_insert; [assumption|].
  unfold fees_valid. simpl. apply F32_sub_valid.
  - rewrite Forall_lookup in Hf. exact (Hf _ _ Hv).
  - apply F32_of_double_valid.
Qed.

Lemma execute_fees_valid fleet c :
  Forall fees_valid fleet -> Forall fees_valid (execute fleet c).
Proof.
  intros Hf. destruct c as [csvLine|stdin|stdin|]; simpl.
  - destruct (insertVessel_cases fleet csvLine) as [->|(v & Hr & _ & ->)];
      [assumption|]. simpl.
    unfold qsort. rewrite merge_sort_Permutation.
    apply Forall_app. split; [assumption|].
    constructor; [|constructor]. now apply readRecord_fees_valid in Hr.
  - destruct (removeVessel_cases stdin fleet) as [->|[k ->]];
      [assumption|now apply Forall_delete].
  - now apply recordPayment_fees_valid.
  - rewrite applyMonthlyFees_map. apply Forall_fmap.
    eapply Forall_impl; [exact Hf|].
    intros v Hv. unfold fees_valid, bill. simpl.
    apply F32_add_valid; [exact Hv|apply F32_of_double_valid].
Qed.

(** Whatever was loaded and whatever commands followed, every balance
    is a well-formed binary32 value (or an infinity or a NaN). *)
Lemma session_fees_valid file cs :
  Forall fees_valid (session (loadData file []) cs).
Proof.
  assert (forall fleet, Forall fees_valid fleet ->
                        Forall fees_valid (session fleet cs)) as H.
  { induction cs as [|c cs IH]; intros fleet Hf; [assumption|].
    simpl. apply IH. now apply execute_fees_valid. }
  apply H, loadData_fees_valid.
Qed.

End FeesValid.

(* ================================================================== *)
(** * Negative payments *)
(* ================================================================== *)

(** C9 as it is stated fails on the balance the line [Big,20,slip,5,16777216.00]
    loads and the amount [-0.5]: the amount is negative and below the
    balance, the payment is accepted without a message, and the balance
    [16777216 + 0.5] rounds back to [16777216]: it has not increased. *)
Lemma C9_counterexample :
  loadData (Some (ln "Big,20,slip,5,16777216.00")) [] = [Big] /\
  F32.of_double (atof (ln "-0.5")) = S754_finite true 8388608 (-24) /\
  F32.ltb (S754_finite true 8388608 (-24)) f0 = true /\
  F32.ltb (S754_finite true 8388608 (-24)) (outstandingFees Big) = true /\
  recordPayment (ln "big" +:+ ln "-0.5") [Big] = ([Big], EmptyString, None) /\
  F32.ltb (outstandingFees Big)
          (F32.sub (outstandingFees Big) (S754_finite true 8388608 (-24)))
    = false.
Proof. repeat split; vm_compute; reflexivity. Qed.

(** C9, amended. A negative amount [a] below the balance [b] of the
    vessel is accepted: no sign check or lower bound is applied, no
    message is printed, and the balance becomes [b - a] in [float]
    arithmetic. When the balances of the fleet are well-formed floats,
    as they are in every fleet the program can reach
    ([session_fees_valid]), the new balance is never below [b]; it is
    above [b] unless the amount is lost in the rounding. *)
Theorem C9_negative_payment (stdin : string) (fleet : list Vessel)
    (inputName stdin1 buf stdin2 : string) (k : nat) (v : Vessel) :
  Forall fees_valid fleet ->
  read_line MAX_VESSEL_NAME_LEN stdin = Some (inputName, stdin1) ->
  fgets 50 stdin1 = Some (buf, stdin2) ->
  fleet !! k = Some v -> matches inputName v ->
  Forall (fun w => ~ matches inputName w) (take k fleet) ->
  let a := F32.of_double (atof buf) in
  let b := outstandingFees v in
  F32.ltb a f0 = true -> F32.ltb a b = true ->
  recordPayment stdin fleet
    = (<[k := with_fees v (F32.sub b a)]> fleet, stdin2, None) /\
  F32.geb (F32.sub b a) b = true.
Proof.
  intros Hvalid Hname Hamount Hk Hm Hfirst a b Hneg Hlt. split.
  - rewrite (recordPayment_found _ _ _ _ _ _ _ _ Hname Hamount Hk Hm Hfirst).
    cbv zeta. fold a b. now rewrite (ltb_not_geb _ _ Hlt).
  - unfold F32.geb, F32.sub.
    apply sub_negative_not_below; try assumption.
    + unfold F32.prec. lia.
    + apply F32_of_double_valid.
    + rewrite Forall_lookup in Hvalid. exact (Hvalid _ _ Hk).
Qed.

(** 50.00 is added to a balance of 100.00 by paying -50. *)
Lemma C9_negative_payment_witness :
  recordPayment (ln "alpha" +:+ ln "-50") two_boats
    = (<[0%nat := with_fees Alpha
                    (F32.sub f100 (F32.of_double (atof (ln "-50"))))]> two_boats,
       EmptyString, None) /\
  F32.geb (F32.sub f100 (F32.of_double (atof (ln "-50")))) f100 = true.
Proof.
  apply (C9_negative_payment (ln "alpha" +:+ ln "-50") two_boats "alpha"
           (ln "-50") (ln "-50") EmptyString 0%nat Alpha).
  - repeat constructor.
  - reflexivity.
  - reflexivity.
  - reflexivity.
  - reflexivity.
  - constructor.
  - vm_compute. reflexivity.
  - vm_compute. reflexivity.
Defined.

(* ================================================================== *)
(** * Reading the file to its end *)
(* ================================================================== *)

Section LoadLoop.

Lemma fgets_take_split room : forall fp,
  (String.length (fgets_take room fp).1 + String.length (fgets_take room fp).2
   = String.length fp)%nat.
Proof.
  induction room as [|room IH]; intros [|c r]; simpl; try lia.
  destruct (byte c =? 10); simpl; [lia|].
  specialize (IH r). destruct (fgets_take room r); simpl in *; lia.
Qed.

Lemma fgets_take_nonempty room c r :
  (1 <= room)%nat ->
  (1 <= String.length (fgets_take room (String c r)).1)%nat.
Proof.
  destruct room as [|room]; [lia|intros _].
  simpl. destruct (byte c =? 10); [simpl; lia|].
  destruct (fgets_take room r); simpl; lia.
Qed.

(** Every successful [fgets] consumes at least one byte. *)
Lemma fgets_shorter fp buf fp' :
  fgets 256 fp = Some (buf, fp') ->
  (String.length fp' < String.length fp)%nat.
Proof.
  unfold fgets. destruct fp as [|c r]; [discriminate|].
  pose proof (fgets_take_split (256 - 1) (String c r)) as Hs.
  pose proof (fgets_take_nonempty (256 - 1) c r ltac:(lia)) as Hn.
  destruct (fgets_take (256 - 1) (String c r)) as [buf0 rest0].
  intros [= -> ->]. cbn [fst snd String.length] in *. lia.
Qed.

(** Any bound above the length of the file gives the same fleet: with
    the length of the file, the loop ends by itself. *)
Lemma loadLoop_fuel n : forall m fp fleet,
  (String.length fp <= n)%nat -> (String.length fp <= m)%nat ->
  loadLoop n fp fleet = loadLoop m fp fleet.
Proof.
  induction n as [|n IH]; intros m fp fleet Hn Hm.
  - destruct fp; [|simpl in Hn; lia]. now destruct m.
  - destruct m as [|m].
    + destruct fp; [reflexivity|simpl in Hm; lia].
    + simpl. destruct (fgets 256 fp) as [[buf fp']|] eqn:E; [|reflexivity].
      apply fgets_shorter in E.
      destruct (decide (length fleet < MAX_VESSELS)%nat); [|reflexivity].
      destruct (readRecord strcmp _); apply IH; lia.
Qed.

End LoadLoop.

(* ================================================================== *)
(** * Writing a record that was read *)
(* ================================================================== *)

(** The category words hold no terminator. *)
Lemma locationCategoryToStr_cstr lc :
  cstr (locationCategoryToStr lc) = locationCategoryToStr lc.
Proof. destruct lc; reflexivity. Qed.

(** C5 as it is stated fails on fees: the fee [0.001] is written [0.00], and the
    fee [16777217.00], which no [float] equals, is written
    [16777216.00]. It fails on the category token for a line typed in
    upper case at the prompt: [SLIP] is written [slip]. *)
Lemma C5_counterexample :
  (exists v, readRecord strcmp "Alpha,20,slip,5,0.001" = inr v /\
             formatVessel v = ln "Alpha,20,slip,5,0.00") /\
  (exists v, readRecord strcmp "Alpha,20,slip,5,16777217.00" = inr v /\
             formatVessel v = ln "Alpha,20,slip,5,16777216.00") /\
  (exists v, readRecord strcasecmp "Alpha,20,SLIP,5,100.00" = inr v /\
             formatVessel v = ln "Alpha,20,slip,5,100.00").
Proof.
  repeat split; eexists; (split; [vm_compute; reflexivity|]);
    vm_compute; reflexivity.
Qed.

(** C5, amended. For a line that is accepted, the written record is made
    of: the name token cut to 127 characters; the [float] of the length
    token with no decimals; the category word; the location data; the
    [float] of the fee token rounded to two decimals. On the bulk-load
    path the category word is the category token of the line itself; on
    the interactive path it is that token in lower case. The fee is
    therefore reproduced up to the rounding to [float] and to two
    decimals only, and a fractional length is not reproduced: [12.5] is
    written [12]. *)
Theorem C5_format_after_read :
  (forall line v,
     readRecord strcmp line = inr v ->
     exists name rest1 len rest2 cat rest3 rest4 fees rest5,
       strtok_r line "," = Some (name, rest1) /\
       strtok_r rest1 "," = Some (len, rest2) /\
       strtok_r rest2 "," = Some (cat, rest3) /\
       readLocation strcmp cat rest3
         = inr (locationCat v, locationInfo v, rest4) /\
       strtok_r rest4 "," = Some (fees, rest5) /\
       formatVessel v =
         (string_take 127 name +:+ ","
            +:+ fmt_f 0 (F64.of_float (F32.of_double (atof len))) +:+ ","
            +:+ cat +:+ ",")
         +:+ formatLocation v
         +:+ ("," +:+ fmt_f 2 (F64.of_float (F32.of_double (atof fees)))
                  +:+ String newline EmptyString)) /\
  (forall line v,
     readRecord strcasecmp line = inr v ->
     exists name rest1 len rest2 cat rest3 rest4 fees rest5,
       strtok_r line "," = Some (name, rest1) /\
       strtok_r rest1 "," = Some (len, rest2) /\
       strtok_r rest2 "," = Some (cat, rest3) /\
       readLocation strcasecmp cat rest3
         = inr (locationCat v, locationInfo v, rest4) /\
       strtok_r rest4 "," = Some (fees, rest5) /\
       fold_case cat = fold_case (locationCategoryToStr (locationCat v)) /\
       formatVessel v =
         (string_take 127 name +:+ ","
            +:+ fmt_f 0 (F64.of_float (F32.of_double (atof len))) +:+ ","
            +:+ locationCategoryToStr (locationCat v) +:+ ",")
         +:+ formatLocation v
         +:+ ("," +:+ fmt_f 2 (F64.of_float (F32.of_double (atof fees)))
                  +:+ String newline EmptyString)) /\
  (exists v, readRecord strcmp "Zed,12.5,slip,3,1.00" = inr v /\
             formatVessel v = ln "Zed,12,slip,3,1.00").
Proof.
  split; [|split].
  - intros line v Hr.
    destruct (readRecord_inr _ _ _ Hr)
      as (name & rest1 & len & rest2 & cat & rest3 & rest4 & fees & rest5
          & H1 & H2 & H3 & H4 & H5 & Hn & Hl & Hf).
    exists name, rest1, len, rest2, cat, rest3, rest4, fees, rest5.
    repeat (split; [assumption|]).
    unfold formatVessel. rewrite Hn, Hl, Hf.
    unfold strncpy. rewrite (proj1 (strtok_r_cstr _ _ _ _ H1)).
    apply readLocation_category, strcmp_zero in H4.
    rewrite (proj1 (strtok_r_cstr _ _ _ _ H3)), locationCategoryToStr_cstr in H4.
    now rewrite H4.
  - intros line v Hr.
    destruct (readRecord_inr _ _ _ Hr)
      as (name & rest1 & len & rest2 & cat & rest3 & rest4 & fees & rest5
          & H1 & H2 & H3 & H4 & H5 & Hn & Hl & Hf).
    exists name, rest1, len, rest2, cat, rest3, rest4, fees, rest5.
    repeat (split; [assumption|]).
    split; [now apply strcasecmp_zero, (readLocation_category _ _ _ _ _ _ H4)|].
    unfold formatVessel. rewrite Hn, Hl, Hf.
    unfold strncpy. now rewrite (proj1 (strtok_r_cstr _ _ _ _ H1)).
  - eexists. split; vm_compute; reflexivity.
Qed.

Lemma C5_format_after_read_witness :
  (exists name rest1 len rest2 cat rest3 rest4 fees rest5,
     strtok_r "Alpha,20,slip,5,100.00" "," = Some (name, rest1) /\
     strtok_r rest1 "," = Some (len, rest2) /\
     strtok_r rest2 "," = Some (cat, rest3) /\
     readLocation strcmp cat rest3
       = inr (locationCat Alpha, locationInfo Alpha, rest4) /\
     strtok_r rest4 "," = Some (fees, rest5) /\
     formatVessel Alpha =
       (string_take 127 name +:+ ","
          +:+ fmt_f 0 (F64.of_float (F32.of_double (atof len))) +:+ ","
          +:+ cat +:+ ",")
       +:+ formatLocation Alpha
       +:+ ("," +:+ fmt_f 2 (F64.of_float (F32.of_double (atof fees)))
                +:+ String newline EmptyString)) /\
  (exists name rest1 len rest2 cat rest3 rest4 fees rest5,
     strtok_r "Alpha,20,SLIP,5,100.00" "," = Some (name, rest1) /\
     strtok_r rest1 "," = Some (len, rest2) /\
     strtok_r rest2 "," = Some (cat, rest3) /\
     readLocation strcasecmp cat rest3
       = inr (locationCat Alpha, locationInfo Alpha, rest4) /\
     strtok_r rest4 "," = Some (fees, rest5) /\
     fold_case cat = fold_case (locationCategoryToStr (locationCat Alpha)) /\
     formatVessel Alpha =
       (string_take 127 name +:+ ","
          +:+ fmt_f 0 (F64.of_float (F32.of_double (atof len))) +:+ ","
          +:+ locationCategoryToStr (locationCat Alpha) +:+ ",")
       +:+ formatLocation Alpha
       +:+ ("," +:+ fmt_f 2 (F64.of_float (F32.of_double (atof fees)))
                +:+ String newline EmptyString)).
Proof.
  split.
  - apply (proj1 C5_format_after_read "Alpha,20,slip,5,100.00" Alpha).
    vm_compute. reflexivity.
  - apply (proj1 (proj2 C5_format_after_read) "Alpha,20,SLIP,5,100.00" Alpha).
    vm_compute. reflexivity.
Defined.


(* ================================================================== *)
(** * The comparison function and the lookup *)
(* ================================================================== *)

(** X1. [compareVessels] is a comparison [qsort] can sort by: a vessel
    compares equal to itself, swapping the arguments negates the
    result, "not after" is transitive, and the result is 0 exactly when
    the two names have the same lower-cased bytes. *)
Theorem X1_compareVessels_is_consistent (a b c : Vessel) :
  compareVessels a a = 0 /\
  compareVessels b a = - compareVessels a b /\
  (compareVessels a b <= 0 -> compareVessels b c <= 0 ->
   compareVessels a c <= 0) /\
  (compareVessels a b = 0 <->
   fold_case (vesselName a) = fold_case (vesselName b)).
Proof.
  unfold compareVessels. repeat split.
  - apply strcasecmp_refl.
  - apply strcasecmp_swap.
  - apply strcasecmp_trans.
  - apply strcasecmp_zero.
  - apply strcasecmp_zero.
Qed.

Lemma X1_compareVessels_is_consistent_witness :
  compareVessels Alpha Alpha = 0 /\
  compareVessels beta Alpha = - compareVessels Alpha beta /\
  (compareVessels Alpha beta <= 0 -> compareVessels beta Gamma <= 0 ->
   compareVessels Alpha Gamma <= 0) /\
  (compareVessels Alpha beta = 0 <->
   fold_case (vesselName Alpha) = fold_case (vesselName beta)).
Proof. exact (X1_compareVessels_is_consistent Alpha beta Gamma). Defined.

Section Lookup.

Lemma locate_from_range fleet searchName : forall i,
  0 <= i ->
  locate_from i fleet searchName = -1 \/
  i <= locate_from i fleet searchName < i + Z.of_nat (length fleet).
Proof.
  induction fleet as [|v l IH]; intros i Hi; [now left|].
  simpl. destruct (strcasecmp (vesselName v) searchName =? 0).
  - right. lia.
  - destruct (IH (i + 1) ltac:(lia)) as [->|H]; [now left|right; lia].
Qed.

Lemma matches_same_key n1 n2 v :
  strcasecmp n1 n2 = 0 -> (matches n1 v <-> matches n2 v).
Proof.
  unfold matches. rewrite !strcasecmp_zero. intros ->. reflexivity.
Qed.

Lemma locate_from_same_key fleet n1 n2 :
  strcasecmp n1 n2 = 0 ->
  forall i, locate_from i fleet n1 = locate_from i fleet n2.
Proof.
  intros Hk. induction fleet as [|v l IH]; intros i; [reflexivity|].
  simpl. pose proof (matches_same_key n1 n2 v Hk) as Hm. unfold matches in Hm.
  destruct (Z.eqb_spec (strcasecmp (vesselName v) n1) 0) as [E1|E1],
           (Z.eqb_spec (strcasecmp (vesselName v) n2) 0) as [E2|E2];
    try reflexivity; try tauto. apply IH.
Qed.

End Lookup.

(** X2. [locateVesselByName] answers [-1] or an index below the count;
    it answers [-1] exactly when no vessel has the name up to case, and
    otherwise the vessel at that index has the name and none before it
    has. *)
Theorem X2_lookup_result (fleet : list Vessel) (searchName : string) :
  let idx := locateVesselByName fleet searchName in
  (idx = -1 \/ 0 <= idx < Z.of_nat (length fleet)) /\
  (idx = -1 <-> Forall (fun v => ~ matches searchName v) fleet) /\
  (idx <> -1 ->
   exists v, fleet !! Z.to_nat idx = Some v /\ matches searchName v /\
             Forall (fun w => ~ matches searchName w)
                    (take (Z.to_nat idx) fleet)).
Proof.
  cbv zeta. split; [|split].
  - destruct (locate_from_range fleet searchName 0 ltac:(lia)) as [H|H];
      [now left|right; unfold locateVesselByName; lia].
  - destruct (locateVesselByName_spec fleet searchName)
      as [[E Hnone]|(k & v & E & Hk & Hm & Hfirst)]; rewrite E.
    + tauto.
    + split; [lia|]. intros Hnone. rewrite Forall_lookup in Hnone.
      now destruct (Hnone k v Hk).
  - intros Hne.
    destruct (locateVesselByName_spec fleet searchName)
      as [[E _]|(k & v & E & Hk & Hm & Hfirst)]; [contradiction|].
    rewrite E, Nat2Z.id. eauto.
Qed.

Lemma X2_lookup_result_witness :
  (locateVesselByName two_boats "BETA" = -1 \/
   0 <= locateVesselByName two_boats "BETA" < Z.of_nat (length two_boats)) /\
  (locateVesselByName two_boats "BETA" = -1 <->
   Forall (fun v => ~ matches "BETA" v) two_boats) /\
  (locateVesselByName two_boats "BETA" <> -1 ->
   exists v, two_boats !! Z.to_nat (locateVesselByName two_boats "BETA") = Some v /\
             matches "BETA" v /\
             Forall (fun w => ~ matches "BETA" w)
                    (take (Z.to_nat (locateVesselByName two_boats "BETA")) two_boats)).
Proof. exact (X2_lookup_result two_boats "BETA"). Defined.

(** X3. The lookup does not depend on the case of the name that is
    searched: two names that [strcasecmp] finds equal designate the
    same index. *)
Theorem X3_lookup_ignores_case (fleet : list Vessel) (n1 n2 : string) :
  strcasecmp n1 n2 = 0 ->
  locateVesselByName fleet n1 = locateVesselByName fleet n2.
Proof. intros H. now apply locate_from_same_key. Qed.

Lemma X3_lookup_ignores_case_witness :
  locateVesselByName two_boats "BETA" = locateVesselByName two_boats "beta".
Proof. apply X3_lookup_ignores_case. reflexivity. Defined.

(* ================================================================== *)
(** * The array is never overrun *)
(* ================================================================== *)

Section Capacity.

Lemma loadLoop_length fuel : forall fp fleet,
  (length fleet <= MAX_VESSELS)%nat ->
  (length (loadLoop fuel fp fleet) <= MAX_VESSELS)%nat.
Proof.
  induction fuel as [|fuel IH]; intros fp fleet Hl; [assumption|].
  simpl. destruct (fgets 256 fp) as [[buf fp']|]; [|assumption].
  destruct (decide (length fleet < MAX_VESSELS)%nat); [|assumption].
  destruct (readRecord strcmp _); apply IH; rewrite ?length_app; simpl; lia.
Qed.

Lemma loadData_length file :
  (length (loadData file []) <= MAX_VESSELS)%nat.
Proof.
  destruct file as [fp|]; simpl; [|unfold MAX_VESSELS; lia].
  rewrite qsort_length. apply loadLoop_length. simpl. unfold MAX_VESSELS. lia.
Qed.

Lemma recordPayment_length stdin fleet :
  length (recordPayment stdin fleet).1.1 = length fleet.
Proof.
  destruct (recordPayment_cases stdin fleet) as [->|(i & v & fees & _ & ->)];
    [reflexivity|apply length_insert].
Qed.

Lemma execute_length fleet c :
  (length fleet <= MAX_VESSELS)%nat ->
  (length (execute fleet c) <= MAX_VESSELS)%nat.
Proof.
  intros Hl. destruct c as [csvLine|stdin|stdin|]; simpl.
  - destruct (insertVessel_cases fleet csvLine) as [->|(v & _ & Hroom & ->)];
      [assumption|]. simpl. rewrite qsort_length, length_app. simpl. lia.
  - destruct (removeVessel_cases stdin fleet) as [->|[k ->]]; [assumption|].
    rewrite delete_take_drop, length_app, length_take, length_drop. lia.
  - now rewrite recordPayment_length.
  - now rewrite applyMonthlyFees_map, length_fmap.
Qed.

Lemma session_length cs : forall fleet,
  (length fleet <= MAX_VESSELS)%nat ->
  (length (session fleet cs) <= MAX_VESSELS)%nat.
Proof.
  induction cs as [|c cs IH]; intros fleet Hl; [assumption|].
  simpl. apply IH. now apply execute_length.
Qed.

End Capacity.

(** X4. Whatever file is loaded and whatever commands follow, the fleet
    holds at most 120 vessels: [loadData] and [insertVessel], the only
    writers of [fleet[totalCount]], never write past the 120 slots of
    the array. *)
Theorem X4_fleet_within_capacity (file : option string) (cs : list Command) :
  (length (session (loadData file []) cs) <= 120)%nat.
Proof. apply session_length, loadData_length. Qed.

(* ================================================================== *)
(** * The location data agree with the category *)
(* ================================================================== *)

Section LocationData.

Lemma readLocation_stored cmp token rest cat info rest' :
  readLocation cmp token rest = inr (cat, info, rest') ->
  match cat, info with
  | SLIP, slipNo _ | LAND, bayLabel _ | STORAGE, storageSpot _ => True
  | TRAILOR, trailerTag tag => (String.length tag <= 9)%nat
  | _, _ => False
  end.
Proof.
  unfold readLocation, next_token.
  destruct (cmp token "slip" =? 0).
  { destruct (strtok_r rest ",") as [[? ?]|]; [|discriminate].
    now intros [= <- <- _]. }
  destruct (cmp token "land" =? 0).
  { destruct (strtok_r rest ",") as [[? ?]|]; [|discriminate].
    destruct (Nat.eqb _ _); [discriminate|]. now intros [= <- <- _]. }
  destruct (cmp token "trailor" =? 0).
  { destruct (strtok_r rest ",") as [[? ?]|]; [|discriminate].
    intros [= <- <- _]. apply strncpy_length. }
  destruct (cmp token "storage" =? 0).
  { destruct (strtok_r rest ",") as [[? ?]|]; [|discriminate].
    now intros [= <- <- _]. }
  discriminate.
Qed.

Lemma readRecord_stored cmp line v :
  readRecord cmp line = inr v -> category_matches v /\ tag_fits v.
Proof.
  intros H. apply readRecord_inr in H.
  destruct H as (? & ? & ? & ? & cat & ? & ? & ? & ? & _ & _ & _ & Hloc & _).
  apply readLocation_stored in Hloc.
  unfold category_matches, tag_fits.
  destruct (locationCat v), (locationInfo v); try contradiction;
    split; try exact I; try lia.
Qed.

Lemma with_fees_stored v fees :
  category_matches v /\ tag_fits v ->
  category_matches (with_fees v fees) /\ tag_fits (with_fees v fees).
Proof. destruct v. exact (fun H => H). Qed.

Lemma loadLoop_stored fuel : forall fp fleet,
  Forall (fun v => category_matches v /\ tag_fits v) fleet ->
  Forall (fun v => category_matches v /\ tag_fits v) (loadLoop fuel fp fleet).
Proof.
  induction fuel as [|fuel IH]; intros fp fleet Hf; [assumption|].
  simpl. destruct (fgets 256 fp) as [[buf fp']|]; [|assumption].
  destruct (decide (length fleet < MAX_VESSELS)%nat); [|assumption].
  destruct (readRecord strcmp _) as [e|v] eqn:Hr; [now apply IH|].
  apply IH, Forall_app. split; [assumption|].
  constructor; [|constructor]. now apply readRecord_stored in Hr.
Qed.

Lemma execute_stored fleet c :
  Forall (fun v => category_matches v /\ tag_fits v) fleet ->
  Forall (fun v => category_matches v /\ tag_fits v) (execute fleet c).
Proof.
  intros Hf. destruct c as [csvLine|stdin|stdin|]; simpl.
  - destruct (insertVessel_cases fleet csvLine) as [->|(v & Hr & _ & ->)];
      [assumption|]. simpl. rewrite qsort_Permutation.
    apply Forall_app. split; [assumption|].
    constructor; [|constructor]. now apply readRecord_stored in Hr.
  - destruct (removeVessel_cases stdin fleet) as [->|[k ->]];
      [assumption|now apply Forall_delete].
  - destruct (recordPayment_cases stdin fleet) as [->|(i & v & fees & Hv & ->)];
      [assumption|].
    apply Forall_insert; [assumption|]. apply with_fees_stored.
    rewrite Forall_lookup in Hf. exact (Hf _ _ Hv).
  - rewrite applyMonthlyFees_map. apply Forall_fmap.
    eapply Forall_impl; [exact Hf|]. intros v Hv. apply with_fees_stored, Hv.
Qed.

End LocationData.

(** X5. In every fleet the program can reach, the member of the union
    that holds the location data of a vessel is the one of its category,
    so [saveData] and [listAllVessels] only read the member that was
    written; and a trailer tag has at most 9 characters, so it fits the
    10 bytes of [trailerTag] with its terminator. *)
Theorem X5_location_data_agree (file : option string) (cs : list Command) :
  Forall (fun v => category_matches v /\ tag_fits v)
         (session (loadData file []) cs).
Proof.
  assert (forall fleet,
            Forall (fun v => category_matches v /\ tag_fits v) fleet ->
            Forall (fun v => category_matches v /\ tag_fits v)
                   (session fleet cs)) as H.
  { induction cs as [|c cs IH]; intros fleet Hf; [assumption|].
    simpl. apply IH. now apply execute_stored. }
  apply H. destruct file as [fp|]; simpl; [|constructor].
  rewrite qsort_Permutation. apply loadLoop_stored. constructor.
Qed.

(* ================================================================== *)
(** * Adding a vessel *)
(* ================================================================== *)

Lemma insertVessel_accepts fleet csvLine v :
  (length fleet < 120)%nat ->
  readRecord strcasecmp (strncpy csvLine 255) = inr v ->
  insertVessel fleet csvLine = (qsort (fleet ++ [v]), None).
Proof.
  intros Hroom Hread. unfold insertVessel.
  rewrite decide_False by (unfold MAX_VESSELS; lia). now rewrite Hread.
Qed.

Lemma qsort_snoc fleet v : qsort (fleet ++ [v]) ≡ₚ v :: fleet.
Proof. rewrite qsort_Permutation. symmetry. apply Permutation_cons_append. Qed.

(** X6. When the fleet holds fewer than 120 vessels and the line reads
    as the vessel [v], [insertVessel] prints nothing and returns a fleet
    that holds [v] and the vessels it held, no more and no fewer, in the
    order of names, whether or not the fleet was in order and whether or
    not the name was already there; the lookup of the name of [v] then
    finds a vessel. *)
Theorem X6_insert_adds_one (fleet : list Vessel) (csvLine : string)
    (v : Vessel) :
  (length fleet < 120)%nat ->
  readRecord strcasecmp (strncpy csvLine 255) = inr v ->
  let fleet' := (insertVessel fleet csvLine).1 in
  (insertVessel fleet csvLine).2 = None /\
  fleet' ≡ₚ v :: fleet /\
  length fleet' = S (length fleet) /\
  sorted_by_name fleet' /\
  locateVesselByName fleet' (vesselName v) <> -1.
Proof.
  intros Hroom Hread. cbv zeta.
  rewrite (insertVessel_accepts _ _ _ Hroom Hread). simpl.
  pose proof (qsort_snoc fleet v) as Hperm.
  split; [reflexivity|]. split; [exact Hperm|].
  split; [now rewrite Hperm|]. split; [apply qsort_sorted|].
  intros Hmiss.
  destruct (locateVesselByName_spec (qsort (fleet ++ [v])) (vesselName v))
    as [[_ Hnone]|(k & w & E & _)]; [|lia].
  rewrite Hperm in Hnone. inversion Hnone as [|? ? Hv _]; subst.
  apply Hv. unfold matches. apply strcasecmp_refl.
Qed.

Lemma X6_insert_adds_one_witness :
  (insertVessel two_boats "Gamma,30,slip,7,100.00").2 = None /\
  (insertVessel two_boats "Gamma,30,slip,7,100.00").1 ≡ₚ Gamma :: two_boats /\
  length (insertVessel two_boats "Gamma,30,slip,7,100.00").1
    = S (length two_boats) /\
  sorted_by_name (insertVessel two_boats "Gamma,30,slip,7,100.00").1 /\
  locateVesselByName (insertVessel two_boats "Gamma,30,slip,7,100.00").1
                     (vesselName Gamma) <> -1.
Proof.
  apply (X6_insert_adds_one two_boats "Gamma,30,slip,7,100.00" Gamma).
  - simpl. lia.
  - vm_compute. reflexivity.
Defined.

(* ================================================================== *)
(** * Removing what was added *)
(* ================================================================== *)

Section InsertRemove.

Lemma vessel_le_both a b :
  vessel_le a b -> vessel_le b a ->
  strcasecmp (vesselName a) (vesselName b) = 0.
Proof.
  unfold vessel_le, compareVessels.
  rewrite (strcasecmp_swap (vesselName a) (vesselName b)). lia.
Qed.

(** A fleet in order whose names are distinct is determined by its
    vessels. *)
Lemma sorted_distinct_unique (l1 l2 : list Vessel) :
  distinct_names l2 -> sorted_by_name l1 -> sorted_by_name l2 ->
  l1 ≡ₚ l2 -> l1 = l2.
Proof.
  intros Hd H1 H2 Hp.
  apply sorted_by_name_iff in H1. apply sorted_by_name_iff in H2.
  apply (StronglySorted_unique_strong vessel_le); try assumption.
  intros x1 x2 Hx1 Hx2 Hle Hge.
  rewrite Hp in Hx1.
  apply list_elem_of_lookup in Hx1 as [i Hi].
  apply list_elem_of_lookup in Hx2 as [j Hj].
  pose proof (Hd i j x1 x2 Hi Hj (vessel_le_both _ _ Hle Hge)) as ->.
  congruence.
Qed.

End InsertRemove.

(** X7. Removing a vessel right after it was added gives the fleet back.
    If the fleet is in order with names that differ up to case, holds no
    vessel with the name of the new one, and has room, then
    [insertVessel] followed by [removeVessel] with that name (in any
    case) returns exactly the fleet there was. *)
Theorem X7_remove_undoes_insert (fleet : list Vessel) (csvLine : string)
    (v : Vessel) (stdin targetName stdin' : string) :
  sorted_by_name fleet -> distinct_names fleet ->
  (length fleet < 120)%nat ->
  readRecord strcasecmp (strncpy csvLine 255) = inr v ->
  Forall (fun w => ~ matches (vesselName v) w) fleet ->
  read_line MAX_VESSEL_NAME_LEN stdin = Some (targetName, stdin') ->
  matches targetName v ->
  removeVessel stdin (insertVessel fleet csvLine).1 = (fleet, stdin', None).
Proof.
  intros Hsorted Hdistinct Hroom Hread Hfresh Hname Htarget.
  rewrite (insertVessel_accepts _ _ _ Hroom Hread). simpl.
  pose proof (qsort_snoc fleet v) as Hperm.
  pose proof (qsort_sorted (fleet ++ [v])) as Hs'.
  set (fleet' := qsort (fleet ++ [v])) in *.
  (* the vessels of the new fleet that match the target are [v] alone *)
  assert (forall w, w ∈ fleet' -> matches targetName w -> w = v) as Honly.
  { intros w Hw Hmw. rewrite Hperm in Hw.
    apply elem_of_cons in Hw as [->|Hw]; [reflexivity|exfalso].
    rewrite Forall_forall in Hfresh. apply (Hfresh w Hw).
    unfold matches in *. apply strcasecmp_zero.
    apply strcasecmp_zero in Hmw, Htarget. congruence. }
  destruct (locateVesselByName_spec fleet' targetName)
    as [[_ Hnone]|(k & w & _ & Hk & Hmw & Hfirst)].
  - exfalso. rewrite Hperm in Hnone. inversion Hnone; subst. contradiction.
  - assert (w = v) as -> by (apply Honly; [eapply list_elem_of_lookup_2|]; eauto).
    rewrite (removeVessel_hit _ _ _ _ _ _ Hname Hk Hmw Hfirst).
    f_equal. f_equal.
    apply sorted_distinct_unique; try assumption.
    + now apply sorted_by_name_delete.
    + apply (Permutation_cons_inv (a := v)).
      rewrite <- Hperm. symmetry. now apply delete_Permutation.
Qed.

Lemma X7_remove_undoes_insert_witness :
  removeVessel (ln "GAMMA") (insertVessel two_boats "Gamma,30,slip,7,100.00").1
    = (two_boats, EmptyString, None).
Proof.
  apply (X7_remove_undoes_insert two_boats "Gamma,30,slip,7,100.00" Gamma
           (ln "GAMMA") "GAMMA" EmptyString).
  - repeat constructor; vm_compute; discriminate.
  - intros i j v w Hi Hj H.
    destruct i as [|[|i]], j as [|[|j]]; try reflexivity;
      simpl in Hi, Hj; try discriminate;
      injection Hi as <-; injection Hj as <-; vm_compute in H; discriminate.
  - simpl. lia.
  - vm_compute. reflexivity.
  - repeat constructor; vm_compute; discriminate.
  - vm_compute. reflexivity.
  - vm_compute. reflexivity.
Defined.

(* ================================================================== *)
(** * Payments *)
(* ================================================================== *)

Section Payment.

Lemma with_fees_same v : with_fees v (outstandingFees v) = v.
Proof. now destruct v. Qed.

Lemma recordPayment_message stdin fleet :
  (recordPayment stdin fleet).2 <> None ->
  (recordPayment stdin fleet).1.1 = fleet.
Proof.
  unfold recordPayment.
  destruct (read_line _ _) as [[inputName stdin']|]; [|reflexivity].
  cbv zeta. destruct (_ =? -1); [reflexivity|].
  destruct (fgets 50 stdin') as [[buf stdin'']|]; [|reflexivity].
  destruct (fleet !! _) as [v|]; [|reflexivity].
  destruct (F32.geb _ _); [reflexivity|]. simpl. congruence.
Qed.

End Payment.

(** X8. [recordPayment] changes at most one balance and nothing else:
    the fleet keeps its length, every vessel keeps its name, length,
    category and location data, and all balances but one stay as they
    are. Whenever it prints a message (no boat with that name, or more
    than the amount owed) the fleet is unchanged. *)
Theorem X8_payment_changes_one_balance (stdin : string)
    (fleet : list Vessel) :
  let fleet' := (recordPayment stdin fleet).1.1 in
  length fleet' = length fleet /\
  (exists k, forall i v,
     fleet !! i = Some v ->
     exists fees,
       fleet' !! i = Some (with_fees v fees) /\
       (i <> k -> fees = outstandingFees v)) /\
  ((recordPayment stdin fleet).2 <> None -> fleet' = fleet).
Proof.
  cbv zeta. split; [|split].
  - destruct (recordPayment_cases stdin fleet) as [->|(k & w & fees & _ & ->)];
      [reflexivity|apply length_insert].
  - destruct (recordPayment_cases stdin fleet) as [->|(k & w & fees & Hk & ->)].
    + exists 0%nat. intros i v Hv. exists (outstandingFees v).
      now rewrite with_fees_same.
    + exists k. intros i v Hv. destruct (decide (i = k)) as [->|Hik].
      * exists fees. split; [|congruence].
        rewrite list_lookup_insert_eq by (eapply lookup_lt_Some; eauto).
        congruence.
      * exists (outstandingFees v). rewrite with_fees_same.
        now rewrite list_lookup_insert_ne by congruence.
  - apply recordPayment_message.
Qed.

(** X9. A payment for a name that no vessel has: [recordPayment] reports
    that there is no boat with that name, leaves the fleet as it is and
    returns without reading an amount, so the line typed as the amount is
    still in the input when the menu reads the next choice. *)
Theorem X9_payment_for_unknown_name (stdin : string) (fleet : list Vessel)
    (inputName stdin' : string) :
  read_line MAX_VESSEL_NAME_LEN stdin = Some (inputName, stdin') ->
  Forall (fun v => ~ matches inputName v) fleet ->
  recordPayment stdin fleet = (fleet, stdin', Some NoBoatWithThatName).
Proof.
  intros Hname Hnone. unfold recordPayment. rewrite Hname. cbv zeta.
  destruct (locateVesselByName_spec fleet inputName)
    as [[-> _]|(k & v & _ & Hk & Hm & _)]; [reflexivity|exfalso].
  rewrite Forall_lookup in Hnone. exact (Hnone _ _ Hk Hm).
Qed.

Lemma X9_payment_for_unknown_name_witness :
  recordPayment (ln "Gamma" +:+ ln "50") two_boats
    = (two_boats, ln "50", Some NoBoatWithThatName).
Proof.
  apply (X9_payment_for_unknown_name (ln "Gamma" +:+ ln "50") two_boats
           "Gamma" (ln "50")).
  - vm_compute. reflexivity.
  - repeat constructor; vm_compute; discriminate.
Defined.

(* ================================================================== *)
(** * What [loadData] reads from a file *)
(* ================================================================== *)

Section LoadLines.

Lemma length_append s : forall t,
  String.length (s +:+ t) = (String.length s + String.length t)%nat.
Proof. induction s as [|c s IH]; intros t; simpl; [|rewrite IH]; reflexivity. Qed.

(** [fgets] reads a line with its newline when the buffer has room. *)
Lemma fgets_take_ln l : forall room rest,
  free_of 10 l -> (String.length l < room)%nat ->
  fgets_take room (ln l +:+ rest) = (ln l, rest).
Proof.
  induction l as [|c l IH]; intros room rest Hfree Hlen.
  - destruct room; [simpl in Hlen; lia|]. reflexivity.
  - destruct room; [simpl in Hlen; lia|]. destruct Hfree as [Hc Hfree].
    change (ln (String c l) +:+ rest) with (String c (ln l +:+ rest)).
    cbn [fgets_take]. destruct (Z.eqb_spec (byte c) 10) as [E|_]; [contradiction|].
    rewrite IH by (simpl in Hlen; auto with lia). reflexivity.
Qed.

Lemma fgets_ln l rest :
  short_line l -> fgets 256 (ln l +:+ rest) = Some (ln l, rest).
Proof.
  intros [Hfree Hlen]. unfold fgets.
  destruct (ln l +:+ rest) eqn:E; [now destruct l|]. rewrite <- E.
  apply f_equal, fgets_take_ln; [assumption|]. simpl. lia.
Qed.

(** Cutting the buffer at the newline leaves the line, up to its first
    NUL. *)
Lemma terminate_ln l :
  free_of 10 l ->
  terminate_at (strcspn (ln l) (String newline EmptyString)) (ln l) = cstr l.
Proof.
  unfold terminate_at. induction l as [|c l IH]; intros Hfree; [reflexivity|].
  destruct Hfree as [Hc Hfree].
  change (ln (String c l)) with (String c (ln l)). cbn [strcspn cstr].
  destruct (Z.eqb_spec (byte c) 0) as [E|E]; [reflexivity|].
  cbn [orb].
  replace (in_set (byte c) (String newline EmptyString)) with false.
  2:{ cbn. change (byte "010") with 10.
      now destruct (Z.eqb_spec (byte c) 10). }
  cbn [orb string_take cstr]. destruct (Z.eqb_spec (byte c) 0); [contradiction|].
  now rewrite IH.
Qed.

Lemma strtok_r_of_cstr s delim : strtok_r (cstr s) delim = strtok_r s delim.
Proof. unfold strtok_r. now rewrite cstr_idem. Qed.

(** The reader sees a line up to its first NUL only. *)
Lemma readRecord_of_cstr cmp line :
  readRecord cmp (cstr line) = readRecord cmp line.
Proof. unfold readRecord, next_token. now rewrite strtok_r_of_cstr. Qed.

Lemma loadLoop_lines lines : forall fuel fleet,
  Forall short_line lines ->
  (String.length (file_of_lines lines) <= fuel)%nat ->
  (length fleet <= 120)%nat ->
  loadLoop fuel (file_of_lines lines) fleet
    = take 120 (fleet ++ accepted lines).
Proof.
  induction lines as [|l ls IH]; intros fuel fleet Hshort Hfuel Hlen.
  - simpl. rewrite app_nil_r, take_ge by lia. now destruct fuel.
  - apply Forall_cons in Hshort as [Hl Hls].
    cbn [file_of_lines] in *. rewrite length_append in Hfuel.
    destruct fuel as [|fuel]; [unfold ln in Hfuel; rewrite length_append in Hfuel;
                               simpl in Hfuel; lia|].
    cbn [loadLoop]. rewrite (fgets_ln _ _ Hl).
    destruct (decide (length fleet < MAX_VESSELS)%nat) as [Hroom|Hfull].
    + rewrite (terminate_ln _ (proj1 Hl)), readRecord_of_cstr.
      unfold MAX_VESSELS in Hroom. cbn [accepted].
      assert (String.length (file_of_lines ls) <= fuel)%nat as Hfuel'.
      { unfold ln in Hfuel. rewrite length_append in Hfuel. simpl in Hfuel. lia. }
      destruct (readRecord strcmp l) as [e|v].
      * now apply IH; [| |lia].
      * rewrite IH; [|assumption|assumption|rewrite length_app; simpl; lia].
        now rewrite <- app_assoc.
    + unfold MAX_VESSELS in Hfull. rewrite take_app_le by lia.
      now rewrite take_ge by lia.
Qed.

End LoadLines.

(** X10. What [loadData] makes of a file: when every line of the file
    ends with a newline and has at most 254 bytes before it, the fleet
    is the vessels of the first 120 lines that the reader accepts (lines
    it rejects are skipped and do not count), sorted by name; whatever
    the fleet held before is dropped. *)
Theorem X10_load_reads_accepted_lines (lines : list string)
    (fleet : list Vessel) :
  Forall short_line lines ->
  loadData (Some (file_of_lines lines)) fleet
    = qsort (take 120 (accepted lines)).
Proof.
  intros Hshort. unfold loadData.
  rewrite (loadLoop_lines lines _ [] Hshort); [reflexivity|lia|simpl; lia].
Qed.

Lemma X10_load_reads_accepted_lines_witness :
  loadData (Some (file_of_lines ["beta,10,land,B,0.00"; "no such record";
                                 "Alpha,20,slip,5,100.00"])) [Gamma]
    = qsort (take 120 (accepted ["beta,10,land,B,0.00"; "no such record";
                                 "Alpha,20,slip,5,100.00"])).
Proof.
  apply (X10_load_reads_accepted_lines
           ["beta,10,land,B,0.00"; "no such record"; "Alpha,20,slip,5,100.00"]
           [Gamma]).
  repeat constructor; try (vm_compute; discriminate); simpl; lia.
Defined.

(* ================================================================== *)
(** * Fields after the fifth *)
(* ================================================================== *)

Section ExtraFields.

Variable e : string.
Hypothesis e_cstr : cstr e = e.

Lemma cstr_cons_inv c r :
  cstr (String c r) = String c r -> (byte c =? 0) = false /\ cstr r = r.
Proof.
  cbn [cstr]. destruct (byte c =? 0); [discriminate|]. now intros [= ->].
Qed.

Lemma append_cons c s t : String c s +:+ t = String c (s +:+ t).
Proof. reflexivity. Qed.

Lemma cstr_app s : forall t, cstr s = s -> cstr t = t -> cstr (s +:+ t) = s +:+ t.
Proof.
  induction s as [|c s IH]; intros t Hs Ht; [exact Ht|].
  apply cstr_cons_inv in Hs as [Hc Hs]. rewrite ?append_cons; cbn [cstr].
  rewrite Hc. now rewrite IH.
Qed.

Lemma cstr_app_cases s : forall t,
  cstr (s +:+ t) = cstr s \/ (cstr s = s /\ cstr (s +:+ t) = s +:+ cstr t).
Proof.
  induction s as [|c s IH]; intros t; [now right|].
  rewrite ?append_cons; cbn [cstr]. destruct (byte c =? 0); [now left|].
  destruct (IH t) as [->|[Hs ->]]; [now left|right]. now rewrite Hs.
Qed.

Lemma sep_cstr : cstr (String comma e) = String comma e.
Proof. cbn [cstr]. now rewrite e_cstr. Qed.

Lemma skip_append s : forall t,
  string_drop (strspn s ",") s <> EmptyString ->
  string_drop (strspn (s +:+ t) ",") (s +:+ t)
    = string_drop (strspn s ",") s +:+ t.
Proof.
  induction s as [|c s IH]; intros t H; [now contradiction H|].
  rewrite ?append_cons in *; cbn [strspn] in *.
  destruct (in_set (byte c) ","); [|reflexivity].
  cbn [string_drop] in *. now apply IH.
Qed.

Lemma token_append s :
  cstr s = s ->
  string_take (strcspn (s +:+ String comma e) ",") (s +:+ String comma e)
    = string_take (strcspn s ",") s.
Proof.
  induction s as [|c s IH]; intros Hs; [reflexivity|].
  apply cstr_cons_inv in Hs as [Hc Hs]. rewrite ?append_cons; cbn [strcspn].
  destruct ((byte c =? 0) || in_set (byte c) ","); [reflexivity|].
  cbn [string_take]. now rewrite IH.
Qed.

Lemma rest_append s :
  cstr s = s ->
  string_drop (S (strcspn s ",")) s <> EmptyString ->
  string_drop (S (strcspn (s +:+ String comma e) ",")) (s +:+ String comma e)
    = string_drop (S (strcspn s ",")) s +:+ String comma e.
Proof.
  induction s as [|c s IH]; intros Hs H; [now contradiction H|].
  apply cstr_cons_inv in Hs as [Hc Hs]. revert H.
  rewrite ?append_cons; cbn [strcspn].
  destruct ((byte c =? 0) || in_set (byte c) ","); [reflexivity|].
  intros H. now apply IH.
Qed.

(** A token followed by more fields is found again, with the appended
    fields after what followed it. *)
Lemma strtok_r_append s token rest :
  cstr s = s ->
  strtok_r s "," = Some (token, rest) -> rest <> EmptyString ->
  strtok_r (s +:+ String comma e) ","
    = Some (token, rest +:+ String comma e).
Proof.
  intros Hs. unfold strtok_r.
  rewrite (cstr_app _ _ Hs sep_cstr), Hs.
  pose proof (cstr_drop (strspn s ",") s Hs) as Hd.
  destruct (string_drop (strspn s ",") s) as [|a s1] eqn:E; [discriminate|].
  intros [= <- <-] Hrest.
  rewrite skip_append by (rewrite E; discriminate). rewrite E.
  change (String a s1 +:+ String comma e)
    with (String a (s1 +:+ String comma e)).
  cbv iota. 
  change (String a (s1 +:+ String comma e))
    with (String a s1 +:+ String comma e).
  now rewrite (token_append _ Hd), (rest_append _ Hd Hrest).
Qed.

(** The last token is found again. *)
Lemma strtok_r_append_last s token rest :
  cstr s = s ->
  strtok_r s "," = Some (token, rest) ->
  exists rest', strtok_r (s +:+ String comma e) "," = Some (token, rest').
Proof.
  intros Hs. unfold strtok_r.
  rewrite (cstr_app _ _ Hs sep_cstr), Hs.
  pose proof (cstr_drop (strspn s ",") s Hs) as Hd.
  destruct (string_drop (strspn s ",") s) as [|a s1] eqn:E; [discriminate|].
  intros [= <- <-].
  rewrite skip_append by (rewrite E; discriminate). rewrite E.
  change (String a s1 +:+ String comma e)
    with (String a (s1 +:+ String comma e)).
  cbv iota.
  change (String a (s1 +:+ String comma e))
    with (String a s1 +:+ String comma e).
  rewrite (token_append _ Hd). eauto.
Qed.

Lemma readLocation_append cmp token rest cat info rest' :
  cstr rest = rest ->
  readLocation cmp token rest = inr (cat, info, rest') ->
  rest' <> EmptyString ->
  readLocation cmp token (rest +:+ String comma e)
    = inr (cat, info, rest' +:+ String comma e).
Proof.
  intros Hrest. unfold readLocation, next_token. intros Hloc Hne.
  destruct (strtok_r rest ",") as [[t r]|] eqn:E.
  2:{ revert Hloc. repeat (destruct (_ =? 0); [discriminate|]). discriminate. }
  assert (r = rest') as ->.
  { revert Hloc.
    repeat match goal with
           | |- context [if ?b then _ else _] => destruct b
           end; intros H; inversion H; reflexivity. }
  rewrite (strtok_r_append _ _ _ Hrest E Hne). revert Hloc.
  repeat match goal with
         | |- context [if ?b then _ else _] => destruct b
         end; intros H; inversion H; reflexivity.
Qed.

Lemma strtok_r_nonempty s delim : strtok_r s delim <> None -> s <> EmptyString.
Proof. intros H ->. now apply H. Qed.

Lemma readRecord_append cmp s v :
  cstr s = s ->
  readRecord cmp s = inr v ->
  readRecord cmp (s +:+ String comma e) = inr v.
Proof.
  intros Hs H. pose proof (readRecord_inr _ _ _ H)
    as (name & rest1 & len & rest2 & cat & rest3 & rest4 & fees & rest5
        & H1 & H2 & H3 & Hloc & H5 & Hname & Hlen & Hfees).
  assert (rest3 <> EmptyString) as N3.
  { intros ->. revert Hloc. unfold readLocation, next_token.
    change (strtok_r EmptyString ",") with (@None (string * string)).
    repeat (destruct (_ =? 0); [discriminate|]). discriminate. }
  pose proof (strtok_r_cstr _ _ _ _ H1) as [_ C1].
  pose proof (strtok_r_cstr _ _ _ _ H2) as [_ C2].
  pose proof (strtok_r_cstr _ _ _ _ H3) as [_ C3].
  assert (cstr rest4 = rest4) as C4.
  { revert Hloc. unfold readLocation, next_token.
    destruct (strtok_r rest3 ",") as [[t r]|] eqn:E.
    2:{ repeat (destruct (_ =? 0); [discriminate|]). discriminate. }
    pose proof (strtok_r_cstr _ _ _ _ E) as [_ Cr].
    repeat match goal with
           | |- context [if ?b then _ else _] => destruct b
           end; intros Hx; inversion Hx; congruence. }
  destruct (strtok_r_append_last _ _ _ C4 H5) as [rest5' H5'].
  unfold readRecord, next_token.
  rewrite (strtok_r_append _ _ _ Hs H1)
    by (apply (strtok_r_nonempty _ ","); congruence).
  rewrite (strtok_r_append _ _ _ C1 H2)
    by (apply (strtok_r_nonempty _ ","); congruence).
  rewrite (strtok_r_append _ _ _ C2 H3) by exact N3.
  rewrite (readLocation_append _ _ _ _ _ _ C3 Hloc)
    by (apply (strtok_r_nonempty _ ","); congruence).
  rewrite H5'. destruct v; simpl in *. congruence.
Qed.

End ExtraFields.

(** X11. Fields after the fifth are ignored: a line that the reader
    accepts is read as the same vessel when a comma and anything else is
    appended to it. This holds for the reader of [loadData] and for the
    one of [insertVessel]. *)
Theorem X11_extra_fields_are_ignored (cmp : string -> string -> Z)
    (line extra : string) (v : Vessel) :
  readRecord cmp line = inr v ->
  readRecord cmp (line +:+ "," +:+ extra) = inr v.
Proof.
  intros H. rewrite <- readRecord_of_cstr.
  destruct (cstr_app_cases line ("," +:+ extra)) as [->|[Hl ->]].
  - now rewrite readRecord_of_cstr.
  - change (cstr ("," +:+ extra)) with (String comma (cstr extra)).
    apply readRecord_append; [apply cstr_idem|assumption|assumption].
Qed.

Lemma X11_extra_fields_are_ignored_witness :
  readRecord strcmp ("Alpha,20,slip,5,100.00" +:+ "," +:+ "paid in full, twice")
    = inr Alpha.
Proof.
  apply (X11_extra_fields_are_ignored strcmp "Alpha,20,slip,5,100.00"
           "paid in full, twice" Alpha).
  vm_compute. reflexivity.
Defined.

(* ================================================================== *)
(** * The menu loop and [main] *)
(* ================================================================== *)

Section Menu.

(** Every choice of the menu leaves the fleet as it is or executes one
    command on it. *)
Lemma dispatch_fleet c stdin fleet out :
  (dispatch c stdin fleet out).1.1 = fleet \/
  exists cmd, (dispatch c stdin fleet out).1.1 = execute fleet cmd.
Proof.
  unfold dispatch.
  destruct (c =? 73); [now left|].
  destruct (c =? 65).
  { destruct (fgets 256 stdin) as [[inputBuffer stdin']|]; [|now left].
    cbv zeta. destruct (insertVessel fleet _) as [fleet' m] eqn:E.
    right. eexists (Add _). simpl. now rewrite E. }
  destruct (c =? 82).
  { destruct (removeVessel stdin fleet) as [[fleet' stdin'] m] eqn:E.
    right. exists (Remove stdin). simpl. now rewrite E. }
  destruct (c =? 80).
  { destruct (recordPayment stdin fleet) as [[fleet' stdin'] m] eqn:E.
    right. exists (Payment stdin). simpl. now rewrite E. }
  destruct (c =? 77); [right; now exists Month|].
  destruct (c =? 88); now left.
Qed.

Lemma menuLoop_session fuel : forall userChoice stdin fleet out fleet' stdin' out',
  menuLoop fuel userChoice stdin fleet out = Exits fleet' stdin' out' ->
  exists cs, fleet' = session fleet cs.
Proof.
  induction fuel as [|fuel IH]; intros uc stdin fleet out fleet' stdin' out';
    [discriminate|].
  cbn [menuLoop]. destruct (fgets 256 stdin) as [[inputBuffer stdin1]|].
  - cbv zeta.
    pose proof (dispatch_fleet (toupper (head_byte inputBuffer)) stdin1 fleet out)
      as Hd.
    destruct (dispatch _ stdin1 fleet out) as [[fleet1 stdin2] out1].
    simpl in Hd. destruct (_ =? 88).
    + intros [= <- _ _]. destruct Hd as [->|[cmd ->]];
        [now exists []|now exists [cmd]].
    + intros H. apply IH in H as [cs ->].
      destruct Hd as [->|[cmd ->]]; [now exists cs|now exists (cmd :: cs)].
  - destruct uc as [c|]; [|discriminate].
    destruct (c =? 88); [|discriminate]. intros [= <- _ _]. now exists [].
Qed.

(** ** The input only gets shorter *)

Lemma fgets_not_longer size fp buf fp' :
  fgets size fp = Some (buf, fp') ->
  (String.length fp' <= String.length fp)%nat.
Proof.
  unfold fgets. destruct fp as [|c r]; [discriminate|].
  intros [= E]. pose proof (fgets_take_split (size - 1) (String c r)) as H.
  rewrite E in H. simpl in H. simpl. lia.
Qed.

Lemma read_line_not_longer size fp line fp' :
  read_line size fp = Some (line, fp') ->
  (String.length fp' <= String.length fp)%nat.
Proof.
  unfold read_line. destruct (fgets size fp) as [[buf fp1]|] eqn:E;
    [|discriminate].
  intros [= _ <-]. exact (fgets_not_longer _ _ _ _ E).
Qed.

Lemma removeVessel_stdin stdin fleet :
  (String.length (removeVessel stdin fleet).1.2 <= String.length stdin)%nat.
Proof.
  unfold removeVessel.
  destruct (read_line _ stdin) as [[targetName stdin']|] eqn:E; [|simpl; lia].
  apply read_line_not_longer in E. cbv zeta. now destruct (_ =? -1).
Qed.

Lemma recordPayment_stdin stdin fleet :
  (String.length (recordPayment stdin fleet).1.2 <= String.length stdin)%nat.
Proof.
  unfold recordPayment.
  destruct (read_line _ stdin) as [[inputName stdin']|] eqn:E; [|simpl; lia].
  apply read_line_not_longer in E. cbv zeta.
  destruct (_ =? -1); [assumption|].
  destruct (fgets 50 stdin') as [[buf stdin'']|] eqn:E2; [|assumption].
  apply fgets_not_longer in E2.
  destruct (fleet !! _); [|assumption].
  destruct (F32.geb _ _); simpl; lia.
Qed.

Lemma dispatch_stdin c stdin fleet out :
  (String.length (dispatch c stdin fleet out).1.2 <= String.length stdin)%nat.
Proof.
  unfold dispatch.
  destruct (c =? 73); [simpl; lia|].
  destruct (c =? 65).
  { destruct (fgets 256 stdin) as [[inputBuffer stdin']|] eqn:E; [|simpl; lia].
    apply fgets_not_longer in E. cbv zeta.
    now destruct (insertVessel fleet _). }
  destruct (c =? 82).
  { pose proof (removeVessel_stdin stdin fleet).
    now destruct (removeVessel stdin fleet) as [[? ?] ?]. }
  destruct (c =? 80).
  { pose proof (recordPayment_stdin stdin fleet).
    now destruct (recordPayment stdin fleet) as [[? ?] ?]. }
  destruct (c =? 77); [simpl; lia|].
  destruct (c =? 88); simpl; lia.
Qed.

(** Fuel beyond the length of the input changes nothing, and the loop
    reads an unset choice only at its first iteration. *)
Lemma menuLoop_fuel fuel : forall fuel' userChoice stdin fleet out,
  (String.length stdin < fuel)%nat -> (String.length stdin < fuel')%nat ->
  menuLoop fuel userChoice stdin fleet out
    = menuLoop fuel' userChoice stdin fleet out /\
  menuLoop fuel userChoice stdin fleet out <> OutOfFuel /\
  (menuLoop fuel userChoice stdin fleet out = Unspecified ->
   userChoice = None /\ stdin = EmptyString).
Proof.
  induction fuel as [|fuel IH]; intros fuel' uc stdin fleet out H H'; [lia|].
  destruct fuel' as [|fuel']; [lia|]. cbn [menuLoop].
  destruct (fgets 256 stdin) as [[inputBuffer stdin1]|] eqn:E.
  - apply fgets_shorter in E. cbv zeta.
    pose proof (dispatch_stdin (toupper (head_byte inputBuffer)) stdin1 fleet out)
      as Hd.
    destruct (dispatch _ stdin1 fleet out) as [[fleet1 stdin2] out1].
    simpl in Hd. destruct (_ =? 88); [repeat split; (reflexivity || discriminate)|].
    destruct (IH fuel' (Some (toupper (head_byte inputBuffer))) stdin2 fleet1 out1)
      as (Heq & Hne & Hun); [lia|lia|].
    split; [assumption|]. split; [assumption|].
    intros Hu. now destruct (Hun Hu).
  - destruct uc as [c|].
    + destruct (c =? 88); repeat split; (reflexivity || discriminate).
    + repeat split; try discriminate. now destruct stdin.
Qed.

End Menu.

(** The first byte of the buffer is the first byte of the input. *)
Lemma fgets_head size c r :
  (2 <= size)%nat ->
  exists buf rest,
    fgets size (String c r) = Some (buf, rest) /\ head_byte buf = byte c.
Proof.
  intros Hsize. unfold fgets.
  destruct (size - 1)%nat as [|room] eqn:E; [lia|]. cbn [fgets_take].
  destruct (byte c =? 10); [eauto|].
  destruct (fgets_take room r) as [l rest]. eauto.
Qed.

(** X12. When [main] returns and what it leaves in the file. Called
    with any number of arguments but one it returns 1 and touches
    nothing. Called with one argument and an input whose first byte is
    [x] or [X] it returns 0 and the file holds the fleet [loadData]
    read, as [saveData] writes it. In general it returns 0 only after
    [saveData]; the fleet it saves is the one [loadData] read, after a
    sequence of commands of the menu, so it is in the order of names
    and holds at most 120 vessels. When the file cannot be opened for
    writing it is left as it was. *)
Theorem X12_main_saves_a_session (fuel : nat) (argc : Z)
    (file : option string) (writable : bool) (stdin : string) :
  (argc <> 2 -> main fuel argc file writable stdin = Returns 1 file) /\
  (forall c r,
     argc = 2 -> stdin = String c r -> toupper (byte c) = 88 ->
     (1 <= fuel)%nat ->
     main fuel argc file writable stdin
       = Returns 0 (if writable then Some (saveData (loadData file []))
                    else file)) /\
  (forall code file',
     main fuel argc file writable stdin = Returns code file' ->
     (argc <> 2 /\ code = 1 /\ file' = file) \/
     (argc = 2 /\ code = 0 /\
      exists cs,
        let fleet := session (loadData file []) cs in
        file' = (if writable then Some (saveData fleet) else file) /\
        sorted_by_name fleet /\ (length fleet <= 120)%nat)).
Proof.
  split; [|split].
  - intros Hargc. unfold main.
    destruct (Z.eqb_spec argc 2); [contradiction|reflexivity].
  - intros c r -> -> Hc Hfuel. unfold main. simpl negb. cbv iota.
    destruct fuel as [|fuel]; [lia|]. cbn [menuLoop].
    destruct (fgets_head 256 c r ltac:(lia)) as (buf & rest & -> & ->).
    rewrite Hc. reflexivity.
  - intros code file'. unfold main.
    destruct (Z.eqb_spec argc 2) as [->|Hargc]; simpl.
    2:{ intros [= <- <-]. now left. }
    destruct (menuLoop fuel None stdin (loadData file []) [])
      as [fleet' s o| | |] eqn:E; try discriminate.
    intros [= <- <-]. right. repeat split.
    apply menuLoop_session in E as [cs ->]. exists cs. cbv zeta.
    split; [reflexivity|]. split.
    + apply session_sorted, loadData_sorted.
    + apply session_length, loadData_length.
Qed.

(** A vessel is added to a file of one vessel, and the session ends. *)
Lemma X12_main_saves_a_session_witness :
  main 10 2 (Some (ln "beta,10,land,B,0.00")) true
       (ln "a" +:+ ln "Alpha,20,slip,5,100.00" +:+ ln "x")
    = Returns 0 (Some (ln "Alpha,20,slip,5,100.00" +:+ ln "beta,10,land,B,0.00"))
  /\
  ((2 <> 2 /\ 0 = 1 /\
    Some (ln "Alpha,20,slip,5,100.00" +:+ ln "beta,10,land,B,0.00")
      = Some (ln "beta,10,land,B,0.00")) \/
   (2 = 2 /\ 0 = 0 /\
    exists cs,
      let fleet := session (loadData (Some (ln "beta,10,land,B,0.00")) []) cs in
      Some (ln "Alpha,20,slip,5,100.00" +:+ ln "beta,10,land,B,0.00")
        = (if true then Some (saveData fleet)
           else Some (ln "beta,10,land,B,0.00")) /\
      sorted_by_name fleet /\ (length fleet <= 120)%nat))
  /\
  main 10 2 (Some (ln "beta,10,land,B,0.00" +:+ ln "Alpha,20,slip,5,100.00"))
       true (ln "X")
    = Returns 0 (Some (saveData (loadData
        (Some (ln "beta,10,land,B,0.00" +:+ ln "Alpha,20,slip,5,100.00")) [])))
  /\
  main 10 1 (Some (ln "beta,10,land,B,0.00")) true (ln "x")
    = Returns 1 (Some (ln "beta,10,land,B,0.00")).
Proof.
  split; [vm_compute; reflexivity|]. split; [|split].
  - apply (proj2 (proj2 (X12_main_saves_a_session 10 2
             (Some (ln "beta,10,land,B,0.00")) true
             (ln "a" +:+ ln "Alpha,20,slip,5,100.00" +:+ ln "x")))).
    vm_compute. reflexivity.
  - apply (proj1 (proj2 (X12_main_saves_a_session 10 2
             (Some (ln "beta,10,land,B,0.00" +:+ ln "Alpha,20,slip,5,100.00"))
             true (ln "X"))) "X"%char (String newline EmptyString));
      try reflexivity. lia.
  - apply (proj1 (X12_main_saves_a_session 10 1
             (Some (ln "beta,10,land,B,0.00")) true (ln "x"))). lia.
Defined.

(** X13. A run of [main] is settled by its input: with more fuel than
    the input has bytes, the model never runs out of fuel and its result
    does not depend on the fuel. The program reads its variable
    [userChoice] before setting it in one case only: it is called with
    one argument and the input is empty. *)
Theorem X13_run_is_settled (fuel : nat) (argc : Z) (file : option string)
    (writable : bool) (stdin : string) :
  (String.length stdin < fuel)%nat ->
  main fuel argc file writable stdin <> NoReturn OutOfFuel /\
  (forall fuel', (String.length stdin < fuel')%nat ->
     main fuel' argc file writable stdin = main fuel argc file writable stdin) /\
  (main fuel argc file writable stdin = NoReturn Unspecified <->
   argc = 2 /\ stdin = EmptyString).
Proof.
  intros Hfuel. unfold main.
  destruct (Z.eqb_spec argc 2) as [->|Hargc]; simpl.
  2:{ repeat split; try discriminate; tauto. }
  split; [|split].
  - destruct (menuLoop_fuel fuel fuel None stdin (loadData file []) [] Hfuel Hfuel)
      as (_ & Hne & _).
    destruct (menuLoop fuel None stdin _ _); congruence.
  - intros fuel' Hfuel'.
    destruct (menuLoop_fuel fuel fuel' None stdin (loadData file []) [] Hfuel Hfuel')
      as (-> & _ & _). reflexivity.
  - split.
    + destruct (menuLoop_fuel fuel fuel None stdin (loadData file []) [] Hfuel Hfuel)
        as (_ & _ & Hun).
      destruct (menuLoop fuel None stdin _ _); try discriminate.
      intros _. split; [reflexivity|]. now destruct Hun.
    + intros [_ ->]. destruct fuel; [simpl in Hfuel; lia|reflexivity].
Qed.

Lemma X13_run_is_settled_witness :
  main 5 2 None true (ln "i" +:+ ln "x") <> NoReturn OutOfFuel /\
  (forall fuel', (String.length (ln "i" +:+ ln "x") < fuel')%nat ->
     main fuel' 2 None true (ln "i" +:+ ln "x")
       = main 5 2 None true (ln "i" +:+ ln "x")) /\
  (main 5 2 None true (ln "i" +:+ ln "x") = NoReturn Unspecified <->
   2 = 2 /\ ln "i" +:+ ln "x" = EmptyString).
Proof.
  apply (X13_run_is_settled 5 2 None true (ln "i" +:+ ln "x")). simpl. lia.
Defined.

(* ================================================================== *)
(** * Reading back what was written *)
(* ================================================================== *)

Section Fields.

Lemma free_of_app b s : forall t,
  free_of b s -> free_of b t -> free_of b (s +:+ t).
Proof.
  induction s as [|c s IH]; intros t Hs Ht; [exact Ht|].
  destruct Hs as [Hc Hs]. rewrite append_cons. split; [exact Hc|now apply IH].
Qed.

Lemma plain_app s t : plain s -> plain t -> plain (s +:+ t).
Proof.
  intros (? & ? & ?) (? & ? & ?). repeat split; now apply free_of_app.
Qed.

Lemma field_app s t : field s -> plain t -> field (s +:+ t).
Proof.
  intros [Hne Hs] Ht. split; [|now apply plain_app].
  destruct s; [contradiction|discriminate].
Qed.

Lemma plain_cstr s : plain s -> cstr s = s.
Proof.
  intros [H _]. induction s as [|c s IH]; [reflexivity|].
  destruct H as [Hc H]. cbn [cstr].
  destruct (Z.eqb_spec (byte c) 0); [contradiction|]. now rewrite IH.
Qed.

(** ** What the conversions of [printf] write *)

Lemma digits_plain d : plain (DecimalString.NilEmpty.string_of_uint d).
Proof.
  induction d as [|d IH|d IH|d IH|d IH|d IH|d IH|d IH|d IH|d IH|d IH];
    [repeat split|..];
    destruct IH as (? & ? & ?); repeat split; (discriminate || assumption).
Qed.

Lemma fmt_nat_field n : field (fmt_nat n).
Proof.
  unfold fmt_nat, DecimalString.NilZero.string_of_uint.
  pose proof (digits_plain (N.to_uint (Z.to_N n))) as H.
  destruct (N.to_uint (Z.to_N n));
    (split; [discriminate|]); try exact H.
  repeat split; discriminate.
Qed.

Lemma minus_plain : plain "-".
Proof. repeat split; discriminate. Qed.

Lemma fmt_d_field n : field (fmt_d n).
Proof.
  unfold fmt_d. destruct (n <? 0); [|apply fmt_nat_field].
  split; [discriminate|]. apply plain_app; [apply minus_plain|].
  apply fmt_nat_field.
Qed.

Lemma zero_pad_plain width : forall s, plain s -> plain (zero_pad width s).
Proof.
  induction width as [|w IH]; intros s Hs; simpl.
  - now destruct (0 - String.length s)%nat.
  - destruct (S w - String.length s)%nat; [assumption|].
    apply (plain_app "0"); [repeat split; discriminate|now apply IH].
Qed.

Lemma fixed_field digits n : field (fixed digits n).
Proof.
  unfold fixed. destruct digits; [apply fmt_nat_field|].
  apply field_app; [apply fmt_nat_field|].
  apply (plain_app "."); [repeat split; discriminate|].
  apply zero_pad_plain, fmt_nat_field.
Qed.

Lemma signed_field (s : bool) t :
  field t -> field ((if s then "-" else "") +:+ t).
Proof.
  intros H. destruct s; [|exact H].
  apply field_app; [split; [discriminate|apply minus_plain]|apply H].
Qed.

Lemma fmt_f_field digits x : field (fmt_f digits x).
Proof.
  destruct x as [s|s| |s m e]; unfold fmt_f.
  - apply signed_field, fixed_field.
  - apply signed_field. split; [discriminate|repeat split; discriminate].
  - split; [discriminate|repeat split; discriminate].
  - apply signed_field, fixed_field.
Qed.

(** ** Tokens *)

Lemma in_set_comma c : in_set (byte c) "," = (byte c =? 44).
Proof. cbn. now rewrite orb_false_r. Qed.

Lemma string_drop_cons n c r :
  string_drop (S n) (String c r) = string_drop n r.
Proof. reflexivity. Qed.

Lemma token_split tok : forall rest,
  free_of 0 tok -> free_of 44 tok ->
  string_take (strcspn (tok +:+ String comma rest) ",")
              (tok +:+ String comma rest) = tok /\
  string_drop (S (strcspn (tok +:+ String comma rest) ","))
              (tok +:+ String comma rest) = rest.
Proof.
  induction tok as [|c tok IH]; intros rest H0 H44; [now split|].
  destruct H0 as [Hc0 H0], H44 as [Hc44 H44]. rewrite append_cons.
  cbn [strcspn]. rewrite in_set_comma.
  destruct (Z.eqb_spec (byte c) 0); [contradiction|].
  destruct (Z.eqb_spec (byte c) 44); [contradiction|].
  cbn [orb string_take]. rewrite string_drop_cons.
  destruct (IH rest H0 H44) as [E1 E2]. now rewrite E1, E2.
Qed.

Lemma token_alone tok :
  free_of 0 tok -> free_of 44 tok ->
  string_take (strcspn tok ",") tok = tok /\
  string_drop (S (strcspn tok ",")) tok = EmptyString.
Proof.
  induction tok as [|c tok IH]; intros H0 H44; [now split|].
  destruct H0 as [Hc0 H0], H44 as [Hc44 H44].
  cbn [strcspn]. rewrite in_set_comma.
  destruct (Z.eqb_spec (byte c) 0); [contradiction|].
  destruct (Z.eqb_spec (byte c) 44); [contradiction|].
  cbn [orb string_take]. rewrite string_drop_cons.
  destruct (IH H0 H44) as [E1 E2]. now rewrite E1, E2.
Qed.

(** A field followed by a comma is the next token. *)
Lemma strtok_r_field tok rest :
  field tok -> cstr rest = rest ->
  strtok_r (tok +:+ String comma rest) "," = Some (tok, rest).
Proof.
  intros [Hne Hp] Hrest. pose proof (plain_cstr _ Hp) as Htok.
  destruct Hp as (H0 & _ & H44). unfold strtok_r.
  rewrite (cstr_app tok (String comma rest) Htok)
    by (cbn [cstr]; now rewrite Hrest).
  destruct tok as [|c tok]; [contradiction|].
  rewrite append_cons. cbn [strspn]. rewrite in_set_comma.
  destruct H44 as [Hc44 H44'].
  destruct (Z.eqb_spec (byte c) 44); [contradiction|]. cbn [string_drop].
  rewrite <- append_cons.
  destruct (token_split (String c tok) rest H0 (conj Hc44 H44')) as [E1 E2].
  rewrite E1. do 2 f_equal. exact E2.
Qed.

(** A field at the end of the line is the last token. *)
Lemma strtok_r_last tok :
  field tok -> strtok_r tok "," = Some (tok, EmptyString).
Proof.
  intros [Hne Hp]. pose proof (plain_cstr _ Hp) as Htok.
  destruct Hp as (H0 & _ & H44). unfold strtok_r. rewrite Htok.
  destruct tok as [|c tok]; [contradiction|].
  cbn [strspn]. rewrite in_set_comma.
  destruct H44 as [Hc44 H44'].
  destruct (Z.eqb_spec (byte c) 44); [contradiction|]. cbn [string_drop].
  destruct (token_alone (String c tok) H0 (conj Hc44 H44')) as [E1 E2].
  rewrite E1. do 2 f_equal. exact E2.
Qed.

End Fields.

Section Numbers.

Lemma read_digits_digit c k acc s :
  byte c = 48 + k -> 0 <= k <= 9 ->
  (read_digits acc (String c s)).1.1 = (read_digits (acc * 10 + k) s).1.1.
Proof.
  intros Hc Hk. cbn [read_digits]. unfold isdigit.
  replace ((48 <=? byte c) && (byte c <=? 57)) with true
    by (symmetry; apply andb_true_intro; split; lia).
  replace (byte c - 48) with k by lia.
  now destruct (read_digits (acc * 10 + k) s) as [[v n] r].
Qed.

Lemma read_digits_acc d : forall acc,
  (read_digits (Zpos acc) (DecimalString.NilEmpty.string_of_uint d)).1.1
    = Zpos (Pos.of_uint_acc d acc).
Proof.
  induction d as [|d IH|d IH|d IH|d IH|d IH|d IH|d IH|d IH|d IH|d IH];
    intros acc; [reflexivity|..];
    cbn [DecimalString.NilEmpty.string_of_uint Pos.of_uint_acc];
    [ rewrite (read_digits_digit _ 0) by (reflexivity || lia)
    | rewrite (read_digits_digit _ 1) by (reflexivity || lia)
    | rewrite (read_digits_digit _ 2) by (reflexivity || lia)
    | rewrite (read_digits_digit _ 3) by (reflexivity || lia)
    | rewrite (read_digits_digit _ 4) by (reflexivity || lia)
    | rewrite (read_digits_digit _ 5) by (reflexivity || lia)
    | rewrite (read_digits_digit _ 6) by (reflexivity || lia)
    | rewrite (read_digits_digit _ 7) by (reflexivity || lia)
    | rewrite (read_digits_digit _ 8) by (reflexivity || lia)
    | rewrite (read_digits_digit _ 9) by (reflexivity || lia) ];
    rewrite <- IH; do 3 f_equal; lia.
Qed.

Lemma read_digits_uint d :
  (read_digits 0 (DecimalString.NilEmpty.string_of_uint d)).1.1
    = Z.of_N (Pos.of_uint d).
Proof.
  induction d as [|d IH|d IH|d IH|d IH|d IH|d IH|d IH|d IH|d IH|d IH];
    [reflexivity|..];
    cbn [DecimalString.NilEmpty.string_of_uint Pos.of_uint];
    [ rewrite (read_digits_digit _ 0) by (reflexivity || lia); exact IH
    | rewrite (read_digits_digit _ 1) by (reflexivity || lia)
    | rewrite (read_digits_digit _ 2) by (reflexivity || lia)
    | rewrite (read_digits_digit _ 3) by (reflexivity || lia)
    | rewrite (read_digits_digit _ 4) by (reflexivity || lia)
    | rewrite (read_digits_digit _ 5) by (reflexivity || lia)
    | rewrite (read_digits_digit _ 6) by (reflexivity || lia)
    | rewrite (read_digits_digit _ 7) by (reflexivity || lia)
    | rewrite (read_digits_digit _ 8) by (reflexivity || lia)
    | rewrite (read_digits_digit _ 9) by (reflexivity || lia) ];
    apply read_digits_acc.
Qed.

(** Reading the decimal digits of a number gives the number. *)
Lemma read_digits_fmt_nat n :
  0 <= n -> (read_digits 0 (fmt_nat n)).1.1 = n.
Proof.
  intros Hn. unfold fmt_nat, DecimalString.NilZero.string_of_uint.
  pose proof (DecimalN.Unsigned.of_to (Z.to_N n)) as H.
  pose proof (read_digits_uint (N.to_uint (Z.to_N n))) as R.
  unfold N.of_uint in H. rewrite H, Z2N.id in R by assumption.
  destruct (N.to_uint (Z.to_N n)); exact R.
Qed.

Lemma fmt_nat_starts n :
  exists c r, fmt_nat n = String c r /\ isdigit (byte c) = true.
Proof.
  unfold fmt_nat, DecimalString.NilZero.string_of_uint.
  destruct (N.to_uint (Z.to_N n)); cbn [DecimalString.NilEmpty.string_of_uint];
    eexists _, _; (split; [reflexivity|reflexivity]).
Qed.

Lemma strtol_fmt_nat n : 0 <= n <= LONG_MAX -> strtol (fmt_nat n) = n.
Proof.
  intros Hn. unfold strtol.
  pose proof (read_digits_fmt_nat n (proj1 Hn)) as R.
  destruct (fmt_nat_starts n) as (c & r & E & Hc). rewrite E in *.
  unfold isdigit in Hc. apply andb_prop in Hc as [H1 H2].
  cbn [skip_space]. unfold isspace.
  replace (((9 <=? byte c) && (byte c <=? 13)) || (byte c =? 32)) with false
    by (symmetry; apply orb_false_intro; [apply andb_false_intro2|]; lia).
  cbn [read_sign].
  destruct (Z.eqb_spec (byte c) 45); [lia|].
  destruct (Z.eqb_spec (byte c) 43); [lia|].
  destruct (read_digits 0 (String c r)) as [[v k] rest]. simpl in R. subst v.
  unfold LONG_MIN, LONG_MAX in *. lia.
Qed.

(** [atoi] reads back what ["%d"] wrote for an [int]. *)
Lemma atoi_fmt_d n : - 2 ^ 31 <= n < 2 ^ 31 -> atoi (fmt_d n) = n.
Proof.
  intros Hn. unfold atoi, fmt_d.
  assert (to_int n = n) as Hint.
  { unfold to_int. rewrite Z.mod_small by lia. lia. }
  destruct (Z.ltb_spec n 0) as [Hneg|Hpos].
  - rewrite <- Hint at 2. f_equal. unfold strtol.
    change (skip_space ("-" +:+ fmt_nat (- n))) with ("-" +:+ fmt_nat (- n)).
    change (read_sign ("-" +:+ fmt_nat (- n))) with (true, fmt_nat (- n)).
    cbv beta iota.
    pose proof (read_digits_fmt_nat (- n)) as R.
    destruct (read_digits 0 (fmt_nat (- n))) as [[v k] rest]. simpl in R.
    rewrite R by lia. unfold LONG_MIN, LONG_MAX. lia.
  - rewrite strtol_fmt_nat; [exact Hint|unfold LONG_MAX; lia].
Qed.

End Numbers.

Section RoundTrip.

Lemma string_take_all n : forall s,
  (String.length s <= n)%nat -> string_take n s = s.
Proof.
  induction n as [|n IH]; intros [|c s] H; simpl in *; try reflexivity;
    [lia|]. rewrite IH by lia. reflexivity.
Qed.

Lemma strncpy_short s n :
  plain s -> (String.length s <= n)%nat -> strncpy s n = s.
Proof.
  intros Hp Hn. unfold strncpy. rewrite (plain_cstr _ Hp).
  now apply string_take_all.
Qed.

Lemma free_cstr s : free_of 0 s -> cstr s = s.
Proof.
  induction s as [|c s IH]; [reflexivity|]. intros [Hc H]. cbn [cstr].
  destruct (Z.eqb_spec (byte c) 0); [contradiction|]. now rewrite IH.
Qed.

Lemma comma_app s : "," +:+ s = String comma s.
Proof. reflexivity. Qed.

Lemma sep_free b s t :
  b <> 44 -> free_of b s -> free_of b t -> free_of b (s +:+ String comma t).
Proof.
  intros Hb Hs Ht. apply free_of_app; [assumption|].
  split; [|assumption]. intros E. apply Hb. rewrite <- E. reflexivity.
Qed.

Lemma string_app_assoc s : forall t u, (s +:+ t) +:+ u = s +:+ (t +:+ u).
Proof.
  induction s as [|c s IH]; intros t u; [reflexivity|].
  rewrite !append_cons. now rewrite IH.
Qed.

Lemma category_word_field c : field (locationCategoryToStr c).
Proof. destruct c; (split; [discriminate|repeat split; discriminate]). Qed.

(** The location part of a vessel that can be written and read back. *)
Lemma formatLocation_field v : storable v -> field (formatLocation v).
Proof.
  intros (_ & _ & Hloc & _). unfold formatLocation.
  destruct (locationCat v), (locationInfo v); try contradiction;
    cbn [read_int read_bayLabel read_trailerTag];
    try apply fmt_d_field; try exact Hloc. apply Hloc.
Qed.

Ltac decide_words :=
  repeat match goal with
         | |- context [?f ?a ?b =? 0] =>
             let r := eval vm_compute in (f a b =? 0) in
             change (f a b =? 0) with r
         end.

Lemma readLocation_written cmp v rest :
  cmp = strcmp \/ cmp = strcasecmp ->
  storable v -> cstr rest = rest ->
  readLocation cmp (locationCategoryToStr (locationCat v))
               (formatLocation v +:+ String comma rest)
    = inr (locationCat v, locationInfo v, rest).
Proof.
  intros Hcmp Hv Hrest. pose proof (formatLocation_field v Hv) as Hf.
  destruct Hv as (_ & _ & Hloc & _).
  unfold readLocation, next_token.
  rewrite (strtok_r_field _ _ Hf Hrest). unfold formatLocation in *.
  destruct (locationCat v), (locationInfo v); try contradiction;
    cbn [locationCategoryToStr read_int read_bayLabel read_trailerTag] in *;
    destruct Hcmp as [-> | ->]; decide_words; cbv iota beta.
  - now rewrite atoi_fmt_d.
  - now rewrite atoi_fmt_d.
  - destruct Hf as [_ [[Hc _] _]]. unfold strlen, fmt_c. cbn [cstr].
    destruct (Z.eqb_spec (byte c) 0); [contradiction|reflexivity].
  - destruct Hf as [_ [[Hc _] _]]. unfold strlen, fmt_c. cbn [cstr].
    destruct (Z.eqb_spec (byte c) 0); [contradiction|reflexivity].
  - destruct Hloc as [[_ Hp] Hlen]. now rewrite strncpy_short.
  - destruct Hloc as [[_ Hp] Hlen]. now rewrite strncpy_short.
  - now rewrite atoi_fmt_d.
  - now rewrite atoi_fmt_d.
Qed.

Lemma record_free b v : b = 0 \/ b = 10 -> storable v -> free_of b (record v).
Proof.
  intros Hb Hv. pose proof (formatLocation_field v Hv) as [_ Hl].
  destruct Hv as ([_ Hn] & _ & _ & _).
  pose proof (fmt_f_field 0 (F64.of_float (lengthFt v))) as [_ H1].
  pose proof (fmt_f_field 2 (F64.of_float (outstandingFees v))) as [_ H2].
  pose proof (category_word_field (locationCat v)) as [_ H3].
  unfold record. rewrite !comma_app. unfold plain in *.
  destruct Hb as [-> | ->];
    repeat (apply sep_free; [lia|tauto|]); tauto.
Qed.

(** The reader accepts the line written for a vessel, and reads the name,
    the category and the location data that were written. *)
Lemma readRecord_record cmp v :
  cmp = strcmp \/ cmp = strcasecmp ->
  storable v -> readRecord cmp (record v) = inr (reread v).
Proof.
  intros Hcmp Hv.
  pose proof (formatLocation_field v Hv) as Hl.
  pose proof (fmt_f_field 0 (F64.of_float (lengthFt v))) as H1.
  pose proof (fmt_f_field 2 (F64.of_float (outstandingFees v))) as H2.
  pose proof (category_word_field (locationCat v)) as H3.
  pose proof Hv as (Hn & Hlen & _ & _).
  unfold readRecord, record, next_token. rewrite !comma_app.
  assert (forall s, free_of 0 s -> cstr s = s) as C by apply free_cstr.
  rewrite (strtok_r_field (vesselName v) _ Hn).
  2:{ apply C. unfold field, plain in *.
      repeat (apply sep_free; [lia|tauto|]). tauto. }
  rewrite (strtok_r_field _ _ H1).
  2:{ apply C. unfold field, plain in *.
      repeat (apply sep_free; [lia|tauto|]). tauto. }
  rewrite (strtok_r_field _ _ H3).
  2:{ apply C. unfold field, plain in *.
      repeat (apply sep_free; [lia|tauto|]). tauto. }
  rewrite (readLocation_written cmp v _ Hcmp Hv)
    by (apply C; unfold field, plain in *; tauto).
  rewrite (strtok_r_last _ H2).
  unfold reread. rewrite strncpy_short; [reflexivity|apply Hn|].
  unfold MAX_VESSEL_NAME_LEN. simpl. lia.
Qed.

Lemma formatVessel_record v : formatVessel v = ln (record v).
Proof.
  unfold formatVessel, record, ln. now rewrite !string_app_assoc.
Qed.

Lemma saveData_lines fleet : saveData fleet = file_of_lines (record <$> fleet).
Proof.
  induction fleet as [|v fleet IH]; [reflexivity|].
  rewrite fmap_cons. cbn [saveData file_of_lines].
  now rewrite IH, formatVessel_record.
Qed.

Lemma record_short v : storable v -> short_line (record v).
Proof.
  intros Hv. split; [apply record_free; [now right|assumption]|].
  destruct Hv as (_ & _ & _ & Hlen).
  rewrite formatVessel_record in Hlen. unfold ln in Hlen.
  rewrite length_append in Hlen. simpl in Hlen. lia.
Qed.

Lemma accepted_records fleet :
  Forall storable fleet -> accepted (record <$> fleet) = reread <$> fleet.
Proof.
  induction 1 as [|v fleet Hv _ IH]; [reflexivity|].
  rewrite !fmap_cons. cbn [accepted].
  rewrite (readRecord_record strcmp v (or_introl eq_refl) Hv).
  now rewrite IH.
Qed.

(** What [loadData] makes of a file written by [saveData]. *)
Lemma loadData_saveData fleet old :
  Forall storable fleet ->
  loadData (Some (saveData fleet)) old = qsort (take 120 (reread <$> fleet)).
Proof.
  intros Hs. unfold loadData. rewrite saveData_lines.
  rewrite (loadLoop_lines (record <$> fleet) _ []); [| |lia|simpl; lia].
  - simpl. now rewrite accepted_records.
  - apply Forall_fmap. eapply Forall_impl; [exact Hs|]. apply record_short.
Qed.

Lemma reread_names (fleet : list Vessel) :
  vesselName <$> (reread <$> fleet) = vesselName <$> fleet.
Proof. rewrite <- list_fmap_compose. reflexivity. Qed.

End RoundTrip.

(** X14. The file written by [saveData] is read back by [loadData] as
    the fleet that was saved: the same vessels in the same order, each
    with its name, category and location data; the length and the
    balance are the ones read from their printed form (no decimals and
    two decimals). This holds for a fleet in order with distinct names
    and at most 120 vessels, whose names, bay labels and trailer tags
    are not empty and hold no comma, newline or NUL, whose slip and
    storage numbers are ints, and whose lines fit the buffer of 256
    bytes. *)
Theorem X14_saved_file_loads_back (fleet old : list Vessel) :
  Forall storable fleet -> sorted_by_name fleet -> distinct_names fleet ->
  (length fleet <= 120)%nat ->
  loadData (Some (saveData fleet)) old = reread <$> fleet.
Proof.
  intros Hs Hsorted Hdistinct Hlen.
  rewrite (loadData_saveData _ _ Hs).
  rewrite take_ge by (rewrite length_fmap; lia).
  apply sorted_distinct_unique.
  - intros i j v w Hi Hj H.
    rewrite list_lookup_fmap in Hi, Hj.
    destruct (fleet !! i) as [v0|] eqn:Ei; [|discriminate].
    destruct (fleet !! j) as [w0|] eqn:Ej; [|discriminate].
    injection Hi as <-. injection Hj as <-.
    exact (Hdistinct i j v0 w0 Ei Ej H).
  - apply qsort_sorted.
  - unfold sorted_by_name. now rewrite reread_names.
  - apply qsort_Permutation.
Qed.

Lemma X14_saved_file_loads_back_witness :
  loadData (Some (saveData two_boats)) [Gamma] = reread <$> two_boats.
Proof.
  apply (X14_saved_file_loads_back two_boats [Gamma]).
  - repeat constructor; try discriminate; try (vm_compute; discriminate);
      try (simpl; lia); vm_compute; intros; discriminate.
  - repeat constructor; vm_compute; discriminate.
  - intros i j v w Hi Hj H.
    destruct i as [|[|i]], j as [|[|j]]; try reflexivity;
      simpl in Hi, Hj; try discriminate;
      injection Hi as <-; injection Hj as <-; vm_compute in H; discriminate.
  - simpl. lia.
Defined.

(* ================================================================== *)
(** * Balances that are not negative *)
(* ================================================================== *)

Section Signs.

Lemma F32_prec_pos : 0 < F32.prec.
Proof. reflexivity. Qed.

Lemma SFleb_finite_refl s m e :
  SFleb (S754_finite s m e) (S754_finite s m e) = true.
Proof.
  unfold SFleb, SFcompare. rewrite Z.compare_refl.
  change (Pos.compare_cont Eq m m) with (Pos.compare m m).
  rewrite Pos.compare_refl. now destruct s.
Qed.

(** For canonical positive floats the comparison follows the
    magnitudes. *)
Lemma aligned_mantissa_gt ma ea mb eb :
  canonical_mantissa F32.prec F32.emax ma ea = true ->
  canonical_mantissa F32.prec F32.emax mb eb = true ->
  SFleb (S754_finite false mb eb) (S754_finite false ma ea) = false ->
  Zpos (shl_align ma ea (Z.min eb ea)).1 < Zpos (shl_align mb eb (Z.min eb ea)).1.
Proof.
  intros Ha Hb Hgt. rewrite (Z.min_comm eb ea).
  apply (aligned_mantissa_lt F32.prec F32.emax F32_prec_pos mb eb ma ea Hb Ha).
  revert Hgt. unfold SFleb, SFltb, SFcompare.
  destruct (eb ?= ea); try discriminate; try reflexivity.
  now destruct (Pos.compare_cont Eq mb ma).
Qed.

(** Adding a float that is not negative to a balance that is not
    negative. *)
Lemma add_not_below b c :
  F32.valid b = true -> not_negative b -> not_negative c ->
  F32.geb (F32.add b c) b = true /\ not_negative (F32.add b c).
Proof.
  intros Vb Hb Hc. unfold F32.geb, F32.add.
  destruct b as [sb|[|]| |[|] mb eb]; try contradiction;
    destruct c as [sc|[|]| |[|] mc ec]; try contradiction;
    try (split; [reflexivity|exact I]).
  - destruct sb, sc; split; (reflexivity || exact I).
  - split; [apply SFleb_finite_refl|exact I].
  - simpl in Vb. apply andb_prop in Vb as [Vb _].
    unfold SFadd, binary_normalize. cbn [cond_Zopp].
    pose proof (shl_align_value mb eb (Z.min eb ec) ltac:(lia)) as Hv.
    destruct (Zpos (shl_align mb eb (Z.min eb ec)).1
              + Zpos (shl_align mc ec (Z.min eb ec)).1) as [|s|s] eqn:E;
      [lia| |lia].
    split; [|apply binary_round_not_negative].
    apply (binary_round_ge _ _ F32_prec_pos); [assumption|lia|lia].
Qed.

(** Taking an amount below the balance away from a balance that is not
    negative. *)
Lemma sub_not_negative b a :
  F32.valid a = true -> F32.valid b = true ->
  not_negative b -> F32.geb a b = false -> a <> S754_nan ->
  not_negative (F32.sub b a).
Proof.
  intros Va Vb Hb Hacc Hnan. unfold F32.geb, F32.sub in *.
  destruct b as [sb|[|]| |[|] mb eb]; try contradiction;
    destruct a as [sa|[|]| |[|] ma ea]; try congruence;
    try discriminate; try exact I.
  - (* a is negative: the sum rounds to a float that is not negative *)
    unfold SFsub, binary_normalize. cbn [cond_Zopp].
    destruct (Zpos (shl_align mb eb (Z.min eb ea)).1
              - - Zpos (shl_align ma ea (Z.min eb ea)).1) as [|s|s] eqn:E;
      [exact I| |lia].
    apply binary_round_not_negative.
  - (* 0 < a < b: the difference is positive *)
    simpl in Va, Vb. apply andb_prop in Va as [Va _], Vb as [Vb _].
    pose proof (aligned_mantissa_gt ma ea mb eb Va Vb Hacc) as Hlt.
    unfold SFsub, binary_normalize. cbn [cond_Zopp].
    destruct (Zpos (shl_align mb eb (Z.min eb ea)).1
              - Zpos (shl_align ma ea (Z.min eb ea)).1) as [|s|s] eqn:E;
      [exact I| |lia].
    apply binary_round_not_negative.
Qed.

Lemma of_double_not_negative x :
  not_negative x -> not_negative (F32.of_double x).
Proof.
  destruct x as [s|[|]| |[|] m e]; try contradiction; try (intros; exact I).
  intros _. apply binary_round_not_negative.
Qed.

Lemma of_float_not_negative x :
  not_negative x -> not_negative (F64.of_float x).
Proof.
  destruct x as [s|[|]| |[|] m e]; try contradiction; try (intros; exact I).
  intros _. apply binary_round_not_negative.
Qed.

Lemma rate_positive lc : exists m e, rate lc = S754_finite false m e.
Proof. destruct lc; vm_compute; eauto. Qed.

(** The charge of a vessel whose length is not negative. *)
Lemma monthlyCharge_not_negative v :
  not_negative (lengthFt v) -> not_negative (monthlyCharge v).
Proof.
  intros Hl. unfold monthlyCharge. apply of_double_not_negative.
  apply of_float_not_negative in Hl.
  destruct (rate_positive (locationCat v)) as (m & e & ->).
  unfold F64.mul.
  destruct (F64.of_float (lengthFt v)) as [s|[|]| |[|] ml el];
    try contradiction; try exact I.
  apply binary_round_aux_not_negative. lia.
Qed.

End Signs.

(** X15. Billing never lowers a balance: for a vessel whose length and
    balance are not negative, [applyMonthlyFees] leaves a balance that
    is at least the one there was, and is not negative. *)
Theorem X15_billing_never_lowers (fleet : list Vessel) (i : nat)
    (v : Vessel) :
  fleet !! i = Some v -> fees_valid v ->
  not_negative (outstandingFees v) -> not_negative (lengthFt v) ->
  applyMonthlyFees fleet !! i = Some (bill v) /\
  F32.geb (outstandingFees (bill v)) (outstandingFees v) = true /\
  not_negative (outstandingFees (bill v)).
Proof.
  intros Hi Hvalid Hfees Hlen. split.
  - rewrite applyMonthlyFees_map, list_lookup_fmap, Hi. reflexivity.
  - apply add_not_below; try assumption.
    now apply monthlyCharge_not_negative.
Qed.

Lemma X15_billing_never_lowers_witness :
  applyMonthlyFees two_boats !! 0%nat = Some (bill Alpha) /\
  F32.geb (outstandingFees (bill Alpha)) (outstandingFees Alpha) = true /\
  not_negative (outstandingFees (bill Alpha)).
Proof.
  apply (X15_billing_never_lowers two_boats 0 Alpha);
    reflexivity || exact I.
Defined.

(** X16. A payment never makes a balance negative. When the balance [b]
    of the vessel is not negative and the amount [a] is not refused
    ([a >= b] is false), the balance becomes [b - a], which is not
    negative for every amount that is a number. An amount that is not a
    number (the input [nan]) is not refused either: the balance then
    becomes a NaN. *)
Theorem X16_payment_keeps_balance_not_negative (stdin : string)
    (fleet : list Vessel) (inputName stdin1 buf stdin2 : string) (k : nat)
    (v : Vessel) :
  read_line MAX_VESSEL_NAME_LEN stdin = Some (inputName, stdin1) ->
  fgets 50 stdin1 = Some (buf, stdin2) ->
  fleet !! k = Some v -> matches inputName v ->
  Forall (fun w => ~ matches inputName w) (take k fleet) ->
  fees_valid v -> not_negative (outstandingFees v) ->
  let a := F32.of_double (atof buf) in
  let b := outstandingFees v in
  F32.geb a b = false ->
  recordPayment stdin fleet
    = (<[k := with_fees v (F32.sub b a)]> fleet, stdin2, None) /\
  (a <> S754_nan -> not_negative (F32.sub b a)) /\
  (a = S754_nan -> F32.sub b a = S754_nan).
Proof.
  intros Hname Hamount Hk Hm Hfirst Hvalid Hfees a b Hacc. split; [|split].
  - rewrite (recordPayment_found _ _ _ _ _ _ _ _ Hname Hamount Hk Hm Hfirst).
    cbv zeta. fold a b. now rewrite Hacc.
  - intros Hnan. apply sub_not_negative; try assumption.
    apply F32_of_double_valid.
  - intros ->. unfold F32.sub. now destruct b.
Qed.

Lemma X16_payment_keeps_balance_not_negative_witness :
  recordPayment (ln "alpha" +:+ ln "nan") two_boats
    = (<[0%nat := with_fees Alpha
                    (F32.sub f100 (F32.of_double (atof (ln "nan"))))]> two_boats,
       EmptyString, None) /\
  (F32.of_double (atof (ln "nan")) <> S754_nan ->
   not_negative (F32.sub f100 (F32.of_double (atof (ln "nan"))))) /\
  (F32.of_double (atof (ln "nan")) = S754_nan ->
   F32.sub f100 (F32.of_double (atof (ln "nan"))) = S754_nan).
Proof.
  apply (X16_payment_keeps_balance_not_negative (ln "alpha" +:+ ln "nan")
           two_boats "alpha" (ln "nan") (ln "nan") EmptyString 0%nat Alpha).
  - reflexivity.
  - reflexivity.
  - reflexivity.
  - reflexivity.
  - constructor.
  - reflexivity.
  - exact I.
  - vm_compute. reflexivity.
Defined.

(* ================================================================== *)
(** * The two readers on the same line *)
(* ================================================================== *)

Section TwoReaders.

Lemma fold_case_cstr s : fold_case (cstr s) = fold_case s.
Proof.
  induction s as [|c s IH]; [reflexivity|]. cbn [cstr fold_case].
  destruct (byte c =? 0) eqn:E; [reflexivity|].
  cbn [fold_case]. now rewrite E, IH.
Qed.

(** A token that is one of the words exactly is that word up to case. *)
Lemma exact_word token word :
  cstr word = word -> strcmp token word = 0 -> strcasecmp token word = 0.
Proof.
  intros Hw H. apply strcmp_zero in H. apply strcasecmp_zero.
  rewrite <- (fold_case_cstr token), H. now rewrite Hw.
Qed.

(** A token that is one of the words exactly is no other word up to
    case. *)
Lemma other_word token word other :
  cstr word = word -> fold_case word <> fold_case other ->
  strcmp token word = 0 -> (strcasecmp token other =? 0) = false.
Proof.
  intros Hw Hne H. apply strcmp_zero in H. apply Z.eqb_neq.
  intros E. apply strcasecmp_zero in E. apply Hne.
  rewrite <- E, <- (fold_case_cstr token), H. now rewrite Hw.
Qed.

Lemma readLocation_both token rest r :
  readLocation strcmp token rest = inr r ->
  readLocation strcasecmp token rest = inr r.
Proof.
  unfold readLocation.
  destruct (Z.eqb_spec (strcmp token "slip") 0) as [E1|_].
  { now rewrite (exact_word token "slip" eq_refl E1). }
  destruct (Z.eqb_spec (strcmp token "land") 0) as [E2|_].
  { rewrite (other_word token "land" "slip" eq_refl ltac:(discriminate) E2).
    now rewrite (exact_word token "land" eq_refl E2). }
  destruct (Z.eqb_spec (strcmp token "trailor") 0) as [E3|_].
  { rewrite (other_word token "trailor" "slip" eq_refl ltac:(discriminate) E3).
    rewrite (other_word token "trailor" "land" eq_refl ltac:(discriminate) E3).
    now rewrite (exact_word token "trailor" eq_refl E3). }
  destruct (Z.eqb_spec (strcmp token "storage") 0) as [E4|_]; [|discriminate].
  rewrite (other_word token "storage" "slip" eq_refl ltac:(discriminate) E4).
  rewrite (other_word token "storage" "land" eq_refl ltac:(discriminate) E4).
  rewrite (other_word token "storage" "trailor" eq_refl ltac:(discriminate) E4).
  now rewrite (exact_word token "storage" eq_refl E4).
Qed.

Lemma readRecord_both line v :
  readRecord strcmp line = inr v -> readRecord strcasecmp line = inr v.
Proof.
  unfold readRecord.
  destruct (next_token NoName line) as [|[token rest]]; [discriminate|].
  destruct (next_token NoLength rest) as [|[token1 rest1]]; [discriminate|].
  destruct (next_token NoCategory rest1) as [|[token2 rest2]]; [discriminate|].
  destruct (readLocation strcmp token2 rest2) as [|r] eqn:E; [discriminate|].
  now rewrite (readLocation_both _ _ _ E).
Qed.

Lemma cstr_length s : (String.length (cstr s) <= String.length s)%nat.
Proof.
  induction s as [|c s IH]; [reflexivity|]. cbn [cstr].
  destruct (byte c =? 0); simpl; lia.
Qed.

End TwoReaders.

(** X17. Every line that [loadData] accepts from a file can be typed at
    the (A)dd prompt with the same result: [insertVessel] reads the same
    vessel from it and adds it, when the fleet has room and the line has
    at most 255 bytes, as every line [loadData] reads has. The converse
    does not hold (C2). *)
Theorem X17_add_accepts_what_load_accepts (fleet : list Vessel)
    (line : string) (v : Vessel) :
  readRecord strcmp line = inr v ->
  (String.length line <= 255)%nat -> (length fleet < 120)%nat ->
  insertVessel fleet line = (qsort (fleet ++ [v]), None).
Proof.
  intros Hload Hline Hroom. apply insertVessel_accepts; [assumption|].
  unfold strncpy. rewrite string_take_all.
  - rewrite readRecord_of_cstr. now apply readRecord_both.
  - pose proof (cstr_length line). lia.
Qed.

Lemma X17_add_accepts_what_load_accepts_witness :
  insertVessel two_boats "Gamma,30,slip,7,100.00"
    = (qsort (two_boats ++ [Gamma]), None).
Proof.
  apply (X17_add_accepts_what_load_accepts two_boats
           "Gamma,30,slip,7,100.00" Gamma).
  - vm_compute. reflexivity.
  - simpl. lia.
  - simpl. lia.
Defined.

(* ================================================================== *)
(** * What the readers store *)
(* ================================================================== *)

Section Tokens.

Lemma free_of_take b n : forall s, free_of b s -> free_of b (string_take n s).
Proof.
  induction n as [|n IH]; intros [|c s] H; try exact I.
  destruct H as [Hc H]. split; [exact Hc|now apply IH].
Qed.

Lemma free_of_drop b n : forall s, free_of b s -> free_of b (string_drop n s).
Proof.
  induction n as [|n IH]; intros [|c s] H; try exact H; try exact I.
  destruct H as [_ H]. now apply IH.
Qed.

Lemma cstr_free s : free_of 0 (cstr s).
Proof.
  induction s as [|c s IH]; [exact I|]. cbn [cstr].
  destruct (Z.eqb_spec (byte c) 0); [exact I|now split].
Qed.

(** The bytes before the first comma. *)
Lemma take_strcspn_free s :
  free_of 44 (string_take (strcspn s ",") s).
Proof.
  induction s as [|c s IH]; [exact I|]. cbn [strcspn].
  rewrite in_set_comma.
  destruct (Z.eqb_spec (byte c) 0); [exact I|].
  destruct (Z.eqb_spec (byte c) 44); [exact I|].
  cbn [orb string_take]. now split.
Qed.

(** After the leading commas comes the end or a byte that is no comma. *)
Lemma skip_commas s c r :
  string_drop (strspn s ",") s = String c r -> byte c <> 44.
Proof.
  induction s as [|d s IH]; [discriminate|]. cbn [strspn].
  rewrite in_set_comma. destruct (Z.eqb_spec (byte d) 44) as [E|E].
  - exact IH.
  - cbn [string_drop]. now intros [= <- _].
Qed.

(** [strtok_r] never returns an empty token, nor one with a comma. *)
Lemma strtok_r_is_token s token rest :
  strtok_r s "," = Some (token, rest) -> is_token token.
Proof.
  unfold strtok_r.
  pose proof (free_of_drop 0 (strspn (cstr s) ",") _ (cstr_free s)) as H0.
  destruct (string_drop (strspn (cstr s) ",") (cstr s)) as [|c r] eqn:E;
    [discriminate|].
  apply skip_commas in E. intros H.
  assert (token = string_take (strcspn (String c r) ",") (String c r))
    as -> by congruence.
  clear H. split; [|split].
  - destruct H0 as [Hc _]. cbn [strcspn]. rewrite in_set_comma.
    destruct (Z.eqb_spec (byte c) 0); [contradiction|].
    destruct (Z.eqb_spec (byte c) 44); [contradiction|]. discriminate.
  - now apply free_of_take.
  - apply take_strcspn_free.
Qed.

Lemma strncpy_is_token s n : is_token s -> is_token (strncpy s (S n)).
Proof.
  intros (Hne & H0 & H44). unfold strncpy. rewrite (free_cstr _ H0).
  split; [|split; now apply free_of_take].
  destruct s; [contradiction|discriminate].
Qed.

Lemma to_int_range n : - 2 ^ 31 <= to_int n < 2 ^ 31.
Proof.
  unfold to_int. pose proof (Z.mod_pos_bound (n + 2 ^ 31) (2 ^ 32) eq_refl).
  lia.
Qed.

Lemma readLocation_well_formed cmp token rest cat info rest' :
  readLocation cmp token rest = inr (cat, info, rest') ->
  match info with
  | slipNo n | storageSpot n => - 2 ^ 31 <= n < 2 ^ 31
  | bayLabel c => byte c <> 0 /\ byte c <> 44
  | trailerTag tag => is_token tag
  end.
Proof.
  unfold readLocation, next_token.
  destruct (strtok_r rest ",") as [[t r]|] eqn:E.
  2:{ repeat (destruct (_ =? 0); [discriminate|]). discriminate. }
  apply strtok_r_is_token in E.
  destruct (cmp token "slip" =? 0).
  { intros [= _ <- _]. apply to_int_range. }
  destruct (cmp token "land" =? 0).
  { destruct (Nat.eqb _ _); [discriminate|]. intros [= _ <- _].
    destruct E as (Hne & H0 & H44).
    destruct t as [|c t]; [contradiction|]. split; [apply H0|apply H44]. }
  destruct (cmp token "trailor" =? 0).
  { intros [= _ <- _]. now apply strncpy_is_token. }
  destruct (cmp token "storage" =? 0); [|discriminate].
  intros [= _ <- _]. apply to_int_range.
Qed.

Lemma readRecord_well_formed cmp line v :
  readRecord cmp line = inr v -> well_formed v.
Proof.
  intros H. apply readRecord_inr in H
    as (name & rest1 & len & rest2 & cat & rest3 & rest4 & fees & rest5
        & H1 & _ & _ & Hloc & _ & Hname & _).
  split.
  - rewrite Hname. apply strncpy_is_token. now apply strtok_r_is_token in H1.
  - exact (readLocation_well_formed _ _ _ _ _ _ Hloc).
Qed.

Lemma with_fees_well_formed v fees :
  well_formed v -> well_formed (with_fees v fees).
Proof. destruct v. exact (fun H => H). Qed.

Lemma loadLoop_well_formed fuel : forall fp fleet,
  Forall well_formed fleet -> Forall well_formed (loadLoop fuel fp fleet).
Proof.
  induction fuel as [|fuel IH]; intros fp fleet Hf; [assumption|].
  simpl. destruct (fgets 256 fp) as [[buf fp']|]; [|assumption].
  destruct (decide (length fleet < MAX_VESSELS)%nat); [|assumption].
  destruct (readRecord strcmp _) as [e|v] eqn:Hr; [now apply IH|].
  apply IH, Forall_app. split; [assumption|].
  constructor; [|constructor]. now apply readRecord_well_formed in Hr.
Qed.

Lemma execute_well_formed fleet c :
  Forall well_formed fleet -> Forall well_formed (execute fleet c).
Proof.
  intros Hf. destruct c as [csvLine|stdin|stdin|]; simpl.
  - destruct (insertVessel_cases fleet csvLine) as [->|(v & Hr & _ & ->)];
      [assumption|]. simpl. rewrite qsort_Permutation.
    apply Forall_app. split; [assumption|].
    constructor; [|constructor]. now apply readRecord_well_formed in Hr.
  - destruct (removeVessel_cases stdin fleet) as [->|[k ->]];
      [assumption|now apply Forall_delete].
  - destruct (recordPayment_cases stdin fleet) as [->|(i & v & fees & Hv & ->)];
      [assumption|].
    apply Forall_insert; [assumption|]. apply with_fees_well_formed.
    rewrite Forall_lookup in Hf. exact (Hf _ _ Hv).
  - rewrite applyMonthlyFees_map. apply Forall_fmap.
    eapply Forall_impl; [exact Hf|]. intros v Hv.
    apply with_fees_well_formed, Hv.
Qed.

End Tokens.

(** X18. No stored field is empty or holds a comma: in every fleet the
    program can reach, every name and every trailer tag is not empty and
    holds no comma, no bay label is a comma or NUL, and every slip or
    storage number is an [int]. In particular a name is never empty,
    although the readers do not detect an empty name field (C7). *)
Theorem X18_stored_fields_are_tokens (file : option string)
    (cs : list Command) :
  Forall well_formed (session (loadData file []) cs).
Proof.
  assert (forall fleet, Forall well_formed fleet ->
            Forall well_formed (session fleet cs)) as H.
  { induction cs as [|c cs IH]; intros fleet Hf; [assumption|].
    simpl. apply IH. now apply execute_well_formed. }
  apply H. destruct file as [fp|]; simpl; [|constructor].
  rewrite qsort_Permutation. apply loadLoop_well_formed. constructor.
Qed.

(* ================================================================== *)
(** * The columns of the listing *)
(* ================================================================== *)

Section Columns.

Lemma spaces_length n : String.length (spaces n) = n.
Proof. induction n as [|n IH]; simpl; [|rewrite IH]; reflexivity. Qed.

Lemma pad_left_length width s :
  String.length (pad_left width s) = Nat.max width (String.length s).
Proof. unfold pad_left. rewrite length_append, spaces_length. lia. Qed.

Lemma pad_right_length width s :
  String.length (pad_right width s) = Nat.max width (String.length s).
Proof. unfold pad_right. rewrite length_append, spaces_length. lia. Qed.

Lemma listLocation_length v :
  String.length (listLocation v)
    = (15 - location_width (locationCat v)
       + Nat.max (location_width (locationCat v))
                 (String.length (formatLocation v)))%nat.
Proof.
  unfold listLocation, formatLocation.
  destruct (locationCat v); cbn [location_width];
    rewrite !length_append, ?pad_left_length; simpl; lia.
Qed.

Lemma listLine_length v :
  String.length (listLine v)
    = (Nat.max 20 (String.length (vesselName v)) + 1
       + Nat.max 3 (String.length (fmt_f 0 (F64.of_float (lengthFt v)))) + 2
       + String.length (listLocation v) + 9
       + Nat.max 7 (String.length (fmt_f 2 (F64.of_float (outstandingFees v))))
       + 1)%nat.
Proof.
  unfold listLine.
  rewrite !length_append, pad_right_length, !pad_left_length. simpl. lia.
Qed.

End Columns.

(** X19. The listing is in columns: a line of [listAllVessels] has at
    least 58 bytes with its newline, and exactly 58 when the name has at
    most 20 bytes, the length prints in at most 3, the slip or storage
    number in at most 2, the trailer tag has at most 6 and the balance
    prints in at most 7. No field is ever cut: one that is wider than
    its column (a trailer tag of 7 to 9 bytes, which the array allows)
    makes its line longer. *)
Theorem X19_listing_columns (v : Vessel) :
  (58 <= String.length (listLine v))%nat /\
  (fits_columns v -> String.length (listLine v) = 58%nat) /\
  (String.length (listLine v) = 58%nat -> fits_columns v).
Proof.
  rewrite listLine_length, listLocation_length. unfold fits_columns.
  destruct (locationCat v); cbn [location_width]; lia.
Qed.

Lemma X19_listing_columns_witness :
  (58 <= String.length (listLine Alpha))%nat /\
  (fits_columns Alpha -> String.length (listLine Alpha) = 58%nat) /\
  (String.length (listLine Alpha) = 58%nat -> fits_columns Alpha).
Proof. exact (X19_listing_columns Alpha). Defined.

(* ================================================================== *)
(** * Names longer than their array *)
(* ================================================================== *)

Section LongNames.

Lemma cstr_app_free s : forall t, free_of 0 s -> cstr (s +:+ t) = s +:+ cstr t.
Proof.
  induction s as [|c s IH]; intros t H; [reflexivity|].
  destruct H as [Hc H]. rewrite !append_cons. cbn [cstr].
  destruct (Z.eqb_spec (byte c) 0); [contradiction|]. now rewrite IH.
Qed.

(** A token followed by a comma is the next token, whatever follows. *)
Lemma strtok_r_token tok rest :
  is_token tok ->
  strtok_r (tok +:+ String comma rest) "," = Some (tok, cstr rest).
Proof.
  intros (Hne & H0 & H44).
  rewrite <- strtok_r_of_cstr, (cstr_app_free _ _ H0).
  change (cstr (String comma rest)) with (String comma (cstr rest)).
  unfold strtok_r.
  rewrite (cstr_app tok (String comma (cstr rest)) (free_cstr _ H0))
    by (cbn [cstr]; now rewrite cstr_idem).
  destruct tok as [|c tok]; [contradiction|].
  rewrite append_cons. cbn [strspn]. rewrite in_set_comma.
  destruct H44 as [Hc44 H44'].
  destruct (Z.eqb_spec (byte c) 44); [contradiction|]. cbn [string_drop].
  rewrite <- append_cons.
  destruct (token_split (String c tok) (cstr rest) H0 (conj Hc44 H44'))
    as [E1 E2].
  rewrite E1. do 2 f_equal. exact E2.
Qed.

Lemma take_is_token s n : is_token s -> is_token (string_take (S n) s).
Proof.
  intros H. pose proof (strncpy_is_token s n H) as H'.
  unfold strncpy in H'. now rewrite (free_cstr _ (proj1 (proj2 H))) in H'.
Qed.

Lemma string_take_twice n s :
  string_take n (string_take n s) = string_take n s.
Proof. apply string_take_all, string_take_length. Qed.

(** The reader sees of a name field its first 127 bytes only. *)
Lemma readRecord_long_name cmp name rest :
  is_token name ->
  readRecord cmp (name +:+ "," +:+ rest)
    = readRecord cmp (string_take 127 name +:+ "," +:+ rest).
Proof.
  intros Hn. pose proof (take_is_token name 126 Hn) as Hn'.
  unfold readRecord, next_token. rewrite !comma_app.
  rewrite (strtok_r_token _ _ Hn), (strtok_r_token _ _ Hn').
  unfold strncpy. change (MAX_VESSEL_NAME_LEN - 1)%nat with 127%nat.
  rewrite (free_cstr _ (proj1 (proj2 Hn))), (free_cstr _ (proj1 (proj2 Hn'))).
  now rewrite string_take_twice.
Qed.

Lemma readRecord_name_field cmp name rest v :
  is_token name ->
  readRecord cmp (name +:+ "," +:+ rest) = inr v ->
  vesselName v = string_take 127 name.
Proof.
  intros Hn Hr.
  destruct (readRecord_name _ _ _ Hr) as (token & r & Ht & Hv & _).
  rewrite comma_app, (strtok_r_token _ _ Hn) in Ht.
  injection Ht as <- _. exact Hv.
Qed.

Lemma append_empty s : s +:+ EmptyString = s.
Proof. induction s as [|c s IH]; [reflexivity|]. now rewrite append_cons, IH. Qed.

Lemma qsort_singleton v : qsort [v] = [v].
Proof. apply Permutation_singleton_r, qsort_Permutation. Qed.

(** A file of one line that [fgets] reads in one piece. *)
Lemma loadData_one_line line v old :
  short_line line -> readRecord strcmp line = inr v ->
  loadData (Some (ln line)) old = [v].
Proof.
  intros Hs Hr. unfold loadData.
  replace (ln line) with (file_of_lines [line])
    by (cbn [file_of_lines]; apply append_empty).
  rewrite (loadLoop_lines [line] _ []); [| |lia|simpl; lia].
  - simpl. rewrite Hr. apply qsort_singleton.
  - now constructor.
Qed.

Lemma insertVessel_one_line fleet line v :
  (String.length line <= 255)%nat -> (length fleet < 120)%nat ->
  readRecord strcasecmp line = inr v ->
  insertVessel fleet line = (qsort (fleet ++ [v]), None).
Proof.
  intros Hline Hroom Hr. apply insertVessel_accepts; [assumption|].
  unfold strncpy. rewrite string_take_all.
  - now rewrite readRecord_of_cstr.
  - pose proof (cstr_length line). lia.
Qed.

End LongNames.

(** C10 as it is stated fails on a name field that does not fit the
    line buffer of 256 bytes. [fgets] hands the line over in pieces: on
    the bulk-load path the first 255 bytes are a name without further
    fields and are skipped, and what is left is read as a line of its
    own, so the vessel is stored under the last 45 bytes of its name;
    on the interactive path the line is cut to its first 255 bytes, and
    the vessel is refused with the message for an invalid format. *)
Lemma C10_counterexample :
  strtok_r line_300 "," = Some (name_300, "20,slip,5,100.00") /\
  String.length name_300 = 300%nat /\
  loadData (Some (ln line_300)) []
    = [mkVessel tail_45 f20 SLIP (slipNo 5) f100] /\
  tail_45 <> string_take 127 name_300 /\
  insertVessel [] line_300 = ([], Some InvalidCSVFormat).
Proof.
  repeat split; try (vm_compute; reflexivity). vm_compute. discriminate.
Qed.

(** C10, amended. Every name in the fleet has at most 127 characters,
    whatever file was loaded and whatever commands followed. A name
    field is read as its first 127 characters, and its length has no
    part in whether the line is accepted: both readers read a line as
    they read the same line with the name cut that way. For a line that
    fits the line buffer, the vessel is then stored under the first 127
    characters of its name, without any message: [loadData] stores it
    from a line of at most 254 bytes, [insertVessel] from one of at most
    255 bytes when the fleet has room. *)
Theorem C10_names_are_cut_to_127 :
  (forall file cs, Forall name_fits (session (loadData file []) cs)) /\
  (forall cmp name rest,
     is_token name ->
     readRecord cmp (name +:+ "," +:+ rest)
       = readRecord cmp (string_take 127 name +:+ "," +:+ rest) /\
     (forall v, readRecord cmp (name +:+ "," +:+ rest) = inr v ->
                vesselName v = string_take 127 name)) /\
  (forall name rest v old,
     is_token name -> short_line (name +:+ "," +:+ rest) ->
     readRecord strcmp (string_take 127 name +:+ "," +:+ rest) = inr v ->
     loadData (Some (ln (name +:+ "," +:+ rest))) old = [v] /\
     vesselName v = string_take 127 name) /\
  (forall name rest v fleet,
     is_token name ->
     (String.length (name +:+ "," +:+ rest) <= 255)%nat ->
     (length fleet < 120)%nat ->
     readRecord strcasecmp (string_take 127 name +:+ "," +:+ rest) = inr v ->
     insertVessel fleet (name +:+ "," +:+ rest) = (qsort (fleet ++ [v]), None) /\
     vesselName v = string_take 127 name).
Proof.
  split; [|split; [|split]].
  - intros file cs. apply session_names, loadData_names.
  - intros cmp name rest Hn. split; [now apply readRecord_long_name|].
    intros v. now apply readRecord_name_field.
  - intros name rest v old Hn Hs Hr.
    rewrite <- (readRecord_long_name _ _ _ Hn) in Hr. split.
    + now apply loadData_one_line.
    + exact (readRecord_name_field _ _ _ _ Hn Hr).
  - intros name rest v fleet Hn Hline Hroom Hr.
    rewrite <- (readRecord_long_name _ _ _ Hn) in Hr. split.
    + now apply insertVessel_one_line.
    + exact (readRecord_name_field _ _ _ _ Hn Hr).
Qed.

(** A name of 130 characters in a line of 147: both paths store the
    vessel under the first 127. *)
Lemma C10_names_are_cut_to_127_witness :
  (loadData (Some (ln long_line)) [Gamma]
     = [mkVessel (string_take 127 long_name) f20 SLIP (slipNo 5) f100] /\
   vesselName (mkVessel (string_take 127 long_name) f20 SLIP (slipNo 5) f100)
     = string_take 127 long_name) /\
  (insertVessel two_boats long_line
     = (qsort (two_boats
               ++ [mkVessel (string_take 127 long_name) f20 SLIP (slipNo 5)
                            f100]), None) /\
   vesselName (mkVessel (string_take 127 long_name) f20 SLIP (slipNo 5) f100)
     = string_take 127 long_name).
Proof.
  assert (is_token long_name) as Hn
    by (repeat split; vm_compute; discriminate).
  split.
  - apply (proj1 (proj2 (proj2 C10_names_are_cut_to_127))
             long_name "20,slip,5,100.00" _ [Gamma] Hn).
    + split; [repeat split; vm_compute; discriminate|vm_compute; lia].
    + vm_compute. reflexivity.
  - apply (proj2 (proj2 (proj2 C10_names_are_cut_to_127))
             long_name "20,slip,5,100.00" _ two_boats Hn).
    + vm_compute. lia.
    + simpl. lia.
    + vm_compute. reflexivity.
Defined.
